(** * kubearmor-client: the observer (package log) and the port forwarder
      (package utils)

    A shallow embedding of [log/log.go] and of the port-forward helpers of
    package [utils], with the properties of the observer's start-up, its
    wait for termination, its release path, the filter compiler and the
    local endpoint allocation.

    Conventions.
    - Go [error] values are modelled by their message ([error := string]);
      a nil error is [None].
    - [int64] values are [Z] with the wrap-around written out ([wrap64]).
    - Package-level variables live in one record ([Globals]); code that
      reads and writes them is written in a small state monad ([M]) that
      also records the calls made to the outside world as a trace of
      [Event]s.
    - What the outside world answers (environment variables, the cluster,
      the network stack, the random source, the gRPC client of
      logClient.go) is a parameter, the record [World]. *)

From Stdlib Require Import ZArith String Ascii List Bool Lia DecimalString.
From stdpp Require Import base option list gmap strings.
Import ListNotations.

Local Open Scope Z_scope.
Local Open Scope string_scope.

(** ** Go basics *)

(** A Go [error], by its message. *)
Definition error : Type := string.

(** Two's-complement wrap-around of [int64] arithmetic. *)
Definition wrap64 (z : Z) : Z := (z + 2 ^ 63) mod 2 ^ 64 - 2 ^ 63.

(** ** The interface of Go's [regexp] package that the observer uses

    [regexp.Compile] and the method [MatchString] belong to Go's standard
    library, not to this repository.  The observer is written against this
    interface; [syntax.RE2] below is a reference instance. *)
Class RegexpLib := {
  Regexp : Type;
  Compile : string -> Regexp + error;
  MatchString : Regexp -> string -> bool
}.

(** ** A reference instance: a fragment of Go's regexp/syntax

    The fragment: ASCII literals, [.], [^], [$], the postfix operators
    [*], [+], [?] (with their non-greedy forms), alternation, capturing
    groups, the flag groups [(?flags)] and [(?flags:re)] over the flags
    [i], [s] and [U], and backslash followed by ASCII punctuation, in
    patterns of at most [maxPattern] bytes.  Subjects are arbitrary byte
    strings; they are read as UTF-8, rune by rune, the way Go reads them,
    and a literal under the flag [i] matches the runes of its orbit under
    Unicode simple case folding.  Syntax outside the fragment (classes,
    counted repetition, backslash followed by a letter or digit, named
    groups, the flag [m], bytes above 127, longer patterns) is answered
    with [ErrOutsideFragment], which is not an error of Go: the instance
    makes no statement about such patterns. *)
Module syntax.

Inductive ErrorCode :=
| ErrInternalError
| ErrMissingParen
| ErrUnexpectedParen
| ErrMissingRepeatArgument
| ErrInvalidRepeatOp
| ErrTrailingBackslash
| ErrInvalidPerlOp
| ErrOutsideFragment.

Definition codeString (c : ErrorCode) : string :=
  match c with
  | ErrInternalError => "regexp/syntax: internal error"
  | ErrMissingParen => "missing closing )"
  | ErrUnexpectedParen => "unexpected )"
  | ErrMissingRepeatArgument => "missing argument to repetition operator"
  | ErrInvalidRepeatOp => "invalid nested repetition operator"
  | ErrTrailingBackslash => "trailing backslash at end of expression"
  | ErrInvalidPerlOp => "invalid or unsupported Perl syntax"
  | ErrOutsideFragment => "outside the modelled fragment"
  end.

Record Error := { Code : ErrorCode; Expr : string }.

(** The method [Error] of a syntax error: its message. *)
Definition Error_Error (e : Error) : error :=
  "error parsing regexp: " ++ codeString (Code e) ++ ": `" ++ Expr e ++ "`".

(** The parsed expression, with the operators of [syntax.Op] that the
    fragment needs.  [OpLiteral c fold] carries the FoldCase flag the
    literal was parsed under. *)
Inductive Re :=
| OpNoMatch
| OpEmptyMatch
| OpLiteral (c : ascii) (fold : bool)
| OpAnyCharNotNL
| OpAnyChar
| OpBeginText
| OpEndText
| OpConcat (r1 r2 : Re)
| OpAlternate (r1 r2 : Re)
| OpStar (r : Re)
| OpPlus (r : Re)
| OpQuest (r : Re).

(** The parser flags that can change inside a pattern. *)
Record Flags := { FoldCase : bool; DotNL : bool; NonGreedy : bool }.

(** [syntax.Perl] as far as these flags go: none of them is set. *)
Definition Perl : Flags := {| FoldCase := false; DotNL := false; NonGreedy := false |}.

(** An entry of the parser's stack: an expression, or one of the two
    pseudo-operators.  A left parenthesis remembers the flags in force
    when it was read. *)
Inductive Item :=
| IRe (r : Re)
| ILeftParen (saved : Flags)
| IVerticalBar.

(** The parser: its flags and its stack, top first. *)
Record parser := { flags : Flags; stack : list Item }.

Definition push (r : Re) (p : parser) : parser :=
  {| flags := flags p; stack := IRe r :: stack p |}.

Definition op (i : Item) (p : parser) : parser :=
  {| flags := flags p; stack := i :: stack p |}.

(** The expressions above the topmost pseudo-operator, bottom first, and
    the stack below them. *)
Fixpoint popSubs (st : list Item) (acc : list Re) : list Re * list Item :=
  match st with
  | IRe r :: st' => popSubs st' (r :: acc)
  | _ => (acc, st)
  end.

Fixpoint collapse (mk : Re -> Re -> Re) (none : Re) (subs : list Re) : Re :=
  match subs with
  | [] => none
  | [r] => r
  | r :: rs => mk r (collapse mk none rs)
  end.

(** [concat] replaces the top of the stack (above the topmost [|] or [(])
    with its concatenation. *)
Definition concat (p : parser) : parser :=
  let '(subs, rest) := popSubs (stack p) [] in
  {| flags := flags p; stack := IRe (collapse OpConcat OpEmptyMatch subs) :: rest |}.

(** [alternate] replaces the top of the stack (above the topmost [(]) with
    its alternation. *)
Definition alternate (p : parser) : parser :=
  let '(subs, rest) := popSubs (stack p) [] in
  {| flags := flags p; stack := IRe (collapse OpAlternate OpNoMatch subs) :: rest |}.

(** If the top of the stack is an expression sitting on a vertical bar,
    [swapVerticalBar] swaps the two and answers true. *)
Definition swapVerticalBar (p : parser) : bool * parser :=
  match stack p with
  | IRe r :: IVerticalBar :: rest =>
      (true, {| flags := flags p; stack := IVerticalBar :: IRe r :: rest |})
  | _ => (false, p)
  end.

Definition popVerticalBar (p : parser) : parser :=
  let '(swapped, p1) := swapVerticalBar p in
  if swapped then {| flags := flags p1; stack := tail (stack p1) |} else p1.

Definition parseVerticalBar (p : parser) : parser :=
  let p1 := concat p in
  let '(swapped, p2) := swapVerticalBar p1 in
  if swapped then p2 else op IVerticalBar p2.

Definition parseRightParen (whole : string) (p : parser) : Error + parser :=
  let p1 := alternate (popVerticalBar (concat p)) in
  match stack p1 with
  | IRe re1 :: ILeftParen saved :: rest =>
      inr {| flags := saved; stack := IRe re1 :: rest |}
  | _ => inl {| Code := ErrUnexpectedParen; Expr := whole |}
  end.

Definition literal (c : ascii) (p : parser) : parser :=
  push (OpLiteral c (FoldCase (flags p))) p.

(** The slice [s[:len(s)-len(t)]]. *)
Definition upTo (s t : string) : string :=
  substring 0 (String.length s - String.length t) s.

(** [repeat]: [before] starts at the operator, [after] follows it and
    [lastRepeat] starts at the previous operator when the token before
    this one was a repetition (and is empty otherwise). *)
Definition repeat (mk : Re -> Re) (before after lastRepeat : string) (p : parser)
  : Error + (string * parser) :=
  let after :=
    match after with
    | String "?" rest => rest
    | _ => after
    end in
  if negb (lastRepeat =? "") then
    inl {| Code := ErrInvalidRepeatOp; Expr := upTo lastRepeat after |}
  else
    match stack p with
    | IRe sub :: rest => inr (after, {| flags := flags p; stack := IRe (mk sub) :: rest |})
    | _ => inl {| Code := ErrMissingRepeatArgument; Expr := upTo before after |}
    end.

(** The flag loop of [parsePerlFlags], after [(?] has been read.  [s] is
    the text from the parenthesis on, [neg] says that a [-] has been seen. *)
Fixpoint perlFlagLoop (s t : string) (fl : Flags) (neg sawFlag : bool) (p : parser)
  : Error + (string * parser) :=
  match t with
  | EmptyString => inl {| Code := ErrInvalidPerlOp; Expr := upTo s t |}
  | String c t' =>
      let bad := inl {| Code := ErrInvalidPerlOp; Expr := upTo s t' |} in
      if (c =? "i")%char then
        perlFlagLoop s t' {| FoldCase := negb neg; DotNL := DotNL fl; NonGreedy := NonGreedy fl |}
                     neg true p
      else if (c =? "s")%char then
        perlFlagLoop s t' {| FoldCase := FoldCase fl; DotNL := negb neg; NonGreedy := NonGreedy fl |}
                     neg true p
      else if (c =? "U")%char then
        perlFlagLoop s t' {| FoldCase := FoldCase fl; DotNL := DotNL fl; NonGreedy := negb neg |}
                     neg true p
      else if (c =? "m")%char then
        inl {| Code := ErrOutsideFragment; Expr := upTo s t' |}
      else if (c =? "-")%char then
        if neg then bad else perlFlagLoop s t' fl true false p
      else if (c =? ":")%char then
        if neg && negb sawFlag then bad
        else inr (t', {| flags := fl; stack := ILeftParen (flags p) :: stack p |})
      else if (c =? ")")%char then
        if neg && negb sawFlag then bad
        else inr (t', {| flags := fl; stack := stack p |})
      else bad
  end.

(** [parsePerlFlags s]: [s] starts with [(?]. *)
Definition parsePerlFlags (s : string) (p : parser) : Error + (string * parser) :=
  match s with
  | String "(" (String "?" t) =>
      match t with
      | String "P" _ => inl {| Code := ErrOutsideFragment; Expr := s |}
      | String "<" _ => inl {| Code := ErrOutsideFragment; Expr := s |}
      | _ => perlFlagLoop s t (flags p) false false p
      end
  | _ => inl {| Code := ErrInternalError; Expr := "parsePerlFlags" |}
  end.

Definition isalnum (c : ascii) : bool :=
  let n := N_of_ascii c in
  ((48 <=? n) && (n <=? 57) || (65 <=? n) && (n <=? 90) || (97 <=? n) && (n <=? 122))%N.

Definition isASCII (c : ascii) : bool := (N_of_ascii c <? 128)%N.

(** The end of [parse]: what is left on the stack must be one expression. *)
Definition parseEnd (whole : string) (p : parser) : Error + Re :=
  let p1 := alternate (popVerticalBar (concat p)) in
  match stack p1 with
  | [IRe r] => inr r
  | _ => inl {| Code := ErrMissingParen; Expr := whole |}
  end.

(** The main loop of [parse]: one token of [t] per round.  The loop runs
    at most once per character, so [fuel] above the length of the pattern
    is never used up. *)
Fixpoint parseLoop (fuel : nat) (whole : string) (p : parser) (t lastRepeat : string)
  : Error + Re :=
  match fuel with
  | O => inl {| Code := ErrInternalError; Expr := whole |}
  | S fuel =>
      match t with
      | EmptyString => parseEnd whole p
      | String c t' =>
          if negb (isASCII c) then inl {| Code := ErrOutsideFragment; Expr := whole |}
          else if (c =? "(")%char then
            match t' with
            | String "?" _ =>
                match parsePerlFlags t p with
                | inl e => inl e
                | inr (rest, p') => parseLoop fuel whole p' rest ""
                end
            | _ => parseLoop fuel whole (op (ILeftParen (flags p)) p) t' ""
            end
          else if (c =? "|")%char then parseLoop fuel whole (parseVerticalBar p) t' ""
          else if (c =? ")")%char then
            match parseRightParen whole p with
            | inl e => inl e
            | inr p' => parseLoop fuel whole p' t' ""
            end
          else if (c =? "^")%char then parseLoop fuel whole (push OpBeginText p) t' ""
          else if (c =? "$")%char then parseLoop fuel whole (push OpEndText p) t' ""
          else if (c =? ".")%char then
            parseLoop fuel whole (push (if DotNL (flags p) then OpAnyChar else OpAnyCharNotNL) p) t' ""
          else if (c =? "[")%char || (c =? "{")%char then
            inl {| Code := ErrOutsideFragment; Expr := whole |}
          else if (c =? "*")%char || (c =? "+")%char || (c =? "?")%char then
            let mk := if (c =? "*")%char then OpStar
                      else if (c =? "+")%char then OpPlus else OpQuest in
            match repeat mk t t' lastRepeat p with
            | inl e => inl e
            | inr (after, p') => parseLoop fuel whole p' after t
            end
          else if (c =? "\")%char then
            match t' with
            | EmptyString => inl {| Code := ErrTrailingBackslash; Expr := "" |}
            | String c2 t'' =>
                if isASCII c2 && negb (isalnum c2) then parseLoop fuel whole (literal c2 p) t'' ""
                else inl {| Code := ErrOutsideFragment; Expr := whole |}
            end
          else parseLoop fuel whole (literal c p) t' ""
      end
  end.

(** Go's parser refuses expressions that are too large or nest too deeply
    ([ErrLarge], [ErrNestingDepth]; the limits are 1000 levels and some
    millions of runes and instructions).  An expression of at most
    [maxPattern] bytes has fewer levels than bytes and does not come near
    the other limits; longer ones are left outside the fragment. *)
Definition maxPattern : nat := 1000.

(** [syntax.Parse s syntax.Perl]. *)
Definition Parse (s : string) : Error + Re :=
  if (maxPattern <? String.length s)%nat
  then inl {| Code := ErrOutsideFragment; Expr := s |}
  else parseLoop (S (String.length s)) s {| flags := Perl; stack := [] |} s "".

(** *** Runes

    Go's matcher reads the subject rune by rune ([inputString.step]): a
    byte below 128 is a rune of its own, and everything else goes through
    [utf8.DecodeRuneInString], which answers the rune and its width, and
    [RuneError] with width 1 for a byte that starts no valid sequence. *)

Definition byte (c : ascii) : Z := Z.of_N (N_of_ascii c).

Definition RuneError : Z := 65533.

Definition inRange (lo hi b : Z) : bool := ((lo <=? b) && (b <=? hi))%Z.

(** The table [first] of package utf8, with [acceptRanges]: for a leading
    byte above 127 the size of its sequence and the range of the second
    byte, and nothing for a byte that cannot lead. *)
Definition first (s0 : Z) : option (nat * (Z * Z)) :=
  if inRange 194 223 s0 then Some (2%nat, (128, 191))
  else if (s0 =? 224)%Z then Some (3%nat, (160, 191))
  else if inRange 225 236 s0 then Some (3%nat, (128, 191))
  else if (s0 =? 237)%Z then Some (3%nat, (128, 159))
  else if inRange 238 239 s0 then Some (3%nat, (128, 191))
  else if (s0 =? 240)%Z then Some (4%nat, (144, 191))
  else if inRange 241 243 s0 then Some (4%nat, (128, 191))
  else if (s0 =? 244)%Z then Some (4%nat, (128, 143))
  else None.

(** [utf8.DecodeRuneInString]. *)
Definition DecodeRuneInString (s : string) : Z * nat :=
  match s with
  | EmptyString => (RuneError, 0%nat)
  | String c0 t =>
      let s0 := byte c0 in
      if (s0 <? 128)%Z then (s0, 1%nat)
      else
        match first s0 with
        | None => (RuneError, 1%nat)
        | Some (sz, (lo, hi)) =>
            if (String.length s <? sz)%nat then (RuneError, 1%nat)
            else
              match t with
              | EmptyString => (RuneError, 1%nat)
              | String c1 t1 =>
                  let s1 := byte c1 in
                  if negb (inRange lo hi s1) then (RuneError, 1%nat)
                  else if (sz <=? 2)%nat then
                    (Z.lor (Z.shiftl (Z.land s0 31) 6) (Z.land s1 63), 2%nat)
                  else
                    match t1 with
                    | EmptyString => (RuneError, 1%nat)
                    | String c2 t2 =>
                        let s2 := byte c2 in
                        if negb (inRange 128 191 s2) then (RuneError, 1%nat)
                        else if (sz <=? 3)%nat then
                          (Z.lor (Z.lor (Z.shiftl (Z.land s0 15) 12)
                                    (Z.shiftl (Z.land s1 63) 6))
                             (Z.land s2 63), 3%nat)
                        else
                          match t2 with
                          | EmptyString => (RuneError, 1%nat)
                          | String c3 _ =>
                              let s3 := byte c3 in
                              if negb (inRange 128 191 s3) then (RuneError, 1%nat)
                              else
                                (Z.lor (Z.lor (Z.lor (Z.shiftl (Z.land s0 7) 18)
                                                 (Z.shiftl (Z.land s1 63) 12))
                                          (Z.shiftl (Z.land s2 63) 6))
                                   (Z.land s3 63), 4%nat)
                          end
                    end
              end
        end
  end.

(** The runes of a subject in the order the matcher steps through them.
    [skip] counts the bytes that belong to the rune read last. *)
Fixpoint runesFrom (skip : nat) (s : string) : list Z :=
  match s with
  | EmptyString => []
  | String _ t =>
      match skip with
      | S k => runesFrom k t
      | O => let '(r, width) := DecodeRuneInString s in r :: runesFrom (width - 1) t
      end
  end.

Definition runes (s : string) : list Z := runesFrom 0 s.

(** *** Matching

    Matching is by derivatives.  [bot] says that the position is the
    beginning of the text, [eot] that it is its end. *)

(** [unicode.SimpleFold] on the orbits of the ASCII runes, the only ones
    the matcher walks through, because the literals of the fragment are
    ASCII: a letter goes to the same letter in the other case, except that
    k goes on to the Kelvin sign U+212A (8490) and s to the long s U+017F
    (383), which go back to K and S. *)
Definition SimpleFold (r : Z) : Z :=
  if (r =? 75)%Z then 107
  else if (r =? 107)%Z then 8490
  else if (r =? 8490)%Z then 75
  else if (r =? 83)%Z then 115
  else if (r =? 115)%Z then 383
  else if (r =? 383)%Z then 83
  else if inRange 65 90 r then r + 32
  else if inRange 97 122 r then r - 32
  else r.

(** The loop of [MatchRunePos] for one rune under FoldCase:
    [for r1 := SimpleFold(r0); r1 != r0; r1 = SimpleFold(r1)].  An orbit
    of an ASCII rune has at most three runes, so [fuel] 3 is enough. *)
Fixpoint foldMatches (fuel : nat) (r0 r1 d : Z) : bool :=
  match fuel with
  | O => false
  | S fuel =>
      if (r1 =? r0)%Z then false
      else (d =? r1)%Z || foldMatches fuel r0 (SimpleFold r1) d
  end.

(** Does the literal [c], parsed under the flag [fold], match the rune
    [d]? *)
Definition litMatches (c : ascii) (fold : bool) (d : Z) : bool :=
  (d =? byte c)%Z || fold && foldMatches 3 (byte c) (SimpleFold (byte c)) d.

Definition newline : Z := 10.

(** Does [r] match the empty string at a position? *)
Fixpoint nullable (bot eot : bool) (r : Re) : bool :=
  match r with
  | OpNoMatch => false
  | OpEmptyMatch => true
  | OpLiteral _ _ => false
  | OpAnyCharNotNL => false
  | OpAnyChar => false
  | OpBeginText => bot
  | OpEndText => eot
  | OpConcat r1 r2 => nullable bot eot r1 && nullable bot eot r2
  | OpAlternate r1 r2 => nullable bot eot r1 || nullable bot eot r2
  | OpStar _ => true
  | OpPlus r1 => nullable bot eot r1
  | OpQuest _ => true
  end.

(** What is left of [r] after it has read the rune [d] at a position. *)
Fixpoint deriv (bot : bool) (d : Z) (r : Re) : Re :=
  match r with
  | OpNoMatch => OpNoMatch
  | OpEmptyMatch => OpNoMatch
  | OpLiteral c fold => if litMatches c fold d then OpEmptyMatch else OpNoMatch
  | OpAnyCharNotNL => if (d =? newline)%Z then OpNoMatch else OpEmptyMatch
  | OpAnyChar => OpEmptyMatch
  | OpBeginText => OpNoMatch
  | OpEndText => OpNoMatch
  | OpConcat r1 r2 =>
      if nullable bot false r1
      then OpAlternate (OpConcat (deriv bot d r1) r2) (deriv bot d r2)
      else OpConcat (deriv bot d r1) r2
  | OpAlternate r1 r2 => OpAlternate (deriv bot d r1) (deriv bot d r2)
  | OpStar r1 => OpConcat (deriv bot d r1) (OpStar r1)
  | OpPlus r1 => OpConcat (deriv bot d r1) (OpStar r1)
  | OpQuest r1 => deriv bot d r1
  end.

(** Does [r] match some prefix of the runes [s]? *)
Fixpoint matchAt (r : Re) (bot : bool) (s : list Z) : bool :=
  match s with
  | [] => nullable bot true r
  | d :: s' => nullable bot false r || matchAt (deriv bot d r) false s'
  end.

(** Does [r] match somewhere in [s]?  ([MatchString] is not anchored.) *)
Fixpoint search (r : Re) (bot : bool) (s : list Z) : bool :=
  matchAt r bot s ||
  match s with
  | [] => false
  | _ :: s' => search r false s'
  end.

(** The instance: [regexp.Compile] parses with the Perl flags and
    [MatchString] searches the runes of the whole subject. *)
Definition RE2 : RegexpLib := {|
  Regexp := Re;
  Compile := fun expr =>
    match Parse expr with
    | inr r => inl r
    | inl e => inr (Error_Error e)
    end;
  MatchString := fun r s => search r true (runes s)
|}.

(** *** Vocabulary for plain patterns

    A plain character is an ASCII character that the parser reads as a
    literal. *)
Definition plainChar (c : ascii) : bool :=
  isASCII c &&
  negb ((c =? "(")%char || (c =? "|")%char || (c =? ")")%char || (c =? "^")%char
        || (c =? "$")%char || (c =? ".")%char || (c =? "[")%char || (c =? "{")%char
        || (c =? "*")%char || (c =? "+")%char || (c =? "?")%char || (c =? "\")%char).

Fixpoint plain (p : string) : bool :=
  match p with
  | EmptyString => true
  | String c p' => plainChar c && plain p'
  end.

(** The runes [s] begin with the literals [p], rune by rune, up to case
    folding when [fold] is set. *)
Fixpoint hasPrefix (fold : bool) (p : string) (s : list Z) : bool :=
  match p, s with
  | EmptyString, _ => true
  | String c p', d :: s' => litMatches c fold d && hasPrefix fold p' s'
  | String _ _, [] => false
  end.

(** The literals [p] occur somewhere in the runes [s]. *)
Fixpoint contains (fold : bool) (p : string) (s : list Z) : bool :=
  hasPrefix fold p s ||
  match s with
  | [] => false
  | _ :: s' => contains fold p s'
  end.

(** The literals of a plain pattern. *)
Fixpoint literals (fold : bool) (p : string) : list Re :=
  match p with
  | EmptyString => []
  | String c p' => OpLiteral c fold :: literals fold p'
  end.

Definition toLower (c : ascii) : ascii :=
  let n := N_of_ascii c in
  if ((65 <=? n) && (n <=? 90))%N then ascii_of_N (n + 32) else c.

Definition isUpper (c : ascii) : bool := inRange 65 90 (byte c).

Definition isLower (c : ascii) : bool := inRange 97 122 (byte c).

(** The runes that an ASCII character stands for under case folding: the
    character itself, for a letter the same letter in the other case, and
    for k and K the Kelvin sign, for s and S the long s. *)
Definition foldsOf (c : ascii) : list Z :=
  byte c
  :: (if isUpper c then [byte c + 32] else if isLower c then [byte c - 32] else [])
  ++ (if (byte c =? 75)%Z || (byte c =? 107)%Z then [8490] else [])
  ++ (if (byte c =? 83)%Z || (byte c =? 115)%Z then [383] else []).

(** The runes [b] are the characters of [a], one for one, up to case
    folding. *)
Fixpoint equalFold (a : string) (b : list Z) : Prop :=
  match a, b with
  | EmptyString, [] => True
  | String c a', d :: b' => In d (foldsOf c) /\ equalFold a' b'
  | _, _ => False
  end.

(** Every byte of [s] is below 128. *)
Fixpoint ascii (s : string) : bool :=
  match s with
  | EmptyString => true
  | String c s' => isASCII c && ascii s'
  end.

(** Two strings of the same length that agree up to the case of ASCII
    letters. *)
Fixpoint equalFoldASCII (a b : string) : Prop :=
  match a, b with
  | EmptyString, EmptyString => True
  | String c a', String d b' => toLower c = toLower d /\ equalFoldASCII a' b'
  | _, _ => False
  end.

End syntax.

(** ** The data model *)

(** The line feed that Go writes as a backslash followed by n. *)
Definition LF : string := String (ascii_of_N 10) EmptyString.

(** [strconv.FormatInt z 10]. *)
Definition FormatInt (z : Z) : string := NilZero.string_of_int (Z.to_int z).

(** [Options] of package log.  [Limit] is a [uint32]; the channel
    [EventChan] is only handed on to the watchers and is left out. *)
Record Options := {
  GRPC : string;
  MsgPath : string;
  LogPath : string;
  LogFilter : string;
  JSON : bool;
  Namespace : string;
  LogType : string;
  Operation : string;
  ContainerName : string;
  PodName : string;
  Source : string;
  Resource : string;
  Limit : Z;
  Selector : list string
}.

(** What the cluster tells about a pod: [GetObjectMeta().GetName()] and
    [GetObjectMeta().GetNamespace()]. *)
Record Pod := { GetName : string; GetNamespace : string }.

(** The goroutines that the code starts with a [go] statement. *)
Inductive Goroutine :=
| GoWatchMessages (msgPath : string) (json : bool)
| GoWatchAlerts (o : Options)
| GoWatchLogs (o : Options)
| GoForwardPorts (path : string) (localPort remotePort : Z).

(** The calls to the outside world, in the order they are made. *)
Inductive Event :=
| EvLookupEnv (name : string)
| EvListPods (namespace : string) (matchLabels : gmap string string)
| EvListen (port : Z)
| EvCloseListener
| EvRandInt (max : Z)
| EvGo (g : Goroutine)
| EvPrintDefaults
| EvNewClient (server msgPath logPath logFilter : string) (limit : Z)
| EvHealthCheck
| EvStderr (msg : string)
| EvStdout (msg : string)
| EvSleep (milliseconds : Z)
| EvDestroyClient.

(** What the outside world answers.  The answers to the network and the
    random source are indexed by the round of the allocation loop, so that
    they may change while the loop runs.  [NewClientOk], [DoHealthCheck]
    and [DestroyClient] stand for the client of logClient.go. *)
Record World := {
  LookupEnv : string -> option string;
  ListPods : string -> gmap string string -> list Pod + error;
  Listen : nat -> Z -> bool;
  CloseListener : nat -> option error;
  RandReader : nat -> option Z;
  RoundTripperFor : option error;
  PortforwardNew : option error;
  ForwardPorts : option error;
  NewClientOk : bool;
  DoHealthCheck : bool;
  DestroyClient : option error
}.

(** ** The monad: package-level state, the trace, panics and
       non-termination *)
Section Monad.
Context {G : Type}.

Record St := { glob : G; trace : list Event }.

Inductive Res (A : Type) :=
| Done (a : A) (s : St)
| Panic (msg : string) (s : St)
| OutOfFuel.

Definition M (A : Type) : Type := St -> Res A.

Definition emit (e : Event) : M unit :=
  fun s => Done unit tt {| glob := glob s; trace := (trace s ++ [e])%list |}.

Definition get : M G := fun s => Done G (glob s) s.

Definition modify (f : G -> G) : M unit :=
  fun s => Done unit tt {| glob := f (glob s); trace := trace s |}.

Definition panic {A : Type} (msg : string) : M A := fun s => Panic A msg s.

Definition diverge {A : Type} : M A := fun _ => OutOfFuel A.

End Monad.

Arguments St : clear implicits.
Arguments Res : clear implicits.
Arguments M : clear implicits.
Arguments Done {G A} a s.
Arguments Panic {G A} msg s.
Arguments OutOfFuel {G A}.

#[export] Instance M_ret {G} : MRet (M G) := fun A a s => Done a s.

#[export] Instance M_bind {G} : MBind (M G) := fun A B f m s =>
  match m s with
  | Done a s' => f a s'
  | Panic msg s' => Panic msg s'
  | OutOfFuel => OutOfFuel
  end.

(** [yields P R m]: the computation [m] does not panic; when it ends it
    has only appended to the trace, what it has appended satisfies [P],
    and its result satisfies [R]. *)
Definition yields {G A : Type} (P : Event -> Prop) (R : A -> Prop) (m : M G A) : Prop :=
  forall s,
    match m s with
    | Done a s' => R a /\ exists evs, trace s' = (trace s ++ evs)%list /\ Forall P evs
    | Panic _ _ => False
    | OutOfFuel => True
    end.

(** What the resolution of the address may do: look up the environment,
    ask the cluster, probe ports, draw random numbers, write to the
    standard error and run the forwarder. *)
Definition isResolutionEvent (e : Event) : Prop :=
  match e with
  | EvLookupEnv _ | EvListPods _ _ | EvListen _ | EvCloseListener | EvRandInt _
  | EvStderr _ | EvGo (GoForwardPorts _ _ _) => True
  | _ => False
  end.

(** [keeps f m]: whatever [m] does, the part [f] of the package-level
    state is afterwards what it was before. *)
Definition keeps {G A X : Type} (f : G -> X) (m : M G A) : Prop :=
  forall s,
    match m s with
    | Done _ s' | Panic _ s' => f (glob s') = f (glob s)
    | OutOfFuel => True
    end.

(** ** Package utils: the port forwarder *)
Module utils.

Record PortForwardOpt := {
  LocalPort : Z;
  RemotePort : Z;
  MatchLabels : gmap string string;
  Namespace : string;
  PodName : string
}.

Section WithWorld.
Context {G : Type} (w : World).

(** [rand.Int(rand.Reader, max)]: an error when the reader fails, and a
    value of the interval from 0 up to max (excluded) otherwise.  Which
    value is the random source's choice; its distribution is not part of
    the model. *)
Definition rand_Int (i : nat) (max : Z) : option Z :=
  (fun e => e mod max) <$> RandReader w i.

(** [k8sPortForward]: the three places where the tunnel can fail, and the
    goroutine that runs the forwarder. *)
Definition k8sPortForward (pf : PortForwardOpt) : M G (option error) :=
  match RoundTripperFor w with
  | Some e => mret (Some (LF ++ "unable to create round tripper and upgrader, error=" ++ e))
  | None =>
      let path := "/api/v1/namespaces/" ++ Namespace pf ++ "/pods/" ++ PodName pf
                  ++ "/portforward" in
      match PortforwardNew w with
      | Some e => mret (Some (LF ++ "unable to portforward. error=" ++ e))
      | None =>
          emit (EvGo (GoForwardPorts path (LocalPort pf) (RemotePort pf)));;
          match ForwardPorts w with
          | Some e => mret (Some ("could not create port forward " ++ e))
          | None => mret None
          end
      end
  end.

(** [getPodName]: the receiver is a pointer; the updated value is returned
    next to the error.  The client [c] is a client of a cluster, whose
    answers are the world's; a nil client, on which line 329 panics, is
    not modelled. *)
Definition getPodName (pf : PortForwardOpt) : M G (PortForwardOpt * option error) :=
  emit (EvListPods (Namespace pf) (MatchLabels pf));;
  match ListPods w (Namespace pf) (MatchLabels pf) with
  | inr err => mret (pf, Some err)
  | inl Items =>
      match Items !! 0%nat with
      | None => mret (pf, Some "kubearmor pod not found")
      | Some pod =>
          mret ({| LocalPort := LocalPort pf;
                   RemotePort := RemotePort pf;
                   MatchLabels := MatchLabels pf;
                   Namespace := GetNamespace pod;
                   PodName := GetName pod |}, None)
      end
  end.

(** [getRandomInt], in round [i] of the allocation loop. *)
Definition getRandomInt (i : nat) : M G (Z * option error) :=
  emit (EvRandInt (32900 - 32768));;
  match rand_Int i (32900 - 32768) with
  | None => mret (-1, Some "unable to generate random integer for port")
  | Some n => mret (wrap64 n, None)
  end.

(** The loop of [getLocalPort], from round [i] on with the candidate
    [port].  The Go loop has no bound; [fuel] bounds the rounds that the
    model runs, and [OutOfFuel] says that the loop is still running. *)
Fixpoint getLocalPort_loop (fuel : nat) (pf : PortForwardOpt) (i : nat) (port : Z)
  : M G (Z * option error) :=
  match fuel with
  | O => diverge
  | S fuel =>
      emit (EvListen port);;
      if Listen w i port then
        emit EvCloseListener;;
        match CloseListener w i with
        | Some err => mret (-1, Some err)
        | None =>
            emit (EvStderr ("local port to be used for port forwarding " ++ PodName pf
                            ++ ": " ++ FormatInt port ++ " " ++ LF));;
            mret (port, None)
        end
      else
        '(n, err) ← getRandomInt i;
        match err with
        | Some e => mret (n, Some e)
        | None => getLocalPort_loop fuel pf (S i) (wrap64 (n + 32768))
        end
  end.

Definition getLocalPort (fuel : nat) (pf : PortForwardOpt) : M G (Z * option error) :=
  getLocalPort_loop fuel pf 0%nat (LocalPort pf).

Definition handlePortForward (fuel : nat) (pf : PortForwardOpt)
  : M G (PortForwardOpt * option error) :=
  '(pf, err) ← getPodName pf;
  match err with
  | Some e => mret (pf, Some e)
  | None =>
      '(lp, err) ← getLocalPort fuel pf;
      match err with
      | Some e => mret (pf, Some e)
      | None =>
          let pf := {| LocalPort := lp;
                       RemotePort := RemotePort pf;
                       MatchLabels := MatchLabels pf;
                       Namespace := Namespace pf;
                       PodName := PodName pf |} in
          err ← k8sPortForward pf;
          match err with
          | Some e => mret (pf, Some (LF ++ "could not do kubearmor portforward, error=" ++ e))
          | None => mret (pf, None)
          end
      end
  end.

(** The value that [InitiatePortForward] builds first; [PodName] is not
    set and holds the zero value. *)
Definition initialOpt (localPort remotePort : Z) (matchLabels : gmap string string)
  : PortForwardOpt :=
  {| LocalPort := localPort;
     RemotePort := remotePort;
     Namespace := "";
     MatchLabels := matchLabels;
     PodName := "" |}.

Definition InitiatePortForward (fuel : nat) (localPort remotePort : Z)
    (matchLabels : gmap string string) : M G (PortForwardOpt * option error) :=
  let pf := initialOpt localPort remotePort matchLabels in
  '(pf, err) ← handlePortForward fuel pf;
  match err with
  | Some e => mret (pf, Some e)
  | None => mret (pf, None)
  end.

(** The fallback range: the 132 ports from 32768 to 32899. *)
Definition inFallbackRange (p : Z) : Prop := 32768 <= p <= 32899.

(** [retries i port j port']: from round [i] with the candidate [port],
    the loop comes to round [j] with the candidate [port'], every bind in
    between having failed and every draw having succeeded. *)
Inductive retries : nat -> Z -> nat -> Z -> Prop :=
| retries_refl i port : retries i port i port
| retries_step i port n j port' :
    Listen w i port = false ->
    rand_Int i (32900 - 32768) = Some n ->
    retries (S i) (wrap64 (wrap64 n + 32768)) j port' ->
    retries i port j port'.

(** The events of the allocation. *)
Definition isNetEvent (e : Event) : Prop :=
  match e with
  | EvListen _ | EvCloseListener | EvRandInt _ | EvStderr _ => True
  | _ => False
  end.

Definition listens (evs : list Event) : list Z :=
  omap (fun e => match e with EvListen p => Some p | _ => None end) evs.

(** The state with more events on the trace. *)
Definition after (s : St G) (evs : list Event) : St G :=
  {| glob := glob s; trace := (trace s ++ evs)%list |}.

(** The pod that [getPodName] puts into the options. *)
Definition withPod (pf : PortForwardOpt) (pod : Pod) : PortForwardOpt :=
  {| LocalPort := LocalPort pf;
     RemotePort := RemotePort pf;
     MatchLabels := MatchLabels pf;
     Namespace := GetNamespace pod;
     PodName := GetName pod |}.

(** The options with the local port that the allocation has found. *)
Definition withLocalPort (pf : PortForwardOpt) (p : Z) : PortForwardOpt :=
  {| LocalPort := p;
     RemotePort := RemotePort pf;
     MatchLabels := MatchLabels pf;
     Namespace := Namespace pf;
     PodName := PodName pf |}.

(** The path of the port-forward request for the pod of the options. *)
Definition tunnelPath (pf : PortForwardOpt) : string :=
  "/api/v1/namespaces/" ++ Namespace pf ++ "/pods/" ++ PodName pf ++ "/portforward".

(** The forwarder that [k8sPortForward] starts for the options. *)
Definition forwarder (pf : PortForwardOpt) : Event :=
  EvGo (GoForwardPorts (tunnelPath pf) (LocalPort pf) (RemotePort pf)).

Definition isClose (e : Event) : bool :=
  match e with EvCloseListener => true | _ => false end.

Definition isDraw (e : Event) : bool :=
  match e with EvRandInt _ => true | _ => false end.

Definition isListen (e : Event) : bool :=
  match e with EvListen _ => true | _ => false end.

End WithWorld.
End utils.

(** ** Package log: the observer *)
Module log.

Section WithLib.
Context {L : RegexpLib}.

(** The compiled filters: the package-level variables [CNamespace] to
    [CResource].  A nil pointer is [None]. *)
Record Filters := {
  CNamespace : option Regexp;
  CLogtype : option Regexp;
  COperation : option Regexp;
  CContainerName : option Regexp;
  CPodName : option Regexp;
  CSource : option Regexp;
  CResource : option Regexp
}.

(** The package-level state.
    - [StopChan] is nil or names a channel; [closedChans] is the set of
      channels that have been closed (closing one of them again panics).
    - [sigChan] is nil or a channel of capacity 1, given by the number of
      signals waiting in it.
    - [Limitchan] (declared in logClient.go) is nil or a channel of
      capacity 2, given by the values waiting in it.
    - [Running] is the field of the client that the release path clears. *)
Record Globals := {
  filters : Filters;
  StopChan : option nat;
  closedChans : gset nat;
  sigChan : option nat;
  unblockSignal : bool;
  Limitchan : option (list bool);
  Running : bool
}.

Definition set_filters (f : Filters -> Filters) (g : Globals) : Globals :=
  {| filters := f (filters g); StopChan := StopChan g; closedChans := closedChans g;
     sigChan := sigChan g; unblockSignal := unblockSignal g; Limitchan := Limitchan g;
     Running := Running g |}.

Definition set_StopChan (c : option nat) (g : Globals) : Globals :=
  {| filters := filters g; StopChan := c; closedChans := closedChans g;
     sigChan := sigChan g; unblockSignal := unblockSignal g; Limitchan := Limitchan g;
     Running := Running g |}.

Definition set_closedChans (cs : gset nat) (g : Globals) : Globals :=
  {| filters := filters g; StopChan := StopChan g; closedChans := cs;
     sigChan := sigChan g; unblockSignal := unblockSignal g; Limitchan := Limitchan g;
     Running := Running g |}.

Definition set_sigChan (c : option nat) (g : Globals) : Globals :=
  {| filters := filters g; StopChan := StopChan g; closedChans := closedChans g;
     sigChan := c; unblockSignal := unblockSignal g; Limitchan := Limitchan g;
     Running := Running g |}.

Definition set_unblockSignal (b : bool) (g : Globals) : Globals :=
  {| filters := filters g; StopChan := StopChan g; closedChans := closedChans g;
     sigChan := sigChan g; unblockSignal := b; Limitchan := Limitchan g;
     Running := Running g |}.

Definition set_Limitchan (c : option (list bool)) (g : Globals) : Globals :=
  {| filters := filters g; StopChan := StopChan g; closedChans := closedChans g;
     sigChan := sigChan g; unblockSignal := unblockSignal g; Limitchan := c;
     Running := Running g |}.

Definition set_Running (b : bool) (g : Globals) : Globals :=
  {| filters := filters g; StopChan := StopChan g; closedChans := closedChans g;
     sigChan := sigChan g; unblockSignal := unblockSignal g; Limitchan := Limitchan g;
     Running := b |}.

Definition set_CNamespace (r : option Regexp) (f : Filters) : Filters :=
  {| CNamespace := r; CLogtype := CLogtype f; COperation := COperation f;
     CContainerName := CContainerName f; CPodName := CPodName f;
     CSource := CSource f; CResource := CResource f |}.

Definition set_CLogtype (r : option Regexp) (f : Filters) : Filters :=
  {| CNamespace := CNamespace f; CLogtype := r; COperation := COperation f;
     CContainerName := CContainerName f; CPodName := CPodName f;
     CSource := CSource f; CResource := CResource f |}.

Definition set_COperation (r : option Regexp) (f : Filters) : Filters :=
  {| CNamespace := CNamespace f; CLogtype := CLogtype f; COperation := r;
     CContainerName := CContainerName f; CPodName := CPodName f;
     CSource := CSource f; CResource := CResource f |}.

Definition set_CContainerName (r : option Regexp) (f : Filters) : Filters :=
  {| CNamespace := CNamespace f; CLogtype := CLogtype f; COperation := COperation f;
     CContainerName := r; CPodName := CPodName f;
     CSource := CSource f; CResource := CResource f |}.

Definition set_CPodName (r : option Regexp) (f : Filters) : Filters :=
  {| CNamespace := CNamespace f; CLogtype := CLogtype f; COperation := COperation f;
     CContainerName := CContainerName f; CPodName := r;
     CSource := CSource f; CResource := CResource f |}.

Definition set_CSource (r : option Regexp) (f : Filters) : Filters :=
  {| CNamespace := CNamespace f; CLogtype := CLogtype f; COperation := COperation f;
     CContainerName := CContainerName f; CPodName := CPodName f;
     CSource := r; CResource := CResource f |}.

Definition set_CResource (r : option Regexp) (f : Filters) : Filters :=
  {| CNamespace := CNamespace f; CLogtype := CLogtype f; COperation := COperation f;
     CContainerName := CContainerName f; CPodName := CPodName f;
     CSource := CSource f; CResource := r |}.

(** The package-level variables as the Go runtime initialises them. *)
Definition nilFilters : Filters :=
  {| CNamespace := None; CLogtype := None; COperation := None; CContainerName := None;
     CPodName := None; CSource := None; CResource := None |}.

Definition initGlobals : Globals :=
  {| filters := nilFilters; StopChan := None; closedChans := ∅; sigChan := None;
     unblockSignal := false; Limitchan := None; Running := false |}.

Definition matchLabels : gmap string string := {[ "kubearmor-app" := "kubearmor-relay" ]}.

Definition port : Z := 32767.

(** The statement [X, err = regexp.Compile(expr)] for a package-level
    variable X: X is assigned whatever [Compile] returns, a nil pointer
    when it fails. *)
Definition compileInto (set : option Regexp -> Filters -> Filters) (expr : string)
  : M Globals (option error) :=
  match Compile expr with
  | inl re => modify (set_filters (set (Some re)));; mret None
  | inr err => modify (set_filters (set None));; mret (Some err)
  end.

(** [if err != nil { return err }] after a call that returns an error. *)
Definition orReturn {A : Type} (lift : error -> A) (m : M Globals (option error))
    (k : M Globals A) : M Globals A :=
  err ← m;
  match err with
  | Some e => mret (lift e)
  | None => k
  end.

Definition regexCompile (o : Options) : M Globals (option error) :=
  orReturn Some (compileInto set_CNamespace ("(?i)" ++ Namespace o)) (
  orReturn Some (compileInto set_CLogtype ("(?i)" ++ LogType o)) (
  orReturn Some (compileInto set_COperation ("(?i)" ++ Operation o)) (
  orReturn Some (compileInto set_CContainerName ("(?i)" ++ ContainerName o)) (
  orReturn Some (compileInto set_CPodName ("(?i)" ++ PodName o)) (
  orReturn Some (compileInto set_CSource (Source o)) (
  orReturn Some (compileInto set_CResource (Resource o)) (
  mret None))))))).

(** [close(ch)]: closing a closed channel panics. *)
Definition close (ch : nat) : M Globals unit :=
  g ← get;
  if bool_decide (ch ∈ closedChans g) then panic "close of closed channel"
  else modify (set_closedChans ({[ch]} ∪ closedChans g)).

Definition closeStopChan : M Globals unit :=
  g ← get;
  match StopChan g with
  | None => mret tt
  | Some ch =>
      close ch;;
      modify (set_StopChan None)
  end.

(** *** StartObserver, up to the wait (lines 119 to 182) *)

(** How the first part of [StartObserver] ends: it has returned, or the
    controller goes on to wait. *)
Inductive Startup :=
| Returned (err : option error)
| Started (gRPC : string).

(** Lines 119 to 131: the address of the service. *)
Definition resolveAddress (fuel : nat) (w : World) (o : Options)
  : M Globals (string * option error) :=
  if negb (GRPC o =? "") then mret (GRPC o, None)
  else
    emit (EvLookupEnv "KUBEARMOR_SERVICE");;
    match LookupEnv w "KUBEARMOR_SERVICE" with
    | Some val => mret (val, None)
    | None =>
        '(pf, err) ← utils.InitiatePortForward w fuel port port matchLabels;
        match err with
        | Some e => mret ("", Some e)
        | None => mret ("localhost:" ++ FormatInt (utils.LocalPort pf), None)
        end
    end.

(** Lines 169 to 182: the completion gate is made and the watchers of the
    active categories are started. *)
Definition startWatchers (o : Options) : M Globals unit :=
  modify (set_Limitchan (Some []));;
  if negb (LogPath o =? "none") then
    (if (LogFilter o =? "all") || (LogFilter o =? "policy") then
       emit (EvGo (GoWatchAlerts o));;
       emit (EvStderr ("Started to watch alerts" ++ LF))
     else mret tt);;
    (if (LogFilter o =? "all") || (LogFilter o =? "system") then
       emit (EvGo (GoWatchLogs o));;
       emit (EvStderr ("Started to watch logs" ++ LF))
     else mret tt)
  else mret tt.

Definition startup (fuel : nat) (w : World) (o : Options) : M Globals Startup :=
  '(gRPC, err) ← resolveAddress fuel w o;
  match err with
  | Some e => mret (Returned (Some e))
  | None =>
      if (MsgPath o =? "none") && (LogPath o =? "none") then
        emit EvPrintDefaults;;
        mret (Returned None)
      else if negb (LogFilter o =? "all") && negb (LogFilter o =? "policy")
              && negb (LogFilter o =? "system") then
        emit EvPrintDefaults;;
        mret (Returned None)
      else
        emit (EvNewClient gRPC (MsgPath o) (LogPath o) (LogFilter o) (Limit o));;
        if negb (NewClientOk w) then
          mret (Returned (Some "unable to create log client"))
        else
          emit (EvStderr ("Created a gRPC client (" ++ gRPC ++ ")" ++ LF));;
          emit EvHealthCheck;;
          if negb (DoHealthCheck w) then
            mret (Returned (Some "failed to check the liveness of the gRPC server"))
          else
            emit (EvStderr ("Checked the liveness of the gRPC server" ++ LF));;
            (if negb (MsgPath o =? "none") then
               emit (EvGo (GoWatchMessages (MsgPath o) (JSON o)));;
               emit (EvStderr ("Started to watch messages" ++ LF))
             else mret tt);;
            orReturn (fun e => Returned (Some e))
              (err ← regexCompile o;
               match err with
               | Some e => emit (EvStdout e);; mret (Some e)
               | None => mret None
               end)
              (startWatchers o;;
               mret (Started gRPC))
  end.

(** *** StartObserver, the wait and the release (lines 184 to 210)

    While the controller waits, the watchers, the operating system and a
    caller of [StopObserver] run beside it.  The wait is a transition
    system: the controller's program counter and the package-level state,
    moved by the controller's own steps and by the steps of the others. *)

(** Where the controller stands.  [PcRecv n]: [n] receives from
    [Limitchan] are still to be done (lines 185 to 190).  [PcListen]: line
    193.  [PcLoop]: the test of the loop at line 195.  [PcSelect]: the
    select of line 197, after the sleep.  [PcRelease]: line 204. *)
Inductive Pc :=
| PcRecv (n : nat)
| PcListen
| PcLoop
| PcSelect
| PcRelease
| PcReturned (err : option error)
| PcPanicked (msg : string).

(** The controller, the state it shares, and (as a ghost) the number of
    values the controller has received from [Limitchan]. *)
Record Sys := { st : St Globals; pc : Pc; received : nat }.

(** Lines 184 to 191: which wait the controller enters. *)
Definition waitEntry (o : Options) : Pc :=
  if negb (Limit o =? 0)%Z then
    if LogFilter o =? "all" then PcRecv 2 else PcRecv 1
  else PcListen.

(** Lines 204 to 210. *)
Definition release (w : World) : M Globals (option error) :=
  emit (EvStderr ("releasing grpc client" ++ LF));;
  closeStopChan;;
  modify (set_Running false);;
  emit EvDestroyClient;;
  mret (DestroyClient w).

(** [StopObserver]. *)
Definition StopObserver : M Globals unit :=
  modify (set_unblockSignal true).

Definition withSt (s : Sys) (f : Globals -> Globals) (p : Pc) : Sys :=
  {| st := {| glob := f (glob (st s)); trace := trace (st s) |}; pc := p;
     received := received s |}.

(** One step of the controller.  A receive from an empty (or nil) channel
    blocks: the step changes nothing. *)
Definition ctlStep (w : World) (s : Sys) : Sys :=
  let g := glob (st s) in
  match pc s with
  | PcRecv O => withSt s id PcRelease
  | PcRecv (S n) =>
      match Limitchan g with
      | Some (_ :: rest) =>
          {| st := {| glob := set_Limitchan (Some rest) g; trace := trace (st s) |};
             pc := match n with O => PcRelease | S _ => PcRecv n end;
             received := S (received s) |}
      | _ => s
      end
  | PcListen =>
      withSt s (fun g => set_sigChan (Some 0%nat) (set_unblockSignal false g)) PcLoop
  | PcLoop =>
      if negb (unblockSignal g) then
        {| st := {| glob := g; trace := (trace (st s) ++ [EvSleep 50])%list |};
           pc := PcSelect; received := received s |}
      else withSt s id PcRelease
  | PcSelect =>
      match sigChan g with
      | Some (S k) => withSt s (fun g => set_unblockSignal true (set_sigChan (Some k) g)) PcLoop
      | _ => withSt s id PcLoop
      end
  | PcRelease =>
      match release w (st s) with
      | Done err s' => {| st := s'; pc := PcReturned err; received := received s |}
      | Panic msg s' => {| st := s'; pc := PcPanicked msg; received := received s |}
      | OutOfFuel => s
      end
  | PcReturned _ => s
  | PcPanicked _ => s
  end.

(** Who moves next. *)
Inductive Action :=
| ActCtl
| ActReport
| ActSignal
| ActStop.

(** The steps of the others.  [ActReport]: a watcher sends on
    [Limitchan]; the send blocks while the channel is full or nil.
    [ActSignal]: the operating system delivers a signal; the runtime puts
    it into [sigChan] unless the channel is full.  While no channel is
    registered ([sigChan] is nil) a signal takes its default course, which
    ends the process and is not part of the model.  [ActStop]: somebody
    calls [StopObserver]. *)
Definition step (w : World) (a : Action) (s : Sys) : Sys :=
  let g := glob (st s) in
  match a with
  | ActCtl => ctlStep w s
  | ActReport =>
      match Limitchan g with
      | Some buf =>
          if (length buf <? 2)%nat then withSt s (set_Limitchan (Some (buf ++ [true])%list)) (pc s)
          else s
      | None => s
      end
  | ActSignal =>
      match sigChan g with
      | Some O => withSt s (set_sigChan (Some 1%nat)) (pc s)
      | _ => s
      end
  | ActStop =>
      match StopObserver (st s) with
      | Done _ s' => {| st := s'; pc := pc s; received := received s |}
      | _ => s
      end
  end.

(** A schedule, run from left to right. *)
Definition run (w : World) (sch : list Action) (s : Sys) : Sys :=
  fold_left (fun s a => step w a s) sch s.

(** The controller enters the wait in the state that [startup] left. *)
Definition enter (o : Options) (s0 : St Globals) : Sys :=
  {| st := s0; pc := waitEntry o; received := 0 |}.

(** [StartObserver]: the start-up and then, when the start-up goes on, the
    wait and the release under the schedule [sch].  The answer is where
    the controller stands at the end of the schedule: [PcReturned err]
    says that [StartObserver] has returned [err].  There is no answer when
    the allocation of the local port is still running after [fuel] rounds. *)
Definition StartObserver (fuel : nat) (w : World) (o : Options) (sch : list Action)
    (s : St Globals) : option Sys :=
  match startup fuel w o s with
  | Done (Returned err) s' => Some {| st := s'; pc := PcReturned err; received := 0 |}
  | Done (Started _) s' => Some (run w sch (enter o s'))
  | Panic msg s' => Some {| st := s'; pc := PcPanicked msg; received := 0 |}
  | OutOfFuel => None
  end.

(** The wait is over: the controller has reached line 204 or is past it. *)
Definition unblocked (p : Pc) : bool :=
  match p with
  | PcRelease | PcReturned _ | PcPanicked _ => true
  | _ => false
  end.

(** The watchers that a trace shows to have been started. *)
Definition isWatcher (e : Event) : bool :=
  match e with
  | EvGo (GoWatchMessages _ _) | EvGo (GoWatchAlerts _) | EvGo (GoWatchLogs _) => true
  | _ => false
  end.

Definition isFilteringWatcher (e : Event) : bool :=
  match e with
  | EvGo (GoWatchAlerts _) | EvGo (GoWatchLogs _) => true
  | _ => false
  end.

Definition isGo (e : Event) : bool :=
  match e with
  | EvGo _ => true
  | _ => false
  end.

Definition isNewClient (e : Event) : bool :=
  match e with
  | EvNewClient _ _ _ _ _ => true
  | _ => false
  end.

(** Neither a watcher nor the client. *)
Definition beforeClient (e : Event) : Prop :=
  isWatcher e = false /\ isNewClient e = false.

(** What [startup] does between the resolution of the address and the
    compilation of the filters (lines 144 to 161), at the address [gRPC]. *)
Definition clientEvents (o : Options) (gRPC : string) : list Event :=
  [EvNewClient gRPC (MsgPath o) (LogPath o) (LogFilter o) (Limit o);
   EvStderr ("Created a gRPC client (" ++ gRPC ++ ")" ++ LF);
   EvHealthCheck;
   EvStderr ("Checked the liveness of the gRPC server" ++ LF)]
  ++ (if MsgPath o =? "none" then []
      else [EvGo (GoWatchMessages (MsgPath o) (JSON o));
            EvStderr ("Started to watch messages" ++ LF)]).

(** *** The seven filters, by position *)

Inductive FilterId :=
| FNamespace
| FLogType
| FOperation
| FContainerName
| FPodName
| FSource
| FResource.

(** The order in which [regexCompile] takes them. *)
Definition filterOrder : list FilterId :=
  [FNamespace; FLogType; FOperation; FContainerName; FPodName; FSource; FResource].

Definition filterString (f : FilterId) (o : Options) : string :=
  match f with
  | FNamespace => Namespace o
  | FLogType => LogType o
  | FOperation => Operation o
  | FContainerName => ContainerName o
  | FPodName => PodName o
  | FSource => Source o
  | FResource => Resource o
  end.

(** Is the filter wrapped with the case-insensitivity marker? *)
Definition wrapped (f : FilterId) : bool :=
  match f with
  | FSource | FResource => false
  | _ => true
  end.

(** The expression handed to [regexp.Compile] for a filter. *)
Definition expression (f : FilterId) (o : Options) : string :=
  if wrapped f then "(?i)" ++ filterString f o else filterString f o.

Definition slot (f : FilterId) (fs : Filters) : option Regexp :=
  match f with
  | FNamespace => CNamespace fs
  | FLogType => CLogtype fs
  | FOperation => COperation fs
  | FContainerName => CContainerName fs
  | FPodName => CPodName fs
  | FSource => CSource fs
  | FResource => CResource fs
  end.

Definition position (f : FilterId) : nat :=
  match f with
  | FNamespace => 0
  | FLogType => 1
  | FOperation => 2
  | FContainerName => 3
  | FPodName => 4
  | FSource => 5
  | FResource => 6
  end.

Definition invalid (f : FilterId) (o : Options) : Prop :=
  exists err, Compile (expression f o) = inr err.

Definition compiles (f : FilterId) (o : Options) : Prop :=
  exists re, Compile (expression f o) = inl re.

(** The first filter of [fs] whose expression does not compile, with the
    error of [regexp.Compile]. *)
Fixpoint firstFailure (fs : list FilterId) (o : Options) : option (FilterId * error) :=
  match fs with
  | [] => None
  | f :: fs' =>
      match Compile (expression f o) with
      | inr err => Some (f, err)
      | inl _ => firstFailure fs' o
      end
  end.

(** The pointer that [regexp.Compile] returns for a filter. *)
Definition compiled (f : FilterId) (o : Options) : option Regexp :=
  match Compile (expression f o) with
  | inl re => Some re
  | inr _ => None
  end.

(** The variable of filter [f] after [regexCompile], when it held [old]
    before: the filters up to the first failure have been assigned. *)
Definition slotAfter (o : Options) (old : Filters) (f : FilterId) : option Regexp :=
  match firstFailure filterOrder o with
  | None => compiled f o
  | Some (k, _) => if (position f <=? position k)%nat then compiled f o else slot f old
  end.

(** Both destinations are disabled, or the filter mode is none of the
    three (lines 133 and 138). *)
Definition badConfig (o : Options) : bool :=
  (MsgPath o =? "none") && (LogPath o =? "none")
  || negb (LogFilter o =? "all") && negb (LogFilter o =? "policy")
     && negb (LogFilter o =? "system").

(** The number of reports that the wait of a bounded session takes. *)
Definition needed (o : Options) : nat :=
  if LogFilter o =? "all" then 2%nat else 1%nat.

Definition isReport (a : Action) : bool :=
  match a with ActReport => true | _ => false end.

Definition isStop (a : Action) : bool :=
  match a with ActStop => true | _ => false end.

Definition isSignal (a : Action) : bool :=
  match a with ActSignal => true | _ => false end.

(** The system with [unblockSignal] cleared. *)
Definition forget (s : Sys) : Sys := withSt s (set_unblockSignal false) (pc s).

(** The controller is not in the signal-polling loop. *)
Definition pollFree (p : Pc) : bool :=
  match p with
  | PcListen | PcLoop | PcSelect => false
  | _ => true
  end.

(** The invariant of the wait of a bounded session, after [n] sends have
    been attempted: the controller still has receives to do and has
    received what is missing from the needed number, or the wait is over
    and it has received them all. *)
Definition gateInv (o : Options) (n : nat) (s : Sys) : Prop :=
  exists buf,
    Limitchan (glob (st s)) = Some buf /\
    (received s + length buf <= n)%nat /\
    ((exists k, pc s = PcRecv (S k) /\ (received s + S k)%nat = needed o)
     \/ (unblocked (pc s) = true /\ received s = needed o)).

(** The invariant of the wait of an unbounded session; [seen] says that a
    signal or a stop request has occurred. *)
Definition pollInv (seen : bool) (s : Sys) : Prop :=
  received s = 0%nat /\
  match pc s with
  | PcListen => True
  | PcLoop | PcSelect =>
      unblockSignal (glob (st s)) = true \/ (exists k, sigChan (glob (st s)) = Some (S k)) ->
      seen = true
  | PcRelease | PcReturned _ | PcPanicked _ => seen = true
  | PcRecv _ => False
  end.

(** A signal or a stop request. *)
Definition isWakeUp (a : Action) : bool := isSignal a || isStop a.

(** Two states of the system that differ at most in [unblockSignal]. *)
Definition sameButFlag (a b : Sys) : Prop :=
  pc a = pc b /\ received a = received b /\ trace (st a) = trace (st b) /\
  set_unblockSignal false (glob (st a)) = set_unblockSignal false (glob (st b)).

Definition isSleep (e : Event) : bool :=
  match e with EvSleep _ => true | _ => false end.

(** The watchers that a start-up to the wait starts, in this order. *)
Definition watchersOf (o : Options) : list Event :=
  (if MsgPath o =? "none" then [] else [EvGo (GoWatchMessages (MsgPath o) (JSON o))])
  ++ (if LogPath o =? "none" then []
      else (if (LogFilter o =? "all") || (LogFilter o =? "policy")
            then [EvGo (GoWatchAlerts o)] else [])
           ++ (if (LogFilter o =? "all") || (LogFilter o =? "system")
               then [EvGo (GoWatchLogs o)] else [])).

(** The part of the package-level state that the start-up has no business
    with. *)
Definition shutdownState (g : Globals) : option nat * gset nat * option nat * bool * bool :=
  (StopChan g, closedChans g, sigChan g, unblockSignal g, Running g).

(** [StopChan] is nil or names a channel that is still open: closing it
    does not panic. *)
Definition safeStop (g : Globals) : Prop :=
  match StopChan g with
  | None => True
  | Some ch => ch ∉ closedChans g
  end.

(** A signal is waiting in [sigChan]. *)
Definition signalPending (g : Globals) : bool :=
  match sigChan g with
  | Some (S _) => true
  | _ => false
  end.

(** The controller stands in the polling loop with a channel registered,
    and a wake-up is on its way: the flag is set or a signal is waiting. *)
Definition wakingUp (s : Sys) : Prop :=
  (pc s = PcLoop \/ pc s = PcSelect) /\
  sigChan (glob (st s)) <> None /\
  (unblockSignal (glob (st s)) = true \/ signalPending (glob (st s)) = true).

(** The controller stands in the polling loop with a channel registered. *)
Definition polling (s : Sys) : Prop :=
  (pc s = PcLoop \/ pc s = PcSelect) /\ sigChan (glob (st s)) <> None.

(** The steps that the controller still needs once a wake-up is on its
    way: the test, the sleep and the select. *)
Definition stepsToGo (s : Sys) : nat :=
  match pc s with
  | PcLoop => if unblockSignal (glob (st s)) then 1 else 3
  | PcSelect => 2
  | _ => 0
  end.

Definition isCtl (a : Action) : bool :=
  match a with ActCtl => true | _ => false end.

(** What [startWatchers] adds to the trace (lines 170 to 182). *)
Definition filteringEvents (o : Options) : list Event :=
  if LogPath o =? "none" then []
  else (if (LogFilter o =? "all") || (LogFilter o =? "policy")
        then [EvGo (GoWatchAlerts o); EvStderr ("Started to watch alerts" ++ LF)] else [])
       ++ (if (LogFilter o =? "all") || (LogFilter o =? "system")
           then [EvGo (GoWatchLogs o); EvStderr ("Started to watch logs" ++ LF)] else []).

(** The number of sleeps on the trace. *)
Definition sleeps (s : Sys) : nat := length (List.filter isSleep (trace (st s))).

(** The sleeps that the controller still takes once a wake-up is on its
    way. *)
Definition sleepsToGo (s : Sys) : nat :=
  match pc s with
  | PcLoop => if unblockSignal (glob (st s)) then 0%nat else 1%nat
  | _ => 0%nat
  end.

(** [StopChan] names a channel that has been closed already. *)
Definition staleStop (g : Globals) : Prop :=
  exists ch, StopChan g = Some ch /\ ch ∈ closedChans g.

(** The closed channels after the release of a state in which closing
    [StopChan] does not panic. *)
Definition closedAfter (g : Globals) : gset nat :=
  match StopChan g with
  | Some ch => {[ch]} ∪ closedChans g
  | None => closedChans g
  end.

(** What the release path has done, by where the controller stands, in a
    wait that was entered with the package-level state [g0]. *)
Definition releaseInv (w : World) (g0 : Globals) (s : Sys) : Prop :=
  match pc s with
  | PcReturned err =>
      safeStop g0 /\ err = DestroyClient w /\
      Running (glob (st s)) = false /\ StopChan (glob (st s)) = None /\
      closedChans (glob (st s)) = closedAfter g0 /\
      last (trace (st s)) = Some EvDestroyClient
  | PcPanicked msg =>
      staleStop g0 /\ msg = "close of closed channel" /\
      Running (glob (st s)) = Running g0 /\ StopChan (glob (st s)) = StopChan g0 /\
      closedChans (glob (st s)) = closedChans g0 /\
      last (trace (st s)) = Some (EvStderr ("releasing grpc client" ++ LF))
  | _ =>
      Running (glob (st s)) = Running g0 /\ StopChan (glob (st s)) = StopChan g0 /\
      closedChans (glob (st s)) = closedChans g0
  end.

(** Every report that was sent has come through the completion gate: the
    controller has received it or it waits in [Limitchan]; [n] is the
    number of reports sent. *)
Definition gateCount (n : nat) (s : Sys) : Prop :=
  exists buf, Limitchan (glob (st s)) = Some buf /\ (received s + length buf)%nat = n.

End WithLib.
End log.

(** ** Sample inputs *)
Module samples.
Import log.
#[local] Existing Instance syntax.RE2.

(** A world in which everything works, except that port 32767 is taken:
    the cluster has one relay pod, every other port can be bound, the
    random source answers, the tunnel becomes ready and the client is
    healthy. *)
Definition world : World :=
  {| LookupEnv := fun _ => None;
     ListPods := fun _ _ =>
       inl [ {| GetName := "kubearmor-relay-599df6f667-pzjqk"; GetNamespace := "kube-system" |} ];
     Listen := fun _ p => negb (p =? 32767)%Z;
     CloseListener := fun _ => None;
     RandReader := fun i => Some (1000 + Z.of_nat i);
     RoundTripperFor := None;
     PortforwardNew := None;
     ForwardPorts := None;
     NewClientOk := true;
     DoHealthCheck := true;
     DestroyClient := None |}.

(** A world in which no port can be bound. *)
Definition crowded : World :=
  {| LookupEnv := fun _ => None;
     ListPods := fun _ _ => inl [];
     Listen := fun _ _ => false;
     CloseListener := fun _ => None;
     RandReader := fun i => Some (Z.of_nat i);
     RoundTripperFor := None;
     PortforwardNew := None;
     ForwardPorts := None;
     NewClientOk := true;
     DoHealthCheck := true;
     DestroyClient := None |}.

(** No filter, no quota, both categories. *)
Definition noFilters : Options :=
  {| GRPC := "localhost:32767"; MsgPath := "stdout"; LogPath := "stdout";
     LogFilter := "all"; JSON := false; Namespace := ""; LogType := ""; Operation := "";
     ContainerName := ""; PodName := ""; Source := ""; Resource := ""; Limit := 0;
     Selector := [] |}.

(** A namespace filter, and a second filter that does not compile. *)
Definition brokenLogType : Options :=
  {| GRPC := "localhost:32767"; MsgPath := "stdout"; LogPath := "stdout";
     LogFilter := "all"; JSON := false; Namespace := "kube-system"; LogType := "(";
     Operation := ""; ContainerName := ""; PodName := ""; Source := ""; Resource := "";
     Limit := 0; Selector := [] |}.

(** Both destinations disabled. *)
Definition bothDisabled : Options :=
  {| GRPC := "localhost:32767"; MsgPath := "none"; LogPath := "none";
     LogFilter := "all"; JSON := false; Namespace := ""; LogType := ""; Operation := "";
     ContainerName := ""; PodName := ""; Source := ""; Resource := ""; Limit := 0;
     Selector := [] |}.

(** Both destinations disabled, and a filter that does not compile. *)
Definition brokenAndDisabled : Options :=
  {| GRPC := "localhost:32767"; MsgPath := "none"; LogPath := "none";
     LogFilter := "all"; JSON := false; Namespace := ""; LogType := "("; Operation := "";
     ContainerName := ""; PodName := ""; Source := ""; Resource := ""; Limit := 0;
     Selector := [] |}.

(** Both destinations disabled and no address given. *)
Definition bothDisabledNoAddress : Options :=
  {| GRPC := ""; MsgPath := "none"; LogPath := "none";
     LogFilter := "all"; JSON := false; Namespace := ""; LogType := ""; Operation := "";
     ContainerName := ""; PodName := ""; Source := ""; Resource := ""; Limit := 0;
     Selector := [] |}.

(** A quota of five, both categories. *)
Definition bounded : Options :=
  {| GRPC := "localhost:32767"; MsgPath := "none"; LogPath := "stdout";
     LogFilter := "all"; JSON := false; Namespace := ""; LogType := ""; Operation := "";
     ContainerName := ""; PodName := ""; Source := ""; Resource := ""; Limit := 5;
     Selector := [] |}.

(** The package-level state of a fresh process, with the reference
    instance of the regexp interface. *)
Definition fresh : St (@Globals syntax.RE2) := {| glob := initGlobals; trace := [] |}.

(** The fresh state in which [StopChan] names an open channel. *)
Definition withStopChan : St (@Globals syntax.RE2) :=
  {| glob := set_StopChan (Some 7%nat) initGlobals; trace := [] |}.

(** The state in which [StartObserver] comes to its wait for [bounded] in
    the world [world]: the client is created and healthy, the seven empty
    filters are compiled, the gate is made and both watchers are started. *)
Definition watching : St (@Globals syntax.RE2) :=
  {| glob :=
       set_Limitchan (Some [])
         (set_filters
            (fun _ =>
               {| CNamespace := Some syntax.OpEmptyMatch;
                  CLogtype := Some syntax.OpEmptyMatch;
                  COperation := Some syntax.OpEmptyMatch;
                  CContainerName := Some syntax.OpEmptyMatch;
                  CPodName := Some syntax.OpEmptyMatch;
                  CSource := Some syntax.OpEmptyMatch;
                  CResource := Some syntax.OpEmptyMatch |})
            initGlobals);
     trace := [EvNewClient "localhost:32767" "none" "stdout" "all" 5;
               EvStderr ("Created a gRPC client (localhost:32767)" ++ LF);
               EvHealthCheck;
               EvStderr ("Checked the liveness of the gRPC server" ++ LF);
               EvGo (GoWatchAlerts bounded); EvStderr ("Started to watch alerts" ++ LF);
               EvGo (GoWatchLogs bounded); EvStderr ("Started to watch logs" ++ LF)] |}.

(** The same for [noFilters], with the message watcher. *)
Definition watchingUnbounded : St (@Globals syntax.RE2) :=
  {| glob := glob watching;
     trace := [EvNewClient "localhost:32767" "stdout" "stdout" "all" 0;
               EvStderr ("Created a gRPC client (localhost:32767)" ++ LF);
               EvHealthCheck;
               EvStderr ("Checked the liveness of the gRPC server" ++ LF);
               EvGo (GoWatchMessages "stdout" false);
               EvStderr ("Started to watch messages" ++ LF);
               EvGo (GoWatchAlerts noFilters); EvStderr ("Started to watch alerts" ++ LF);
               EvGo (GoWatchLogs noFilters); EvStderr ("Started to watch logs" ++ LF)] |}.

(** A state for the port forwarder alone, which has no package-level
    variables of its own. *)
Definition bare : St unit := {| glob := tt; trace := [] |}.

(** What [InitiatePortForward] starts from in [StartObserver]. *)
Definition lease : utils.PortForwardOpt := utils.initialOpt port port matchLabels.

(** The world [world] with a server that does not answer the health
    check. *)
Definition unhealthy : World :=
  {| LookupEnv := LookupEnv world;
     ListPods := ListPods world;
     Listen := Listen world;
     CloseListener := CloseListener world;
     RandReader := RandReader world;
     RoundTripperFor := RoundTripperFor world;
     PortforwardNew := PortforwardNew world;
     ForwardPorts := ForwardPorts world;
     NewClientOk := true;
     DoHealthCheck := false;
     DestroyClient := DestroyClient world |}.

(** The subject Kube-System with the Kelvin sign U+212A (the bytes 226,
    132, 170 of its UTF-8 encoding) in the place of its first letter. *)
Definition kelvinSubject : string :=
  String (ascii_of_N 226) (String (ascii_of_N 132) (String (ascii_of_N 170) "ube-System")).

End samples.

(** * Proofs *)

(** ** The reference instance of the regexp interface *)
Module syntax_facts.
Import syntax.

Lemma matchAt_NoMatch b s : matchAt OpNoMatch b s = false.
Proof. revert b. induction s as [|d s IH]; intros b; simpl; auto. Qed.

Lemma matchAt_Alternate r1 r2 b s :
  matchAt (OpAlternate r1 r2) b s = matchAt r1 b s || matchAt r2 b s.
Proof.
  revert r1 r2 b. induction s as [|d s IH]; intros r1 r2 b; simpl; auto.
  rewrite IH.
  destruct (nullable b false r1), (nullable b false r2),
    (matchAt (deriv b d r1) false s), (matchAt (deriv b d r2) false s); reflexivity.
Qed.

Lemma matchAt_Concat_NoMatch r b s : matchAt (OpConcat OpNoMatch r) b s = false.
Proof. revert b. induction s as [|d s IH]; intros b; simpl; auto. Qed.

Lemma matchAt_Concat_EmptyMatch r b s :
  matchAt (OpConcat OpEmptyMatch r) b s = matchAt r b s.
Proof.
  destruct s as [|d s]; simpl; auto.
  now rewrite matchAt_Alternate, matchAt_Concat_NoMatch.
Qed.

Lemma matchAt_EmptyMatch b s : matchAt OpEmptyMatch b s = true.
Proof. destruct s; reflexivity. Qed.

Lemma matchAt_Literal c fold b s :
  matchAt (OpLiteral c fold) b s = hasPrefix fold (String c "") s.
Proof.
  destruct s as [|d s]; simpl; auto.
  destruct (litMatches c fold d); simpl.
  - apply matchAt_EmptyMatch.
  - apply matchAt_NoMatch.
Qed.

Lemma matchAt_literals fold p b s :
  matchAt (collapse OpConcat OpEmptyMatch (literals fold p)) b s = hasPrefix fold p s.
Proof.
  revert b s. induction p as [|c p IH]; intros b s.
  - simpl. rewrite matchAt_EmptyMatch. now destruct s.
  - destruct p as [|c' p].
    + apply matchAt_Literal.
    + change (collapse OpConcat OpEmptyMatch (literals fold (String c (String c' p))))
        with (OpConcat (OpLiteral c fold)
                (collapse OpConcat OpEmptyMatch (literals fold (String c' p)))).
      destruct s as [|d s]; [reflexivity|].
      cbn [matchAt nullable deriv andb orb hasPrefix].
      destruct (litMatches c fold d); cbn [andb].
      * rewrite matchAt_Concat_EmptyMatch. apply IH.
      * apply matchAt_Concat_NoMatch.
Qed.

Lemma search_literals fold p b s :
  search (collapse OpConcat OpEmptyMatch (literals fold p)) b s = contains fold p s.
Proof.
  revert b. induction s as [|d s IH]; intros b; cbn [search contains];
    rewrite matchAt_literals; [reflexivity|]. now rewrite IH.
Qed.

Lemma search_EmptyMatch b s : search OpEmptyMatch b s = true.
Proof. destruct s; reflexivity. Qed.


Lemma popSubs_rev rs rest acc :
  popSubs (rev (map IRe rs) ++ rest) acc = popSubs rest (rs ++ acc)%list.
Proof.
  revert acc. induction rs as [|r rs IH] using rev_ind; intros acc; [reflexivity|].
  rewrite map_app, rev_app_distr. cbn [map rev app popSubs].
  rewrite IH. now rewrite <- app_assoc.
Qed.

Lemma parseEnd_subs whole fl rs :
  parseEnd whole {| flags := fl; stack := rev (map IRe rs) |}
  = inr (collapse OpConcat OpEmptyMatch rs).
Proof.
  unfold parseEnd, concat. cbn [stack flags].
  rewrite <- (app_nil_r (rev (map IRe rs))), popSubs_rev, app_nil_r.
  reflexivity.
Qed.

Lemma plainChar_inv c :
  plainChar c = true ->
  isASCII c = true /\
  (c =? "(")%char = false /\ (c =? "|")%char = false /\ (c =? ")")%char = false /\
  (c =? "^")%char = false /\ (c =? "$")%char = false /\ (c =? ".")%char = false /\
  (c =? "[")%char = false /\ (c =? "{")%char = false /\ (c =? "*")%char = false /\
  (c =? "+")%char = false /\ (c =? "?")%char = false /\ (c =? "\")%char = false.
Proof.
  unfold plainChar. intros H. apply andb_prop in H as [Ha H].
  apply negb_true_iff in H.
  repeat (apply orb_false_elim in H as [H ?]). repeat split; assumption.
Qed.

Lemma parseLoop_plain t :
  forall fuel whole fl stk,
    plain t = true -> (String.length t < fuel)%nat ->
    parseLoop fuel whole {| flags := fl; stack := stk |} t ""
    = parseEnd whole {| flags := fl;
                        stack := (rev (map IRe (literals (FoldCase fl) t)) ++ stk)%list |}.
Proof.
  induction t as [|c t IH]; intros fuel whole fl stk Hp Hf.
  - destruct fuel; [inversion Hf|]. reflexivity.
  - destruct fuel; [inversion Hf|].
    cbn [plain] in Hp. apply andb_prop in Hp as [Hc Hp].
    apply plainChar_inv in Hc
      as (Ha & H1 & H2 & H3 & H4 & H5 & H6 & H7 & H8 & H9 & H10 & H11 & H12).
    cbn [parseLoop].
    rewrite Ha, H1, H2, H3, H4, H5, H6, H7, H8, H9, H10, H11, H12. cbn [negb orb].
    unfold literal, push. cbn [flags stack].
    rewrite IH by (auto; cbn [String.length] in Hf; lia).
    cbn [literals map rev]. now rewrite <- app_assoc.
Qed.

Lemma Parse_plain p :
  plain p = true -> (String.length p <= maxPattern)%nat ->
  Parse p = inr (collapse OpConcat OpEmptyMatch (literals false p)).
Proof.
  intros Hp Hl. unfold Parse.
  destruct (Nat.ltb_spec maxPattern (String.length p)); [lia|].
  rewrite parseLoop_plain by (auto; lia).
  rewrite app_nil_r. apply parseEnd_subs.
Qed.

Lemma parseLoop_fold_marker fuel whole p :
  parseLoop (S fuel) whole {| flags := Perl; stack := [] |} ("(?i)" ++ p) ""
  = parseLoop fuel whole
      {| flags := {| FoldCase := true; DotNL := false; NonGreedy := false |}; stack := [] |}
      p "".
Proof. reflexivity. Qed.

Lemma Parse_fold_plain p :
  plain p = true -> (String.length ("(?i)" ++ p) <= maxPattern)%nat ->
  Parse ("(?i)" ++ p) = inr (collapse OpConcat OpEmptyMatch (literals true p)).
Proof.
  intros Hp Hl. unfold Parse.
  destruct (Nat.ltb_spec maxPattern (String.length ("(?i)" ++ p))); [lia|].
  rewrite parseLoop_fold_marker.
  change (String.length ("(?i)" ++ p)) with (4 + String.length p)%nat.
  rewrite parseLoop_plain; [|assumption|lia].
  rewrite app_nil_r. apply parseEnd_subs.
Qed.

(** *** Literals and runes *)

Lemma byte_range c : 0 <= byte c < 256.
Proof.
  unfold byte. pose proof (N_ascii_bounded c) as H. lia.
Qed.

Lemma byte_inj c d : byte c = byte d -> c = d.
Proof.
  unfold byte. intros H. apply N2Z.inj in H.
  rewrite <- (ascii_N_embedding c), <- (ascii_N_embedding d). now rewrite H.
Qed.

Lemma isASCII_byte c : isASCII c = true <-> byte c < 128.
Proof. unfold isASCII, byte. rewrite N.ltb_lt. lia. Qed.

Lemma plain_ascii p : plain p = true -> ascii p = true.
Proof.
  induction p as [|c p IH]; [reflexivity|]. cbn [plain ascii]. intros H.
  apply andb_prop in H as [Hc Hp]. unfold plainChar in Hc. apply andb_prop in Hc as [Hc _].
  rewrite Hc. now apply IH.
Qed.

Lemma litMatches_exact c d : litMatches c false d = true <-> d = byte c.
Proof. unfold litMatches. cbn [andb]. rewrite orb_false_r. apply Z.eqb_eq. Qed.

Lemma foldsOf_checked c :
  isASCII c = true ->
  forallb (fun d => litMatches c true d) (foldsOf c) = true /\
  forallb (fun r => existsb (Z.eqb r) (foldsOf c))
    [byte c; SimpleFold (byte c); SimpleFold (SimpleFold (byte c));
     SimpleFold (SimpleFold (SimpleFold (byte c)))] = true.
Proof.
  destruct c as [b0 b1 b2 b3 b4 b5 b6 b7]. intros H.
  assert (b7 = false) as ->.
  { destruct b7; [|reflexivity]. destruct b0, b1, b2, b3, b4, b5, b6; discriminate. }
  clear H.
  destruct b0, b1, b2, b3, b4, b5, b6; vm_compute; split; reflexivity.
Qed.

Lemma foldMatches_orbit r0 d :
  foldMatches 3 r0 (SimpleFold r0) d = true ->
  d = SimpleFold r0 \/ d = SimpleFold (SimpleFold r0) \/
  d = SimpleFold (SimpleFold (SimpleFold r0)).
Proof.
  cbn [foldMatches]. intros H.
  repeat match type of H with
         | context [if ?b then _ else _] => destruct b
         end;
    rewrite ?orb_false_r in H; try discriminate;
    rewrite ?orb_true_iff, ?Z.eqb_eq in H; tauto.
Qed.

(** Under the flag, a literal matches exactly the runes of [foldsOf]. *)
Lemma litMatches_fold c d :
  isASCII c = true -> litMatches c true d = true <-> In d (foldsOf c).
Proof.
  intros Hc. destruct (foldsOf_checked c Hc) as [H1 H2].
  rewrite forallb_forall in H1, H2. split.
  - unfold litMatches. cbn [andb]. rewrite orb_true_iff, Z.eqb_eq. intros H.
    assert (Hin : In d [byte c; SimpleFold (byte c); SimpleFold (SimpleFold (byte c));
                        SimpleFold (SimpleFold (SimpleFold (byte c)))]).
    { destruct H as [->|H]; [now left|]. apply foldMatches_orbit in H. cbn [In].
      intuition congruence. }
    apply H2 in Hin. apply existsb_exists in Hin as (x & Hx & E).
    apply Z.eqb_eq in E. now subst.
  - apply H1.
Qed.

Lemma hasPrefix_fold p s :
  ascii p = true ->
  hasPrefix true p s = true <-> exists mid post, s = (mid ++ post)%list /\ equalFold p mid.
Proof.
  revert s. induction p as [|c p IH]; intros s Hp; cbn [hasPrefix].
  - split; [intros _; exists [], s; now split|reflexivity].
  - cbn [ascii] in Hp. apply andb_prop in Hp as [Hc Hp]. destruct s as [|d s].
    + split; [discriminate|]. intros (mid & post & H & Hm).
      destruct mid; [contradiction|discriminate].
    + rewrite andb_true_iff, (litMatches_fold c d Hc), (IH s Hp). split.
      * intros [Hd (mid & post & -> & Hm)]. exists (d :: mid), post. now split.
      * intros (mid & post & H & Hm). destruct mid as [|d' mid]; [contradiction|].
        cbn [app] in H. injection H as -> ->. destruct Hm as [Hd Hm].
        split; [assumption|]. now exists mid, post.
Qed.

Lemma contains_fold p s :
  ascii p = true ->
  contains true p s = true <->
  exists pre mid post, s = (pre ++ mid ++ post)%list /\ equalFold p mid.
Proof.
  intros Hp.
  induction s as [|d s IH]; cbn [contains]; rewrite orb_true_iff, (hasPrefix_fold p _ Hp).
  - split.
    + intros [(mid & post & H & Hm)|H]; [|discriminate]. now exists [], mid, post.
    + intros (pre & mid & post & H & Hm). left.
      destruct pre; [now exists mid, post|discriminate].
  - rewrite IH. split.
    + intros [(mid & post & H & Hm)|(pre & mid & post & -> & Hm)];
        [now exists [], mid, post|].
      now exists (d :: pre), mid, post.
    + intros (pre & mid & post & H & Hm). destruct pre as [|d' pre].
      * left. now exists mid, post.
      * right. cbn [app] in H. injection H as -> ->. now exists pre, mid, post.
Qed.

(** *** The runes of a subject *)

Lemma append_cons c s t : String c s ++ t = String c (s ++ t).
Proof. reflexivity. Qed.

Lemma lor_lower_l x y : 0 <= x -> 0 <= y -> x <= Z.lor x y.
Proof.
  intros Hx Hy. pose proof (Z.add_lor_land x y) as H.
  assert (Z.land x y <= y).
  { rewrite <- (Z2N.id x Hx), <- (Z2N.id y Hy), <- N2Z.inj_land.
    apply N2Z.inj_le, N.land_le_r. }
  lia.
Qed.

Lemma lor_lower_r x y : 0 <= x -> 0 <= y -> y <= Z.lor x y.
Proof. intros Hx Hy. rewrite Z.lor_comm. now apply lor_lower_l. Qed.

Lemma land_mask_nonneg x m : 0 <= m -> 0 <= Z.land x m.
Proof. intros H. apply Z.land_nonneg. now right. Qed.

Lemma land_31 x : Z.land x 31 = x mod 32.
Proof. change 31 with (Z.ones 5). now rewrite Z.land_ones. Qed.

Lemma land_15 x : Z.land x 15 = x mod 16.
Proof. change 15 with (Z.ones 4). now rewrite Z.land_ones. Qed.

Lemma land_7 x : Z.land x 7 = x mod 8.
Proof. change 7 with (Z.ones 3). now rewrite Z.land_ones. Qed.

Lemma land_63 x : Z.land x 63 = x mod 64.
Proof. change 63 with (Z.ones 6). now rewrite Z.land_ones. Qed.

Lemma inRange_spec lo hi b : inRange lo hi b = true <-> lo <= b <= hi.
Proof. unfold inRange. rewrite andb_true_iff, !Z.leb_le. tauto. Qed.

Lemma first_spec s0 sz lo hi :
  first s0 = Some (sz, (lo, hi)) ->
  hi <= 191 /\
  ((sz = 2%nat /\ 194 <= s0 <= 223 /\ lo = 128) \/
   (sz = 3%nat /\ ((225 <= s0 <= 239 /\ 128 <= lo) \/ (s0 = 224 /\ lo = 160))) \/
   (sz = 4%nat /\ ((241 <= s0 <= 244 /\ 128 <= lo) \/ (s0 = 240 /\ lo = 144)))).
Proof.
  unfold first.
  repeat match goal with
         | |- context [if inRange ?a ?b ?c then _ else _] =>
             let E := fresh "E" in
             destruct (inRange a b c) eqn:E;
             [apply inRange_spec in E|]
         | |- context [if (?a =? ?b)%Z then _ else _] =>
             let E := fresh "E" in
             destruct (Z.eqb_spec a b) as [E|E]
         end;
    intros H; try discriminate; injection H as <- <- <-; split; try lia;
    intuition lia.
Qed.

Lemma runesFrom_0 c t :
  runesFrom 0 (String c t)
  = fst (DecodeRuneInString (String c t))
    :: runesFrom (snd (DecodeRuneInString (String c t)) - 1) t.
Proof.
  change (runesFrom 0 (String c t))
    with (let '(r, width) := DecodeRuneInString (String c t) in
          r :: runesFrom (width - 1) t).
  now destruct (DecodeRuneInString (String c t)).
Qed.

Lemma Decode_ascii c t : byte c < 128 -> DecodeRuneInString (String c t) = (byte c, 1%nat).
Proof.
  intros H. unfold DecodeRuneInString. now destruct (Z.ltb_spec (byte c) 128); [|lia].
Qed.

Lemma runes_ascii_head c t : byte c < 128 -> runes (String c t) = byte c :: runes t.
Proof. intros H. unfold runes. now rewrite runesFrom_0, (Decode_ascii c t H). Qed.

(** A rune of more than one byte has all its bytes in the subject. *)
Lemma Decode_width c t :
  (1 <= snd (DecodeRuneInString (String c t)) <= S (String.length t))%nat.
Proof.
  unfold DecodeRuneInString.
  destruct (byte c <? 128)%Z; [cbn; lia|].
  destruct (first (byte c)) as [[sz [lo hi]]|]; [|cbn; lia].
  destruct (String.length (String c t) <? sz)%nat; [cbn; lia|].
  destruct t as [|c1 [|c2 [|c3 t]]];
    repeat match goal with
           | |- context [if ?b then _ else _] => destruct b
           end; cbn; lia.
Qed.

(** A rune below 128 is a byte below 128. *)
Lemma Decode_small c t :
  fst (DecodeRuneInString (String c t)) < 128 -> byte c < 128.
Proof.
  unfold DecodeRuneInString.
  destruct (Z.ltb_spec (byte c) 128) as [H|H]; [auto|].
  pose proof (byte_range c) as Hc.
  destruct (first (byte c)) as [[sz [lo hi]]|] eqn:E; [|cbn; unfold RuneError; lia].
  apply first_spec in E as [Hhi E].
  destruct (String.length (String c t) <? sz)%nat; [cbn; unfold RuneError; lia|].
  destruct t as [|c1 t1]; [cbn; unfold RuneError; lia|].
  pose proof (byte_range c1) as Hc1.
  destruct (inRange lo hi (byte c1)) eqn:E1; cbn [negb]; [|cbn; unfold RuneError; lia].
  apply inRange_spec in E1.
  destruct E as [(-> & Hs0 & ->)|[(-> & Hs0)|(-> & Hs0)]]; cbn [Nat.leb fst].
  - set (x0 := Z.shiftl (Z.land (byte c) 31) 6).
    set (x1 := Z.land (byte c1) 63).
    assert (E0 : x0 = byte c mod 32 * 64)
      by (subst x0; rewrite Z.shiftl_mul_pow2, land_31 by lia; reflexivity).
    assert (H1 : 0 <= x1) by (apply land_mask_nonneg; lia).
    pose proof (lor_lower_l x0 x1 ltac:(rewrite E0; Z.div_mod_to_equations; lia) H1).
    intros Hr. Z.div_mod_to_equations. lia.
  - destruct t1 as [|c2 t2]; [cbn; unfold RuneError; lia|].
    destruct (inRange 128 191 (byte c2)); cbn [negb fst]; [|unfold RuneError; lia].
    set (x0 := Z.shiftl (Z.land (byte c) 15) 12).
    set (x1 := Z.shiftl (Z.land (byte c1) 63) 6).
    set (x2 := Z.land (byte c2) 63).
    assert (E0 : x0 = byte c mod 16 * 4096)
      by (subst x0; rewrite Z.shiftl_mul_pow2, land_15 by lia; reflexivity).
    assert (E1' : x1 = byte c1 mod 64 * 64)
      by (subst x1; rewrite Z.shiftl_mul_pow2, land_63 by lia; reflexivity).
    assert (H0 : 0 <= x0) by (rewrite E0; Z.div_mod_to_equations; lia).
    assert (H1 : 0 <= x1) by (rewrite E1'; Z.div_mod_to_equations; lia).
    assert (H2 : 0 <= x2) by (apply land_mask_nonneg; lia).
    pose proof (lor_lower_l x0 x1 H0 H1).
    pose proof (lor_lower_r x0 x1 H0 H1).
    assert (H01 : 0 <= Z.lor x0 x1) by (apply Z.lor_nonneg; auto).
    pose proof (lor_lower_l (Z.lor x0 x1) x2 H01 H2).
    intros Hr. Z.div_mod_to_equations. lia.
  - destruct t1 as [|c2 t2]; [cbn; unfold RuneError; lia|].
    destruct (inRange 128 191 (byte c2)); cbn [negb fst]; [|unfold RuneError; lia].
    destruct t2 as [|c3 t3]; [cbn; unfold RuneError; lia|].
    destruct (inRange 128 191 (byte c3)); cbn [negb fst]; [|unfold RuneError; lia].
    set (x0 := Z.shiftl (Z.land (byte c) 7) 18).
    set (x1 := Z.shiftl (Z.land (byte c1) 63) 12).
    set (x2 := Z.shiftl (Z.land (byte c2) 63) 6).
    set (x3 := Z.land (byte c3) 63).
    assert (E0 : x0 = byte c mod 8 * 262144)
      by (subst x0; rewrite Z.shiftl_mul_pow2, land_7 by lia; reflexivity).
    assert (E1' : x1 = byte c1 mod 64 * 4096)
      by (subst x1; rewrite Z.shiftl_mul_pow2, land_63 by lia; reflexivity).
    assert (H0 : 0 <= x0) by (rewrite E0; Z.div_mod_to_equations; lia).
    assert (H1 : 0 <= x1) by (rewrite E1'; Z.div_mod_to_equations; lia).
    assert (H2 : 0 <= x2) by (apply Z.shiftl_nonneg, land_mask_nonneg; lia).
    assert (H3 : 0 <= x3) by (apply land_mask_nonneg; lia).
    pose proof (lor_lower_l x0 x1 H0 H1).
    pose proof (lor_lower_r x0 x1 H0 H1).
    assert (H01 : 0 <= Z.lor x0 x1) by (apply Z.lor_nonneg; auto).
    pose proof (lor_lower_l (Z.lor x0 x1) x2 H01 H2).
    assert (H012 : 0 <= Z.lor (Z.lor x0 x1) x2) by (apply Z.lor_nonneg; auto).
    pose proof (lor_lower_l (Z.lor (Z.lor x0 x1) x2) x3 H012 H3).
    intros Hr. Z.div_mod_to_equations. lia.
Qed.

Lemma inRange_ascii lo hi a : byte a < 128 -> 128 <= lo -> inRange lo hi (byte a) = false.
Proof.
  intros Ha Hlo. destruct (inRange lo hi (byte a)) eqn:E; [|reflexivity].
  apply inRange_spec in E. lia.
Qed.

(** What a rune is does not depend on what follows an ASCII byte. *)
Lemma Decode_before_ascii c b a t :
  byte a < 128 ->
  DecodeRuneInString (String c (b ++ String a t)) = DecodeRuneInString (String c b).
Proof.
  intros Ha. unfold DecodeRuneInString.
  destruct (byte c <? 128)%Z; [reflexivity|].
  destruct (first (byte c)) as [[sz [lo hi]]|] eqn:E; [|reflexivity].
  apply first_spec in E as [Hhi E].
  assert (Hlo : 128 <= lo) by (destruct E as [(_ & _ & ->)|[(_ & [[_ ?]|[_ ->]])|(_ & [[_ ?]|[_ ->]])]]; lia).
  assert (Hsz : sz = 2%nat \/ sz = 3%nat \/ sz = 4%nat) by tauto.
  clear E.
  pose proof (inRange_ascii lo hi a Ha Hlo) as Ea.
  pose proof (inRange_ascii 128 191 a Ha ltac:(lia)) as Ea'.
  destruct b as [|c1 [|c2 [|c3 b]]]; cbv beta iota zeta delta [append];
    cbn [String.length]; destruct Hsz as [->|[->| ->]]; cbn [Nat.ltb Nat.leb];
    rewrite ?Ea, ?Ea'; cbn [negb];
    repeat match goal with
           | |- context [if ?x then _ else _] => destruct x
           end; reflexivity.
Qed.

(** The runes before an ASCII byte are the runes of what precedes it. *)
Lemma runesFrom_before_ascii a t :
  byte a < 128 ->
  forall b k,
    (k <= String.length b)%nat ->
    runesFrom k (b ++ String a t) = (runesFrom k b ++ runes (String a t))%list.
Proof.
  intros Ha. induction b as [|c b IH]; intros k Hk.
  - cbn [String.length] in Hk. assert (k = 0%nat) as -> by lia. reflexivity.
  - rewrite append_cons. destruct k as [|k].
    + rewrite (runesFrom_0 c (b ++ String a t)), (runesFrom_0 c b),
        (Decode_before_ascii c b a t Ha).
      pose proof (Decode_width c b) as Hw.
      cbn [app]. f_equal. apply IH. lia.
    + cbn [runesFrom]. apply IH. cbn [String.length] in Hk. lia.
Qed.

(** Without the flag, the literals of an ASCII pattern begin the runes of
    a subject exactly when the pattern begins its bytes. *)
Lemma hasPrefix_runes p :
  ascii p = true ->
  forall s, hasPrefix false p (runes s) = true <-> exists post, s = p ++ post.
Proof.
  induction p as [|c p IH]; intros Hp s.
  - split; [intros _; now exists s|reflexivity].
  - cbn [ascii] in Hp. apply andb_prop in Hp as [Hc Hp]. apply isASCII_byte in Hc.
    destruct s as [|d s].
    + split; [discriminate|intros [post H]; discriminate].
    + unfold runes at 1. rewrite runesFrom_0. cbn [hasPrefix].
      rewrite andb_true_iff, litMatches_exact. split.
      * intros [Hd Hrest].
        assert (Hsmall : byte d < 128).
        { apply (Decode_small d s). rewrite Hd. exact Hc. }
        rewrite (Decode_ascii d s Hsmall) in Hd, Hrest. cbn [fst snd Nat.sub] in Hd, Hrest.
        apply byte_inj in Hd as ->. apply (IH Hp) in Hrest as [post ->]. now exists post.
      * intros [post H]. rewrite append_cons in H. injection H as -> ->.
        rewrite (Decode_ascii c _ Hc). cbn [fst snd Nat.sub]. split; [reflexivity|].
        apply (IH Hp). now exists post.
Qed.

Lemma contains_runesFrom p a p' :
  p = String a p' -> ascii p = true ->
  forall s k,
    contains false p (runesFrom k s) = true <->
    exists pre post, s = pre ++ p ++ post /\ (k <= String.length pre)%nat.
Proof.
  intros Ep Hp.
  assert (Ha : byte a < 128).
  { subst p. cbn [ascii] in Hp. apply andb_prop in Hp as [Hc _]. now apply isASCII_byte. }
  induction s as [|d s IH]; intros k.
  - cbn [runesFrom contains]. subst p. cbn [hasPrefix orb]. split; [discriminate|].
    intros (pre & post & H & _). destruct pre; discriminate.
  - destruct k as [|k].
    + rewrite runesFrom_0. cbn [contains]. rewrite orb_true_iff.
      rewrite <- runesFrom_0. change (runesFrom 0 (String d s)) with (runes (String d s)).
      rewrite (hasPrefix_runes p Hp), IH. split.
      * intros [[post H]|(pre & post & -> & Hk)]; [exists "", post; split; [exact H|cbn; lia]|].
        exists (String d pre), post. split; [reflexivity|lia].
      * intros (pre & post & H & _). destruct pre as [|d' pre].
        -- left. now exists post.
        -- right. rewrite append_cons in H. injection H as -> ->. exists pre, post.
           split; [reflexivity|]. subst p. rewrite append_cons.
           rewrite (Decode_before_ascii d' pre a _ Ha).
           pose proof (Decode_width d' pre). lia.
    + cbn [runesFrom]. rewrite IH. split.
      * intros (pre & post & -> & Hk). exists (String d pre), post.
        split; [reflexivity|cbn [String.length]; lia].
      * intros (pre & post & H & Hk). destruct pre as [|d' pre]; [cbn in Hk; lia|].
        rewrite append_cons in H. injection H as -> ->. exists pre, post.
        split; [reflexivity|cbn [String.length] in Hk; lia].
Qed.

(** Without the flag, the literals of an ASCII pattern occur in the runes
    of a subject exactly when the pattern occurs in its bytes. *)
Lemma contains_runes p s :
  ascii p = true ->
  contains false p (runes s) = true <-> exists pre post, s = pre ++ p ++ post.
Proof.
  intros Hp. destruct p as [|a p'].
  - split; [intros _; now exists "", s|]. intros _. now destruct (runes s).
  - unfold runes. rewrite (contains_runesFrom _ a p' eq_refl Hp). split.
    + intros (pre & post & H & _). eauto.
    + intros (pre & post & H). exists pre, post. split; [exact H|lia].
Qed.

(** *** ASCII subjects *)

Lemma litMatches_checked :
  forallb (fun n =>
    forallb (fun m =>
      Bool.eqb (litMatches (ascii_of_nat n) true (byte (ascii_of_nat m)))
        (toLower (ascii_of_nat n) =? toLower (ascii_of_nat m))%char)
      (seq 0 128))
    (seq 0 128) = true.
Proof. vm_compute. reflexivity. Qed.

Lemma isASCII_nat c : isASCII c = true -> In (nat_of_ascii c) (seq 0 128).
Proof.
  intros H. apply isASCII_byte in H. unfold byte in H. apply in_seq.
  unfold nat_of_ascii. lia.
Qed.

(** On ASCII characters, folding is the folding of the case of letters. *)
Lemma litMatches_fold_ascii c d :
  isASCII c = true -> isASCII d = true ->
  litMatches c true (byte d) = true <-> toLower c = toLower d.
Proof.
  intros Hc Hd. pose proof litMatches_checked as H.
  rewrite forallb_forall in H. specialize (H _ (isASCII_nat c Hc)).
  rewrite forallb_forall in H. specialize (H _ (isASCII_nat d Hd)).
  rewrite !ascii_nat_embedding in H. apply Bool.eqb_prop in H. rewrite H.
  apply Ascii.eqb_eq.
Qed.

Lemma hasPrefix_fold_ascii p :
  ascii p = true ->
  forall s, ascii s = true ->
    hasPrefix true p (runes s) = true <->
    exists mid post, s = mid ++ post /\ equalFoldASCII p mid.
Proof.
  induction p as [|c p IH]; intros Hp s Hs.
  - split; [intros _; exists "", s; now split|reflexivity].
  - cbn [ascii] in Hp. apply andb_prop in Hp as [Hc Hp]. destruct s as [|d s].
    + split; [discriminate|]. intros (mid & post & H & Hm).
      destruct mid; [contradiction|discriminate].
    + cbn [ascii] in Hs. apply andb_prop in Hs as [Hd Hs].
      rewrite (runes_ascii_head d s (proj1 (isASCII_byte d) Hd)). cbn [hasPrefix].
      rewrite andb_true_iff, (litMatches_fold_ascii c d Hc Hd), (IH Hp s Hs). split.
      * intros [Hcd (mid & post & -> & Hm)]. exists (String d mid), post. now split.
      * intros (mid & post & H & Hm). destruct mid as [|d' mid]; [contradiction|].
        rewrite append_cons in H. injection H as -> ->. destruct Hm as [Hcd Hm].
        split; [assumption|]. now exists mid, post.
Qed.

(** With the flag, the literals of an ASCII pattern occur in an ASCII
    subject exactly when a part of the subject is the pattern up to the
    case of letters. *)
Lemma contains_fold_ascii p :
  ascii p = true ->
  forall s, ascii s = true ->
    contains true p (runes s) = true <->
    exists pre mid post, s = pre ++ mid ++ post /\ equalFoldASCII p mid.
Proof.
  intros Hp. induction s as [|d s IH]; intros Hs.
  - change (runes "") with (@nil Z). cbn [contains]. rewrite orb_false_r.
    change (@nil Z) with (runes ""). rewrite (hasPrefix_fold_ascii p Hp "" Hs). split.
    + intros (mid & post & H & Hm). now exists "", mid, post.
    + intros (pre & mid & post & H & Hm). destruct pre; [now exists mid, post|discriminate].
  - assert (Hs' := Hs). cbn [ascii] in Hs'. apply andb_prop in Hs' as [Hd Hs'].
    pose proof (hasPrefix_fold_ascii p Hp (String d s) Hs) as Hpre.
    rewrite (runes_ascii_head d s (proj1 (isASCII_byte d) Hd)) in Hpre |- *.
    cbn [contains]. rewrite orb_true_iff, Hpre, (IH Hs'). split.
    + intros [(mid & post & H & Hm)|(pre & mid & post & -> & Hm)];
        [now exists "", mid, post|].
      now exists (String d pre), mid, post.
    + intros (pre & mid & post & H & Hm). destruct pre as [|d' pre].
      * left. now exists mid, post.
      * right. rewrite append_cons in H. injection H as -> ->. now exists pre, mid, post.
Qed.

(** The parser on some patterns whose fate in Go is well known. *)
Example Parse_missing_paren :
  Parse "(" = inl {| Code := ErrMissingParen; Expr := "(" |}.
Proof. reflexivity. Qed.

Example Parse_unexpected_paren :
  Parse "a)" = inl {| Code := ErrUnexpectedParen; Expr := "a)" |}.
Proof. reflexivity. Qed.

Example Parse_missing_argument :
  Parse "*" = inl {| Code := ErrMissingRepeatArgument; Expr := "*" |}.
Proof. reflexivity. Qed.

Example Parse_nested_repetition :
  Parse "a**" = inl {| Code := ErrInvalidRepeatOp; Expr := "**" |}.
Proof. reflexivity. Qed.

Example Parse_trailing_backslash :
  Parse "a\" = inl {| Code := ErrTrailingBackslash; Expr := "" |}.
Proof. reflexivity. Qed.

Example Parse_alternation :
  Parse "ab|c*" = inr (OpAlternate (OpConcat (OpLiteral "a" false) (OpLiteral "b" false))
                         (OpStar (OpLiteral "c" false))).
Proof. reflexivity. Qed.

Example Parse_flag_group :
  Parse "(?i:a)b" = inr (OpConcat (OpLiteral "a" true) (OpLiteral "b" false)).
Proof. reflexivity. Qed.

Example search_anchors :
  search (OpConcat OpBeginText (OpLiteral "a" false)) true (runes "ab") = true /\
  search (OpConcat OpBeginText (OpLiteral "a" false)) true (runes "ba") = false /\
  search (OpConcat (OpLiteral "a" false) OpEndText) true (runes "ba") = true /\
  search (OpConcat (OpLiteral "a" false) OpEndText) true (runes "ab") = false.
Proof. repeat split. Qed.

(** The Kelvin sign (the bytes 226, 132, 170) and the long s (197, 191)
    are one rune each; a byte that starts no sequence is [RuneError]. *)
Example runes_beyond_ascii :
  runes (String (ascii_of_N 226) (String (ascii_of_N 132) (String (ascii_of_N 170) "a")))
  = [8490; 97] /\
  runes (String (ascii_of_N 197) (String (ascii_of_N 191) "")) = [383] /\
  runes (String (ascii_of_N 226) (String (ascii_of_N 132) "a")) = [RuneError; RuneError; 97] /\
  runes (String (ascii_of_N 192) (String (ascii_of_N 128) "")) = [RuneError; RuneError].
Proof. repeat split. Qed.

(** Under the flag, k stands for k, K and the Kelvin sign, s for s, S and
    the long s, and any other letter for its two cases. *)
Example foldsOf_letters :
  foldsOf "k" = [107; 75; 8490] /\ foldsOf "S" = [83; 115; 383] /\
  foldsOf "u" = [117; 85] /\ foldsOf "-" = [45].
Proof. repeat split. Qed.

End syntax_facts.

(** ** Facts about the monad *)
Section MonadFacts.
Context {G : Type}.

Lemma bind_Done {A B} (m : M G A) (k : A -> M G B) s a s' :
  m s = Done a s' -> (m ≫= k) s = k a s'.
Proof. intros H. unfold mbind, M_bind. now rewrite H. Qed.

Lemma yields_ret {A} (P : Event -> Prop) (R : A -> Prop) (a : A) :
  R a -> yields (G:=G) P R (mret a).
Proof. intros H s. split; [assumption|]. exists []. split; [now rewrite app_nil_r|constructor]. Qed.

Lemma yields_emit (P : Event -> Prop) (R : unit -> Prop) e :
  P e -> R tt -> yields (G:=G) P R (emit e).
Proof. intros H HR s. split; [assumption|]. exists [e]. split; [reflexivity|]. now constructor. Qed.

Lemma yields_modify (P : Event -> Prop) (R : unit -> Prop) f :
  R tt -> yields (G:=G) P R (modify f).
Proof. intros HR s. split; [assumption|]. exists []. split; [now rewrite app_nil_r|constructor]. Qed.

Lemma yields_diverge {A} (P : Event -> Prop) (R : A -> Prop) : yields (G:=G) P R diverge.
Proof. intros s. exact I. Qed.

Lemma yields_bind {A B} (P : Event -> Prop) (R1 : A -> Prop) (R : B -> Prop)
    (m : M G A) (k : A -> M G B) :
  yields P R1 m -> (forall a, R1 a -> yields P R (k a)) -> yields P R (m ≫= k).
Proof.
  intros Hm Hk s. specialize (Hm s). unfold mbind, M_bind.
  destruct (m s) as [a s1|msg s1|]; [|assumption|exact I].
  destruct Hm as (Ha & evs1 & E1 & F1). specialize (Hk a Ha s1).
  destruct (k a s1) as [b s2|msg s2|]; [|assumption|exact I].
  destruct Hk as (Hb & evs2 & E2 & F2). split; [assumption|].
  exists (evs1 ++ evs2)%list.
  split; [rewrite E2, E1; now rewrite app_assoc|now apply Forall_app].
Qed.

Lemma yields_weaken {A} (P Q : Event -> Prop) (R S : A -> Prop) (m : M G A) :
  (forall e, P e -> Q e) -> (forall a, R a -> S a) -> yields P R m -> yields Q S m.
Proof.
  intros HPQ HRS Hm s. specialize (Hm s).
  destruct (m s) as [a s1|msg s1|]; [|assumption|exact I].
  destruct Hm as (Ha & evs & E & F). split; [auto|]. exists evs. split; [assumption|].
  eapply Forall_impl; eauto.
Qed.

End MonadFacts.

(** One step through a computation: a bind with nothing asked of the
    intermediate result, or a primitive. *)
Ltac yields_step :=
  lazymatch goal with
  | |- yields _ _ (mbind _ _) => apply (yields_bind _ (fun _ => True)); [|intros ? _]
  | |- yields _ _ (mret _) => apply yields_ret
  | |- yields _ _ (emit _) => apply yields_emit
  | |- yields _ _ (modify _) => apply yields_modify
  | |- yields _ _ diverge => apply yields_diverge
  end.

Ltac yields_auto :=
  repeat (yields_step; try first [exact I | reflexivity | split; reflexivity]).

(** ** The port forwarder only talks to the network and the cluster *)
Section UtilsTrace.
Context {G : Type} (w : World).

Lemma getRandomInt_yields i :
  yields (G:=G) utils.isNetEvent (fun _ => True) (utils.getRandomInt w i).
Proof.
  unfold utils.getRandomInt. yields_auto.
  destruct (utils.rand_Int w i _); yields_auto.
Qed.

Lemma getLocalPort_loop_yields fuel pf :
  forall i port,
    yields (G:=G) utils.isNetEvent (fun _ => True) (utils.getLocalPort_loop w fuel pf i port).
Proof.
  induction fuel as [|fuel IH]; intros i port; cbn [utils.getLocalPort_loop].
  - yields_auto.
  - yields_auto.
    destruct (Listen w i port).
    + yields_auto. destruct (CloseListener w i); yields_auto.
    + yields_step; [apply getRandomInt_yields|].
      destruct a0 as [n [e|]]; [yields_auto|apply IH].
Qed.

Lemma getPodName_yields pf :
  yields (G:=G) isResolutionEvent (fun _ => True) (utils.getPodName w pf).
Proof.
  unfold utils.getPodName. yields_auto.
  destruct (ListPods w _ _) as [Items|err]; [|yields_auto].
  destruct (Items !! 0%nat); yields_auto.
Qed.

Lemma k8sPortForward_yields pf :
  yields (G:=G) isResolutionEvent (fun _ => True) (utils.k8sPortForward w pf).
Proof.
  unfold utils.k8sPortForward.
  destruct (RoundTripperFor w); [yields_auto|].
  destruct (PortforwardNew w); [yields_auto|].
  yields_auto. destruct (ForwardPorts w); yields_auto.
Qed.

Lemma getLocalPort_yields fuel pf :
  yields (G:=G) isResolutionEvent (fun _ => True) (utils.getLocalPort w fuel pf).
Proof.
  apply (yields_weaken utils.isNetEvent _ (fun _ => True));
    [intros []; simpl; tauto|auto|apply getLocalPort_loop_yields].
Qed.

Lemma handlePortForward_yields fuel pf :
  yields (G:=G) isResolutionEvent (fun _ => True) (utils.handlePortForward w fuel pf).
Proof.
  unfold utils.handlePortForward.
  yields_step; [apply getPodName_yields|].
  destruct a as [pf1 [e|]]; [yields_auto|].
  yields_step; [apply getLocalPort_yields|].
  destruct a as [lp [e|]]; [yields_auto|].
  yields_step; [apply k8sPortForward_yields|].
  destruct a as [e|]; yields_auto.
Qed.

Lemma InitiatePortForward_yields fuel lp rp labels :
  yields (G:=G) isResolutionEvent (fun _ => True)
    (utils.InitiatePortForward w fuel lp rp labels).
Proof.
  unfold utils.InitiatePortForward.
  yields_step; [apply handlePortForward_yields|].
  destruct a as [pf [e|]]; yields_auto.
Qed.

End UtilsTrace.

(** ** The filter compiler, for every regexp library *)
Section FilterCompiler.
Context {L : RegexpLib}.
Import log.

Lemma regexCompile_spec o s :
  exists s',
    regexCompile o s = Done (snd <$> firstFailure filterOrder o) s' /\
    trace s' = trace s /\
    (forall f, slot f (filters (glob s')) = slotAfter o (filters (glob s)) f) /\
    glob s' = set_filters (fun _ => filters (glob s')) (glob s).
Proof.
  destruct s as [[fs sc cc sg ub lc rn] tr].
  unfold regexCompile, orReturn, compileInto, slotAfter, compiled.
  cbn [firstFailure filterOrder].
  unfold mbind, M_bind, mret, M_ret, modify.
  repeat
    match goal with
    | |- context [Compile (expression ?f o)] =>
        lazymatch goal with
        | H : Compile (expression f o) = _ |- _ => fail
        | _ => idtac
        end;
        let E := fresh "E" in
        destruct (Compile (expression f o)) eqn:E;
        cbn [expression wrapped filterString] in E; rewrite ?E
    end;
    (eexists; split; [reflexivity|]; split; [reflexivity|]; split; [|reflexivity];
     intros []; cbn [expression wrapped filterString position Nat.leb slot];
     repeat match goal with H : Compile _ = _ |- _ => rewrite H; clear H end;
     reflexivity).
Qed.

Lemma firstFailure_none o :
  (forall f, compiles f o) -> firstFailure filterOrder o = None.
Proof.
  intros H. cbn [firstFailure filterOrder].
  repeat match goal with
         | |- context [Compile (expression ?f o)] =>
             let r := fresh "r" in let E := fresh "E" in
             destruct (H f) as [r E]; rewrite E; clear E
         end.
  reflexivity.
Qed.

Lemma firstFailure_first o k err :
  Compile (expression k o) = inr err ->
  (forall f, (position f < position k)%nat -> compiles f o) ->
  firstFailure filterOrder o = Some (k, err).
Proof.
  intros Hk H. cbn [firstFailure filterOrder].
  destruct k; cbn [position] in H;
    repeat match goal with
           | |- context [Compile (expression ?f o)] =>
               first
                 [ rewrite Hk
                 | let r := fresh "r" in let E := fresh "E" in
                   destruct (H f ltac:(cbn [position]; lia)) as [r E]; rewrite E; clear E ]
           end;
    reflexivity.
Qed.

Lemma invalid_firstFailure o f :
  invalid f o -> exists k err, firstFailure filterOrder o = Some (k, err).
Proof.
  intros [err Hf]. cbn [firstFailure filterOrder].
  repeat match goal with
         | |- context [Compile (expression ?g o)] =>
             let E := fresh "E" in
             destruct (Compile (expression g o)) eqn:E; [|eauto]
         end.
  destruct f; congruence.
Qed.

Lemma firstFailure_invalid o k err :
  firstFailure filterOrder o = Some (k, err) -> Compile (expression k o) = inr err.
Proof.
  cbn [firstFailure filterOrder].
  repeat match goal with
         | |- context [Compile (expression ?g o)] =>
             let E := fresh "E" in
             destruct (Compile (expression g o)) eqn:E;
             [|intros [= <- <-]; assumption]
         end.
  discriminate.
Qed.

Lemma Done_inj {G A} (a a' : A) (s s' : St G) :
  Done a s = Done a' s' -> a = a' /\ s = s'.
Proof. intros H. now injection H. Qed.

Lemma regexCompile_success o s s' :
  regexCompile o s = Done None s' ->
  forall f, slot f (filters (glob s')) = compiled f o.
Proof.
  intros Hr f. destruct (regexCompile_spec o s) as (s1 & E & _ & Hs & _).
  rewrite E in Hr. apply Done_inj in Hr as [Hff <-].
  rewrite Hs. unfold slotAfter.
  destruct (firstFailure filterOrder o) as [[k e]|]; [discriminate|reflexivity].
Qed.

End FilterCompiler.

(** ** Plain patterns in the reference instance *)
Section Reference.
#[local] Existing Instance syntax.RE2.
Import log.

Lemma Compile_plain p :
  syntax.plain p = true -> (String.length p <= syntax.maxPattern)%nat ->
  Compile p = inl (syntax.collapse syntax.OpConcat syntax.OpEmptyMatch (syntax.literals false p)).
Proof.
  intros H Hl. cbn [Compile syntax.RE2]. now rewrite syntax_facts.Parse_plain.
Qed.

Lemma Compile_fold_plain p :
  syntax.plain p = true -> (String.length ("(?i)" ++ p) <= syntax.maxPattern)%nat ->
  Compile ("(?i)" ++ p)
  = inl (syntax.collapse syntax.OpConcat syntax.OpEmptyMatch (syntax.literals true p)).
Proof.
  intros H Hl. cbn [Compile syntax.RE2]. now rewrite syntax_facts.Parse_fold_plain.
Qed.

Lemma expression_plain f o :
  syntax.plain (filterString f o) = true ->
  (String.length (expression f o) <= syntax.maxPattern)%nat ->
  Compile (expression f o)
  = inl (syntax.collapse syntax.OpConcat syntax.OpEmptyMatch
           (syntax.literals (wrapped f) (filterString f o))).
Proof.
  intros H. unfold expression. destruct (wrapped f); intros Hl;
    [now apply Compile_fold_plain|now apply Compile_plain].
Qed.

End Reference.

(** ** The start-up of the observer *)
Section Startup.
Context {L : RegexpLib}.
Import log.

Lemma resolveAddress_yields fuel w o :
  yields isResolutionEvent (fun _ => True) (resolveAddress fuel w o).
Proof.
  unfold resolveAddress. destruct (negb (GRPC o =? "")); [yields_auto|].
  yields_auto. destruct (LookupEnv w _); [yields_auto|].
  yields_step; [apply InitiatePortForward_yields|].
  destruct a0 as [pf [e|]]; yields_auto.
Qed.

Lemma regexCompile_yields (P : Event -> Prop) o f :
  invalid f o -> yields P (fun r => r <> None) (regexCompile o).
Proof.
  intros Hf s. destruct (regexCompile_spec o s) as (s' & E & Ht & _).
  destruct (invalid_firstFailure o f Hf) as (k & err & Hff).
  rewrite E, Hff. split; [discriminate|].
  exists []. split; [now rewrite app_nil_r|constructor].
Qed.

Lemma badConfig_false o :
  badConfig o = false ->
  (MsgPath o =? "none") && (LogPath o =? "none") = false /\
  negb (LogFilter o =? "all") && negb (LogFilter o =? "policy")
  && negb (LogFilter o =? "system") = false.
Proof. unfold badConfig. intros H. now apply orb_false_elim in H. Qed.

Lemma startup_invalid_yields fuel w o f :
  invalid f o ->
  yields (fun e => isFilteringWatcher e = false) (fun r => exists err, r = Returned err)
    (startup fuel w o).
Proof.
  intros Hf. unfold startup.
  apply (yields_bind _ (fun _ => True));
    [apply (yields_weaken isResolutionEvent _ (fun _ => True));
       [intros [| | | | |[]| | | | | | |]; simpl; tauto|auto|apply resolveAddress_yields]|].
  intros [gRPC [e|]] _; [yields_auto; eauto|].
  destruct ((MsgPath o =? "none") && (LogPath o =? "none"));
    [yields_auto; eauto|].
  destruct (negb (LogFilter o =? "all") && negb (LogFilter o =? "policy")
            && negb (LogFilter o =? "system"));
    [yields_auto; eauto|].
  yields_auto.
  destruct (negb (NewClientOk w)); [yields_auto; eauto|].
  yields_auto.
  destruct (negb (DoHealthCheck w)); [yields_auto; eauto|].
  yields_auto.
  { destruct (negb (MsgPath o =? "none")); yields_auto. }
  unfold orReturn.
  apply (yields_bind _ (fun r => r <> None)).
  - apply (yields_bind _ (fun r => r <> None)); [now apply (regexCompile_yields _ o f)|].
    intros [e|] He; [|congruence]. yields_auto. discriminate.
  - intros [e|] He; [|congruence]. yields_auto. eauto.
Qed.

Lemma startup_reaches_compile fuel w o s gRPC s1 k err :
  resolveAddress fuel w o s = Done (gRPC, None) s1 ->
  badConfig o = false -> NewClientOk w = true -> DoHealthCheck w = true ->
  firstFailure filterOrder o = Some (k, err) ->
  exists s',
    startup fuel w o s = Done (Returned (Some err)) s' /\
    trace s' = (trace s1 ++ clientEvents o gRPC ++ [EvStdout err])%list /\
    Limitchan (glob s') = Limitchan (glob s1).
Proof.
  intros Hres Hb Hc Hh Hff. apply badConfig_false in Hb as [Hb1 Hb2].
  unfold startup. rewrite (bind_Done _ _ _ _ _ Hres). cbn beta iota.
  rewrite Hb1, Hb2, Hc, Hh. cbn [negb].
  unfold orReturn, mbind, M_bind, emit, mret, M_ret, clientEvents. cbn [glob trace].
  destruct (MsgPath o =? "none"); cbn [negb glob trace];
    match goal with
    | |- context [regexCompile o ?sx] =>
        destruct (regexCompile_spec o sx) as (s2 & E & Ht & _ & Hg); rewrite E, Hff
    end;
    cbn [fmap option_fmap option_map snd glob trace];
    (eexists; split; [reflexivity|]; cbn [glob trace]; split;
     [rewrite Ht; cbn [trace]; now rewrite <- !app_assoc
     |rewrite Hg; reflexivity]).
Qed.

Lemma badConfig_true o :
  badConfig o = true ->
  (MsgPath o =? "none") && (LogPath o =? "none") = true \/
  negb (LogFilter o =? "all") && negb (LogFilter o =? "policy")
  && negb (LogFilter o =? "system") = true.
Proof. unfold badConfig. intros H. now apply orb_prop in H. Qed.

Lemma startup_badConfig_yields fuel w o :
  badConfig o = true ->
  yields beforeClient (fun r => exists err, r = Returned err) (startup fuel w o).
Proof.
  intros Hb. unfold startup.
  apply (yields_bind _ (fun _ => True));
    [apply (yields_weaken isResolutionEvent _ (fun _ => True));
       [intros [| | | | |[]| | | | | | |]; simpl; unfold beforeClient; simpl; tauto
       |auto|apply resolveAddress_yields]|].
  intros [gRPC [e|]] _; [yields_auto; eauto|].
  destruct ((MsgPath o =? "none") && (LogPath o =? "none")) eqn:E1;
    [yields_auto; eauto|].
  destruct (negb (LogFilter o =? "all") && negb (LogFilter o =? "policy")
            && negb (LogFilter o =? "system")) eqn:E2;
    [yields_auto; eauto|].
  apply badConfig_true in Hb as [Hb|Hb]; congruence.
Qed.

Lemma startup_badConfig_nil fuel w o s gRPC s1 :
  resolveAddress fuel w o s = Done (gRPC, None) s1 ->
  badConfig o = true ->
  startup fuel w o s
  = Done (Returned None) {| glob := glob s1; trace := (trace s1 ++ [EvPrintDefaults])%list |}.
Proof.
  intros Hres Hb. unfold startup. rewrite (bind_Done _ _ _ _ _ Hres). cbn beta iota.
  apply badConfig_true in Hb as [Hb|Hb].
  - rewrite Hb. reflexivity.
  - rewrite Hb. destruct ((MsgPath o =? "none") && (LogPath o =? "none")); reflexivity.
Qed.

Lemma startup_resolution_error fuel w o s gRPC e s1 :
  resolveAddress fuel w o s = Done (gRPC, Some e) s1 ->
  startup fuel w o s = Done (Returned (Some e)) s1.
Proof.
  intros Hres. unfold startup. now rewrite (bind_Done _ _ _ _ _ Hres).
Qed.

Lemma resolveAddress_explicit fuel w o s :
  GRPC o <> "" -> resolveAddress fuel w o s = Done (GRPC o, None) s.
Proof.
  intros H. unfold resolveAddress.
  destruct (GRPC o =? "") eqn:E; [now apply String.eqb_eq in E|reflexivity].
Qed.

Lemma resolveAddress_environment fuel w o s val :
  GRPC o = "" -> LookupEnv w "KUBEARMOR_SERVICE" = Some val ->
  resolveAddress fuel w o s
  = Done (val, None)
      {| glob := glob s; trace := (trace s ++ [EvLookupEnv "KUBEARMOR_SERVICE"])%list |}.
Proof.
  intros Hg Hv. unfold resolveAddress, mbind, M_bind, emit. rewrite Hg, Hv. reflexivity.
Qed.

End Startup.

(** ** The wait of the controller *)
Section Wait.
Context {L : RegexpLib}.
Import log.

Lemma startWatchers_Limitchan o s s0 :
  startWatchers o s = Done tt s0 -> Limitchan (glob s0) = Some [].
Proof.
  unfold startWatchers, mbind, M_bind, modify, emit, mret, M_ret.
  destruct (negb (LogPath o =? "none")),
    ((LogFilter o =? "all") || (LogFilter o =? "policy")),
    ((LogFilter o =? "all") || (LogFilter o =? "system"));
    cbn [glob trace]; intros H; apply Done_inj in H as [_ <-]; reflexivity.
Qed.

(** The wait is entered in the state that the start of the watchers has
    left: when [startup] goes on to the wait, the last thing it has done is
    [startWatchers]. *)
Lemma startup_Started fuel w o s gRPC s0 :
  startup fuel w o s = Done (Started gRPC) s0 ->
  exists s1, startWatchers o s1 = Done tt s0.
Proof.
  unfold startup, orReturn, mbind, M_bind. intros H.
  destruct (resolveAddress fuel w o s) as [[gRPC' [e|]] s1|msg s1|]; try discriminate.
  destruct ((MsgPath o =? "none") && (LogPath o =? "none")); [discriminate|].
  destruct (negb (LogFilter o =? "all") && negb (LogFilter o =? "policy")
            && negb (LogFilter o =? "system")); [discriminate|].
  cbn [emit] in H.
  destruct (negb (NewClientOk w)); [discriminate|].
  destruct (negb (DoHealthCheck w)); [discriminate|].
  destruct (negb (MsgPath o =? "none"));
    cbn [emit mret M_ret] in H;
    match type of H with
    | context [regexCompile o ?sx] =>
        destruct (regexCompile o sx) as [[e|] s2|msg s2|]; try discriminate
    end;
    cbn [mret M_ret] in H;
    (destruct (startWatchers o s2) as [[] s3|msg s3|] eqn:E; try discriminate;
     exists s2; rewrite E; apply Done_inj in H as [_ <-]; reflexivity).
Qed.

(** The release path leaves the channels of the wait alone. *)
Lemma release_cases w s :
  exists s',
    ((exists err, release w s = Done err s') \/ (exists msg, release w s = Panic msg s')) /\
    Limitchan (glob s') = Limitchan (glob s) /\
    sigChan (glob s') = sigChan (glob s) /\
    unblockSignal (glob s') = unblockSignal (glob s).
Proof.
  destruct s as [g tr].
  unfold release, closeStopChan, close, mbind, M_bind, emit, get, modify, panic, mret, M_ret.
  cbn [glob trace]. destruct (StopChan g) as [ch|]; cbn [glob trace].
  - destruct (bool_decide (ch ∈ closedChans g)); eexists; (split; [eauto|]); auto.
  - eexists; (split; [eauto|]); auto.
Qed.

Lemma run_app w sch1 sch2 s : run w (sch1 ++ sch2) s = run w sch2 (run w sch1 s).
Proof. unfold run. apply fold_left_app. Qed.

Lemma run_snoc w sch a s : run w (sch ++ [a]) s = step w a (run w sch s).
Proof. now rewrite run_app. Qed.

Lemma unblocked_step w a s : unblocked (pc s) = true -> unblocked (pc (step w a s)) = true.
Proof.
  intros H. destruct s as [[g tr] p rc]. destruct a; cbn [step st glob pc].
  - destruct p; try discriminate; cbn [ctlStep pc st]; try reflexivity.
    destruct (release w _); reflexivity.
  - destruct (Limitchan g) as [buf|]; [|assumption].
    destruct (length buf <? 2)%nat; assumption.
  - destruct (sigChan g) as [[|k]|]; assumption.
  - exact H.
Qed.

Lemma gateInv_step o w a n s :
  gateInv o n s -> gateInv o (if isReport a then S n else n) (step w a s).
Proof.
  intros (buf & Hb & Hn & Hpc). destruct s as [[g tr] p rc].
  cbn [st glob pc received] in *. destruct a; cbn [step isReport st glob pc].
  - destruct Hpc as [(k & -> & Hk)|[Hu Hr]].
    + cbn [ctlStep pc st glob]. rewrite Hb. destruct buf as [|v rest].
      * exists []. cbn [st glob pc received]. split; [assumption|]. split; [assumption|].
        left. eauto.
      * exists rest. cbn [st glob pc received Limitchan set_Limitchan length] in *.
        split; [reflexivity|]. split; [lia|].
        destruct k as [|k]; [right; split; [reflexivity|lia]|left; exists k; split; [reflexivity|lia]].
    + destruct p; try discriminate; cbn [ctlStep pc st glob received].
      * destruct (release_cases w {| glob := g; trace := tr |}) as (s' & [[e E]|[m E]] & Hl & _);
          rewrite E; exists buf; cbn [st pc received]; rewrite Hl;
          (split; [assumption|]; split; [assumption|]; right; split; [reflexivity|assumption]).
      * exists buf. cbn [st glob pc received]. auto.
      * exists buf. cbn [st glob pc received]. auto.
  - rewrite Hb. destruct (Nat.ltb_spec (length buf) 2).
    + exists (buf ++ [true])%list. cbn [withSt st glob pc received Limitchan set_Limitchan].
      rewrite length_app. cbn [length]. split; [reflexivity|]. split; [lia|]. assumption.
    + exists buf. cbn [st glob pc received]. split; [assumption|]. split; [lia|]. assumption.
  - destruct (sigChan g) as [[|k]|]; exists buf; simpl;
      (split; [assumption|]; split; [assumption|]; assumption).
  - exists buf. cbn [st glob pc received StopObserver]. auto.
Qed.

Lemma gateInv_run o w sch :
  forall n s,
    gateInv o n s -> gateInv o (n + length (List.filter isReport sch)) (run w sch s).
Proof.
  induction sch as [|a sch IH]; intros n s H.
  - cbn [List.filter length run fold_left]. now rewrite Nat.add_0_r.
  - change (run w (a :: sch) s) with (run w sch (step w a s)).
    apply (gateInv_step o w a) in H. apply IH in H.
    cbn [List.filter]. destruct (isReport a); cbn [length]; [|assumption].
    now rewrite <- Nat.add_succ_comm.
Qed.

Lemma gateInv_enter o s0 :
  Limit o <> 0 -> Limitchan (glob s0) = Some [] -> gateInv o 0 (enter o s0).
Proof.
  intros Hl Hc. exists []. unfold enter, waitEntry, needed. cbn [st pc received length].
  split; [assumption|]. split; [lia|]. left.
  destruct (Z.eqb_spec (Limit o) 0); [contradiction|]. cbn [negb].
  destruct (LogFilter o =? "all"); eauto.
Qed.

Lemma gateInv_report_receive o w n s :
  gateInv o n s ->
  unblocked (pc (run w [ActReport; ActCtl] s)) = true \/
  exists k, pc s = PcRecv (S (S k)) /\ pc (run w [ActReport; ActCtl] s) = PcRecv (S k).
Proof.
  intros (buf & Hb & Hn & Hpc). destruct s as [[g tr] p rc].
  cbn [st glob pc received] in *.
  destruct Hpc as [(k & -> & Hk)|[Hu Hr]].
  - cbn [run fold_left step st glob pc]. rewrite Hb.
    destruct (length buf <? 2)%nat eqn:E.
    + cbn [withSt ctlStep pc st glob Limitchan set_Limitchan].
      destruct buf as [|v rest]; cbn [app]; (destruct k as [|k]; [left; reflexivity|right; eauto]).
    + cbn [ctlStep pc st glob]. rewrite Hb. destruct buf as [|v rest]; [discriminate|].
      cbn [pc]. destruct k as [|k]; [left; reflexivity|right; eauto].
  - left. cbn [run fold_left]. now do 2 apply unblocked_step.
Qed.

Lemma pollInv_step w a seen s :
  pollInv seen s -> pollInv (seen || isWakeUp a) (step w a s).
Proof.
  intros [Hr Hpc]. destruct s as [[g tr] p rc]. cbn [st glob pc received] in *.
  destruct a; cbn [step isWakeUp isSignal isStop orb st glob pc]; rewrite ?orb_false_r, ?orb_true_r.
  - destruct p; try contradiction; cbn [ctlStep pc st glob].
    + split; [assumption|]. cbn [withSt pc st glob set_sigChan set_unblockSignal sigChan unblockSignal].
      intros [H|[k H]]; discriminate.
    + destruct (unblockSignal g) eqn:E; cbn [negb].
      * split; [assumption|]. cbn [withSt pc]. auto.
      * split; [assumption|]. cbn [pc st glob].
        intros [H|H]; [congruence|apply Hpc; auto].
    + destruct (sigChan g) as [[|k]|] eqn:E; (split; [assumption|]);
        cbn [withSt pc st glob id set_sigChan set_unblockSignal sigChan unblockSignal];
        rewrite ?E.
      * intros [H|[k' H]]; [apply Hpc; auto|discriminate].
      * intros _. apply Hpc. right. eauto.
      * intros [H|[k' H]]; [apply Hpc; auto|discriminate].
    + destruct (release w _); (split; [assumption|assumption]).
    + split; assumption.
    + split; assumption.
  - destruct (Limitchan g) as [buf|]; [|split; assumption].
    destruct (length buf <? 2)%nat; split; assumption.
  - destruct (sigChan g) as [[|k]|] eqn:E; (split; [assumption|]);
      cbn [withSt pc st glob]; destruct p; try contradiction; simpl; auto.
  - split; [assumption|]. cbn [pc]. destruct p; try contradiction; simpl; auto.
Qed.

Lemma pollInv_run w sch :
  forall seen s, pollInv seen s -> pollInv (seen || existsb isWakeUp sch) (run w sch s).
Proof.
  induction sch as [|a sch IH]; intros seen s H.
  - cbn [existsb run fold_left]. now rewrite orb_false_r.
  - change (run w (a :: sch) s) with (run w sch (step w a s)).
    apply (pollInv_step w a) in H. apply IH in H.
    cbn [existsb]. now rewrite orb_assoc.
Qed.

Lemma pollInv_enter o s0 : Limit o = 0 -> pollInv false (enter o s0).
Proof.
  intros Hl. unfold enter, waitEntry. rewrite Hl. split; [reflexivity|exact I].
Qed.

(** Outside the polling loop nothing reads [unblockSignal]. *)
Lemma forget_step w a s :
  pollFree (pc s) = true -> forget (step w a s) = forget (step w a (forget s)).
Proof.
  destruct s as [[[fs sc cc sg ub lc rn] tr] p rc]. intros Hp.
  destruct a; cbn [step forget withSt st glob pc received].
  - destruct p as [[|n]| | | | | |]; try discriminate; try reflexivity.
    + cbn [ctlStep pc st glob Limitchan set_unblockSignal].
      destruct lc as [[|v rest]|]; reflexivity.
    + cbv beta iota zeta delta
        [forget withSt ctlStep release closeStopChan close mbind M_bind emit get modify
         panic mret M_ret set_unblockSignal set_closedChans set_StopChan set_Running
         glob trace st pc received StopChan closedChans filters sigChan unblockSignal
         Limitchan Running].
      destruct sc as [ch|]; [|reflexivity].
      destruct (bool_decide (ch ∈ cc)); reflexivity.
  - cbn [Limitchan set_unblockSignal]. destruct lc as [buf|]; [|reflexivity].
    destruct (length buf <? 2)%nat; reflexivity.
  - cbn [sigChan set_unblockSignal]. destruct sg as [[|k]|]; reflexivity.
  - reflexivity.
Qed.

Lemma forget_stop w s : forget (step w ActStop s) = forget s.
Proof. destruct s as [[[fs sc cc sg ub lc rn] tr] p rc]. reflexivity. Qed.

Lemma forget_pc s : pc (forget s) = pc s.
Proof. reflexivity. Qed.

Lemma pollFree_step w a s :
  pollFree (pc s) = true -> pollFree (pc (step w a s)) = true.
Proof.
  intros H. destruct s as [[g tr] p rc]. destruct a; cbn [step st glob pc].
  - destruct p as [[|n]| | | | | |]; try discriminate; cbn [ctlStep pc st glob]; try reflexivity.
    + destruct (Limitchan g) as [[|v rest]|]; try reflexivity. destruct n; reflexivity.
    + destruct (release w _); reflexivity.
  - destruct (Limitchan g) as [buf|]; [|assumption].
    destruct (length buf <? 2)%nat; assumption.
  - destruct (sigChan g) as [[|k]|]; assumption.
  - exact H.
Qed.

Lemma forget_run_congr w sch :
  forall s s',
    pollFree (pc s) = true -> forget s = forget s' ->
    forget (run w sch s) = forget (run w sch s').
Proof.
  induction sch as [|a sch IH]; intros s s' Hp He; [exact He|].
  change (forget (run w sch (step w a s)) = forget (run w sch (step w a s'))).
  assert (Hp' : pollFree (pc s') = true).
  { rewrite <- (forget_pc s'), <- He. exact Hp. }
  apply IH; [now apply pollFree_step|].
  rewrite (forget_step w a s Hp), (forget_step w a s' Hp'). now rewrite He.
Qed.

Lemma forget_run w sch :
  forall s,
    pollFree (pc s) = true ->
    forget (run w sch s) = forget (run w (List.filter (fun a => negb (isStop a)) sch) s).
Proof.
  induction sch as [|a sch IH]; intros s Hp; [reflexivity|].
  change (run w (a :: sch) s) with (run w sch (step w a s)).
  cbn [List.filter]. destruct a; cbn [isStop negb];
    try (change (run w (?a :: ?l) s) with (run w l (step w a s));
         apply IH; now apply pollFree_step).
  rewrite <- (IH s Hp). apply forget_run_congr; [exact Hp|apply forget_stop].
Qed.

Lemma forget_sameButFlag a b : forget a = forget b -> sameButFlag a b.
Proof.
  intros H. unfold sameButFlag.
  change (pc a) with (pc (forget a)). change (received a) with (received (forget a)).
  change (trace (st a)) with (trace (st (forget a))).
  change (set_unblockSignal false (glob (st a))) with (glob (st (forget a))).
  now rewrite H.
Qed.

Lemma pollFree_enter o s0 : Limit o <> 0 -> pollFree (pc (enter o s0)) = true.
Proof.
  intros Hl. unfold enter, waitEntry. cbn [pc].
  destruct (Z.eqb_spec (Limit o) 0); [contradiction|]. cbn [negb].
  destruct (LogFilter o =? "all"); reflexivity.
Qed.

End Wait.

(** ** The allocation loop, round by round *)
Section Allocation.
Context {G : Type} (w : World).
Import utils.

Lemma wrap64_small z : - 2 ^ 63 <= z < 2 ^ 63 -> wrap64 z = z.
Proof. intros H. unfold wrap64. rewrite Z.mod_small; lia. Qed.

Lemma rand_Int_range i n : rand_Int w i (32900 - 32768) = Some n -> 0 <= n < 132.
Proof.
  unfold rand_Int. destruct (RandReader w i) as [e|]; [|discriminate].
  cbn [fmap option_fmap option_map]. intros [= <-].
  change (32900 - 32768) with 132. apply Z.mod_pos_bound. lia.
Qed.

Lemma candidate_range n :
  0 <= n < 132 ->
  wrap64 (wrap64 n + 32768) = n + 32768 /\ inFallbackRange (wrap64 (wrap64 n + 32768)).
Proof.
  intros H. rewrite (wrap64_small n) by lia. rewrite wrap64_small by lia.
  unfold inFallbackRange. lia.
Qed.

Lemma getRandomInt_ok i n (s : St G) :
  rand_Int w i (32900 - 32768) = Some n ->
  getRandomInt w i s = Done (wrap64 n, None) (after s [EvRandInt 132]).
Proof. intros H. unfold getRandomInt, mbind, M_bind, emit. now rewrite H. Qed.

Lemma getRandomInt_fails i (s : St G) :
  rand_Int w i (32900 - 32768) = None ->
  getRandomInt w i s
  = Done (-1, Some "unable to generate random integer for port") (after s [EvRandInt 132]).
Proof. intros H. unfold getRandomInt, mbind, M_bind, emit. now rewrite H. Qed.

Lemma after_after (s : St G) evs1 evs2 : after (after s evs1) evs2 = after s (evs1 ++ evs2).
Proof. unfold after. cbn [glob trace]. now rewrite app_assoc. Qed.

(** The four ways a round of the loop can go. *)
Lemma loop_bound fuel pf i port (s : St G) :
  Listen w i port = true -> CloseListener w i = None ->
  getLocalPort_loop w (S fuel) pf i port s
  = Done (port, None)
      (after s [EvListen port; EvCloseListener;
                EvStderr ("local port to be used for port forwarding " ++ PodName pf
                          ++ ": " ++ FormatInt port ++ " " ++ LF)]).
Proof.
  intros Hl Hc. cbn [getLocalPort_loop]. unfold mbind, M_bind, emit.
  rewrite Hl. cbn [glob trace]. rewrite Hc. unfold after. cbn [glob trace].
  now rewrite <- !app_assoc.
Qed.

Lemma loop_close_fails fuel pf i port err (s : St G) :
  Listen w i port = true -> CloseListener w i = Some err ->
  getLocalPort_loop w (S fuel) pf i port s
  = Done (-1, Some err) (after s [EvListen port; EvCloseListener]).
Proof.
  intros Hl Hc. cbn [getLocalPort_loop]. unfold mbind, M_bind, emit.
  rewrite Hl. cbn [glob trace]. rewrite Hc. unfold after. cbn [glob trace].
  now rewrite <- !app_assoc.
Qed.

Lemma loop_draw_fails fuel pf i port (s : St G) :
  Listen w i port = false -> rand_Int w i (32900 - 32768) = None ->
  getLocalPort_loop w (S fuel) pf i port s
  = Done (-1, Some "unable to generate random integer for port")
      (after s [EvListen port; EvRandInt 132]).
Proof.
  intros Hl Hr. cbn [getLocalPort_loop]. unfold mbind at 1. unfold M_bind at 1.
  unfold emit at 1. rewrite Hl. unfold mbind, M_bind.
  rewrite (getRandomInt_fails _ _ Hr). unfold after. cbn [glob trace].
  now rewrite <- !app_assoc.
Qed.

Lemma loop_retry fuel pf i port n (s : St G) :
  Listen w i port = false -> rand_Int w i (32900 - 32768) = Some n ->
  getLocalPort_loop w (S fuel) pf i port s
  = getLocalPort_loop w fuel pf (S i) (wrap64 (wrap64 n + 32768))
      (after s [EvListen port; EvRandInt 132]).
Proof.
  intros Hl Hr. cbn [getLocalPort_loop]. unfold mbind at 1. unfold M_bind at 1.
  unfold emit at 1. rewrite Hl. unfold mbind, M_bind.
  rewrite (getRandomInt_ok _ _ _ Hr). unfold after. cbn [glob trace].
  now rewrite <- !app_assoc.
Qed.

(** A round ends in exactly one of the four ways. *)
Lemma loop_cases i port :
  (Listen w i port = true /\ CloseListener w i = None) \/
  (exists err, Listen w i port = true /\ CloseListener w i = Some err) \/
  (Listen w i port = false /\ rand_Int w i (32900 - 32768) = None) \/
  (exists n, Listen w i port = false /\ rand_Int w i (32900 - 32768) = Some n).
Proof.
  destruct (Listen w i port); [destruct (CloseListener w i) as [e|]|
                               destruct (rand_Int w i (32900 - 32768)) as [n|]]; eauto 6.
Qed.

Lemma listens_app evs1 evs2 : listens (evs1 ++ evs2) = (listens evs1 ++ listens evs2)%list.
Proof. unfold listens. apply omap_app. Qed.

Lemma loop_probes pf fuel :
  forall i port (s : St G) r s',
    getLocalPort_loop w fuel pf i port s = Done r s' ->
    exists evs rest,
      s' = after s evs /\
      listens evs = port :: rest /\
      Forall inFallbackRange rest /\
      (snd r = None ->
       (Listen w i port = true /\ fst r = port) \/
       (Listen w i port = false /\ inFallbackRange (fst r))).
Proof.
  induction fuel as [|fuel IH]; intros i port s r s' H; [discriminate|].
  destruct (loop_cases i port) as [[Hl Hc]|[(err & Hl & Hc)|[[Hl Hr]|(n & Hl & Hr)]]].
  - rewrite (loop_bound _ _ _ _ _ Hl Hc) in H. apply Done_inj in H as [<- <-].
    eexists _, []. split; [reflexivity|]. split; [reflexivity|]. split; [constructor|].
    intros _. left. now split.
  - rewrite (loop_close_fails _ _ _ _ _ _ Hl Hc) in H. apply Done_inj in H as [<- <-].
    eexists _, []. split; [reflexivity|]. split; [reflexivity|]. split; [constructor|].
    discriminate.
  - rewrite (loop_draw_fails _ _ _ _ _ Hl Hr) in H. apply Done_inj in H as [<- <-].
    eexists _, []. split; [reflexivity|]. split; [reflexivity|]. split; [constructor|].
    discriminate.
  - rewrite (loop_retry _ _ _ _ _ _ Hl Hr) in H.
    apply IH in H as (evs & rest & -> & Hls & Hrest & Hres).
    pose proof (candidate_range n (rand_Int_range _ _ Hr)) as [_ Hin].
    exists ([EvListen port; EvRandInt 132] ++ evs)%list, (wrap64 (wrap64 n + 32768) :: rest).
    split; [now rewrite after_after|]. split; [rewrite listens_app, Hls; reflexivity|].
    split; [now constructor|].
    intros Hn. right. split; [assumption|].
    destruct (Hres Hn) as [[_ ->]|[_ ?]]; assumption.
Qed.

Lemma retries_error pf fuel :
  forall i port (s : St G) p err s',
    getLocalPort_loop w fuel pf i port s = Done (p, Some err) s' ->
    exists j port',
      retries w i port j port' /\ p = -1 /\
      ((Listen w j port' = true /\ CloseListener w j = Some err) \/
       (Listen w j port' = false /\ RandReader w j = None /\
        err = "unable to generate random integer for port")).
Proof.
  induction fuel as [|fuel IH]; intros i port s p err s' H; [discriminate|].
  destruct (loop_cases i port) as [[Hl Hc]|[(e & Hl & Hc)|[[Hl Hr]|(n & Hl & Hr)]]].
  - rewrite (loop_bound _ _ _ _ _ Hl Hc) in H. apply Done_inj in H as [H _]. discriminate.
  - rewrite (loop_close_fails _ _ _ _ _ _ Hl Hc) in H. apply Done_inj in H as [H _].
    injection H as <- <-. exists i, port. split; [constructor|]. split; [reflexivity|]. now left.
  - rewrite (loop_draw_fails _ _ _ _ _ Hl Hr) in H. apply Done_inj in H as [H _].
    injection H as <- <-. exists i, port. split; [constructor|]. split; [reflexivity|].
    right. split; [assumption|]. split; [|reflexivity].
    unfold rand_Int in Hr. now destruct (RandReader w i).
  - rewrite (loop_retry _ _ _ _ _ _ Hl Hr) in H.
    apply IH in H as (j & port' & Hre & Hp & Hend).
    exists j, port'. split; [|now split]. econstructor; eassumption.
Qed.

Lemma retries_reach pf i port j port' :
  retries w i port j port' ->
  forall (s : St G), exists evs,
    forall fuel,
      getLocalPort_loop w (j - i + fuel) pf i port s
      = getLocalPort_loop w fuel pf j port' (after s evs) /\
      (i <= j)%nat /\ Forall isNetEvent evs.
Proof.
  induction 1 as [i port|i port n j port' Hl Hr Hre IH]; intros s.
  - exists []. intros fuel. rewrite Nat.sub_diag. cbn [Nat.add].
    unfold after. rewrite app_nil_r. destruct s as [g tr]; cbn [glob trace].
    split; [reflexivity|]. split; [lia|constructor].
  - destruct (IH (after s [EvListen port; EvRandInt 132])) as (evs & Hevs).
    exists ([EvListen port; EvRandInt 132] ++ evs)%list. intros fuel.
    destruct (Hevs fuel) as (E & Hle & Hf).
    replace (j - i + fuel)%nat with (S (j - S i + fuel)) by lia.
    rewrite (loop_retry _ _ _ _ _ _ Hl Hr), E, after_after.
    split; [reflexivity|]. split; [lia|]. repeat constructor. assumption.
Qed.

Lemma loop_never_gives_up pf :
  (forall i port, Listen w i port = false) ->
  (forall i, RandReader w i <> None) ->
  forall fuel i port (s : St G), getLocalPort_loop w fuel pf i port s = OutOfFuel.
Proof.
  intros Hl Hr. induction fuel as [|fuel IH]; intros i port s; [reflexivity|].
  destruct (RandReader w i) as [e|] eqn:E; [|now destruct (Hr i)].
  rewrite (loop_retry _ _ _ _ (e mod (32900 - 32768)) _ (Hl i port)); [apply IH|].
  unfold rand_Int. now rewrite E.
Qed.

End Allocation.

(** * The claims *)

(** ** The filter compiler *)
Section FilterStore.
Context {L : RegexpLib}.
Import log.

(** A filter whose expression compiles is not the first to fail. *)
Lemma firstFailure_compiles o f k err :
  compiles f o -> firstFailure filterOrder o = Some (k, err) -> k <> f.
Proof.
  intros [re Hre] Hff ->. apply firstFailure_invalid in Hff. congruence.
Qed.

(** When every filter before [f] compiles and [f] compiles too,
    [regexCompile] stores the matcher of [f], whatever the later filters
    do. *)
Lemma regexCompile_stores o f re s s' r :
  Compile (expression f o) = inl re ->
  (forall g, (position g < position f)%nat -> compiles g o) ->
  regexCompile o s = Done r s' ->
  slot f (filters (glob s')) = Some re.
Proof.
  intros Hre Hbefore Hr.
  destruct (regexCompile_spec o s) as (s1 & E & _ & Hs & _).
  rewrite E in Hr. apply Done_inj in Hr as [_ <-].
  rewrite Hs. unfold slotAfter, compiled. rewrite Hre.
  destruct (firstFailure filterOrder o) as [[k e]|] eqn:Hff; [|reflexivity].
  pose proof (firstFailure_invalid o k e Hff) as Hk.
  destruct (Nat.leb_spec (position f) (position k)) as [Hle|Hlt]; [reflexivity|].
  destruct (Hbefore k Hlt) as [rk Hrk]. congruence.
Qed.

Lemma expression_empty f o :
  filterString f o = "" -> expression f o = (if wrapped f then "(?i)" else "").
Proof. intros Hf. unfold expression. rewrite Hf. destruct (wrapped f); reflexivity. Qed.

End FilterStore.

Section FilterClaims.
#[local] Existing Instance syntax.RE2.
Import log.

(** C6.  Whichever of the seven filters is the empty string, the
    expression that [regexCompile] hands to [regexp.Compile] for it is the
    empty expression or the bare case-insensitivity marker, and the filter
    is not skipped.  For every regexp library that compiles this
    expression: [regexCompile] ends in every state, the empty filter is
    never the one whose error it returns, and once the filters before it
    compile, its variable holds the compiled matcher afterwards, whatever
    it held before and whatever the later filters do.  With the reference
    instance the expression does compile, and the matcher accepts every
    subject; when all seven filters compile, [regexCompile] returns nil;
    and with all seven filters empty it returns nil and every variable
    holds a matcher that accepts every subject. *)
Theorem empty_filter_accepts_everything (f : FilterId) (o : Options) :
  filterString f o = "" ->
  expression f o = (if wrapped f then "(?i)" else "") /\
  (forall (L : RegexpLib) (re : Regexp) (s : St Globals),
      Compile (if wrapped f then "(?i)" else "") = inl re ->
      exists s',
        regexCompile o s = Done (snd <$> firstFailure filterOrder o) s' /\
        (forall k err, firstFailure filterOrder o = Some (k, err) -> k <> f) /\
        ((forall g, (position g < position f)%nat -> compiles g o) ->
         slot f (filters (glob s')) = Some re)) /\
  exists re,
    Compile (expression f o) = inl re /\
    (forall subject, MatchString re subject = true) /\
    (forall s, exists s',
        regexCompile o s = Done (snd <$> firstFailure filterOrder o) s' /\
        (forall k err, firstFailure filterOrder o = Some (k, err) -> k <> f) /\
        ((forall g, (position g < position f)%nat -> compiles g o) ->
         slot f (filters (glob s')) = Some re) /\
        ((forall g, compiles g o) ->
         regexCompile o s = Done None s' /\ slot f (filters (glob s')) = Some re)) /\
    (forall s s', regexCompile o s = Done None s' -> slot f (filters (glob s')) = Some re) /\
    ((forall g, filterString g o = "") ->
     forall s, exists s',
       regexCompile o s = Done None s' /\
       forall g, exists rg,
         slot g (filters (glob s')) = Some rg /\
         forall subject, MatchString rg subject = true).
Proof.
  intros Hf.
  assert (Hc : forall g, filterString g o = "" ->
                 Compile (expression g o) = inl syntax.OpEmptyMatch).
  { intros g Hg. rewrite (expression_empty g o Hg). destruct (wrapped g); vm_compute; reflexivity. }
  assert (Hm : forall subject, MatchString syntax.OpEmptyMatch subject = true).
  { intros subject. apply syntax_facts.search_EmptyMatch. }
  split; [exact (expression_empty f o Hf)|]. split.
  { intros L re s Hre. rewrite <- (expression_empty f o Hf) in Hre.
    destruct (regexCompile_spec o s) as (s' & E & _).
    exists s'. split; [exact E|]. split.
    - intros k err. apply firstFailure_compiles. eexists. exact Hre.
    - intros Hbefore. exact (regexCompile_stores o f _ s s' _ Hre Hbefore E). }
  exists syntax.OpEmptyMatch.
  split; [exact (Hc f Hf)|]. split; [exact Hm|]. split; [|split].
  - intros s. destruct (regexCompile_spec o s) as (s' & E & _).
    exists s'. split; [exact E|]. split; [|split].
    + intros k err. apply firstFailure_compiles. eexists. exact (Hc f Hf).
    + intros Hbefore. exact (regexCompile_stores o f _ s s' _ (Hc f Hf) Hbefore E).
    + intros Hall. rewrite (firstFailure_none o Hall) in E. split; [exact E|].
      exact (regexCompile_stores o f _ s s' _ (Hc f Hf) (fun g _ => Hall g) E).
  - intros s s' Hr. rewrite (regexCompile_success o s s' Hr).
    unfold compiled. now rewrite (Hc f Hf).
  - intros Hall s.
    assert (Hcomp : forall g, compiles g o) by (intros g; eexists; exact (Hc g (Hall g))).
    destruct (regexCompile_spec o s) as (s' & E & _).
    rewrite (firstFailure_none o Hcomp) in E. exists s'. split; [exact E|].
    intros g. exists syntax.OpEmptyMatch. split; [|exact Hm].
    exact (regexCompile_stores o g _ s s' _ (Hc g (Hall g)) (fun h _ => Hcomp h) E).
Qed.

Lemma noFilters_empty : forall g, filterString g samples.noFilters = "".
Proof. intros []; reflexivity. Qed.

Lemma empty_filter_accepts_everything_witness :
  filterString FSource samples.noFilters = "" /\
  expression FSource samples.noFilters = "" /\
  exists s',
    regexCompile samples.noFilters samples.fresh = Done None s' /\
    forall g, exists rg,
      slot g (filters (glob s')) = Some rg /\
      forall subject, MatchString rg subject = true.
Proof.
  split; [reflexivity|].
  destruct (empty_filter_accepts_everything FSource samples.noFilters eq_refl)
    as (He & _ & re & _ & _ & _ & _ & Hall).
  split; [exact He|]. exact (Hall noFilters_empty samples.fresh).
Defined.

(** With every filter empty, [regexCompile] succeeds. *)
Example regexCompile_noFilters :
  match regexCompile samples.noFilters samples.fresh with
  | Done err s' =>
      err = None /\ forall f, slot f (filters (glob s')) = Some syntax.OpEmptyMatch
  | _ => False
  end.
Proof. vm_compute. split; [reflexivity|]. intros []; reflexivity. Qed.




(** A source filter is case-sensitive. *)
Example source_is_case_sensitive :
  forall o re,
    Source o = "bash" -> Compile (expression FSource o) = inl re ->
    MatchString re "/bin/bash" = true /\ MatchString re "/bin/BASH" = false.
Proof.
  intros o re Ho H. unfold expression in H. cbn [wrapped filterString] in H.
  rewrite Ho in H. vm_compute in H. injection H as <-. split; reflexivity.
Qed.

End FilterClaims.

(** ** The start of the observer *)
Section StartupClaims.
Context {L : RegexpLib}.
Import log.

Lemma StartObserver_returns (P : Event -> Prop) fuel w o :
  yields P (fun r => exists err, r = Returned err) (startup fuel w o) ->
  forall sch s,
    match StartObserver fuel w o sch s with
    | Some z => exists err, pc z = PcReturned err /\ received z = 0%nat
    | None => startup fuel w o s = OutOfFuel
    end.
Proof.
  intros H sch s. specialize (H s). unfold StartObserver.
  destruct (startup fuel w o s) as [r s'|msg s'|]; [|contradiction|reflexivity].
  destruct H as [[err ->] _]. eauto.
Qed.

(** C1, amended.  When one of the seven filters does not compile,
    [StartObserver] never comes to its wait: it does not panic, whatever it
    returns it returns before the wait, and it starts neither the alert
    watcher nor the log watcher.  When the start-up comes as far as the
    compilation (the address is resolved, the configuration is accepted,
    the client is created and healthy), it returns the error of the first
    filter that does not compile; by then it has created the client,
    checked its health and, unless the message destination is disabled,
    started the message watcher ([clientEvents]). *)
Theorem invalid_filter_stops_startup (fuel : nat) (w : World) (o : Options) (f : FilterId) :
  invalid f o ->
  yields (fun e => isFilteringWatcher e = false) (fun r => exists err, r = Returned err)
    (startup fuel w o) /\
  (forall sch s,
      match StartObserver fuel w o sch s with
      | Some z => exists err, pc z = PcReturned err /\ received z = 0%nat
      | None => startup fuel w o s = OutOfFuel
      end) /\
  forall sch s gRPC s1,
    resolveAddress fuel w o s = Done (gRPC, None) s1 ->
    badConfig o = false -> NewClientOk w = true -> DoHealthCheck w = true ->
    exists k err s',
      firstFailure filterOrder o = Some (k, err) /\
      Compile (expression k o) = inr err /\
      StartObserver fuel w o sch s
      = Some {| st := s'; pc := PcReturned (Some err); received := 0 |} /\
      trace s' = (trace s1 ++ clientEvents o gRPC ++ [EvStdout err])%list /\
      Limitchan (glob s') = Limitchan (glob s1).
Proof.
  intros Hf.
  pose proof (startup_invalid_yields fuel w o f Hf) as Hy.
  split; [exact Hy|]. split; [exact (StartObserver_returns _ fuel w o Hy)|].
  intros sch s gRPC s1 Hres Hb Hc Hh.
  destruct (invalid_firstFailure o f Hf) as (k & err & Hff).
  destruct (startup_reaches_compile fuel w o s gRPC s1 k err Hres Hb Hc Hh Hff)
    as (s' & E & Ht & Hl).
  exists k, err, s'. split; [exact Hff|]. split; [now apply firstFailure_invalid|].
  split; [unfold StartObserver; now rewrite E|]. now split.
Qed.

(** C3, amended.  When both destinations are disabled or the filter mode
    is none of the three, [StartObserver] creates no client and starts no
    watcher, does not panic and returns before the wait.  Once the address
    is resolved it prints the usage and returns nil; an error of the
    resolution is returned as it is.  With an explicit address nothing
    happens before the usage is printed, and with an address from the
    environment only the environment is looked up. *)
Theorem bad_configuration_prints_usage (fuel : nat) (w : World) (o : Options) :
  badConfig o = true ->
  yields beforeClient (fun r => exists err, r = Returned err) (startup fuel w o) /\
  (forall sch s gRPC s1,
      resolveAddress fuel w o s = Done (gRPC, None) s1 ->
      StartObserver fuel w o sch s
      = Some {| st := {| glob := glob s1; trace := (trace s1 ++ [EvPrintDefaults])%list |};
                pc := PcReturned None; received := 0 |}) /\
  (forall sch s gRPC e s1,
      resolveAddress fuel w o s = Done (gRPC, Some e) s1 ->
      StartObserver fuel w o sch s
      = Some {| st := s1; pc := PcReturned (Some e); received := 0 |}) /\
  (forall sch s,
      GRPC o <> "" ->
      StartObserver fuel w o sch s
      = Some {| st := {| glob := glob s; trace := (trace s ++ [EvPrintDefaults])%list |};
                pc := PcReturned None; received := 0 |}) /\
  (forall sch s val,
      GRPC o = "" -> LookupEnv w "KUBEARMOR_SERVICE" = Some val ->
      StartObserver fuel w o sch s
      = Some {| st := {| glob := glob s;
                         trace := (trace s ++ [EvLookupEnv "KUBEARMOR_SERVICE";
                                               EvPrintDefaults])%list |};
                pc := PcReturned None; received := 0 |}).
Proof.
  intros Hb. split; [now apply startup_badConfig_yields|]. split; [|split; [|split]];
    [| | |intros sch s val Hg Hv; unfold StartObserver;
          rewrite (startup_badConfig_nil fuel w o s val _
                     (resolveAddress_environment fuel w o s val Hg Hv) Hb);
          cbn [glob trace]; now rewrite <- app_assoc].
  - intros sch s gRPC s1 Hres. unfold StartObserver.
    now rewrite (startup_badConfig_nil fuel w o s gRPC s1 Hres Hb).
  - intros sch s gRPC e s1 Hres. unfold StartObserver.
    now rewrite (startup_resolution_error fuel w o s gRPC e s1 Hres).
  - intros sch s Hg. unfold StartObserver.
    now rewrite (startup_badConfig_nil fuel w o s (GRPC o) s
                   (resolveAddress_explicit fuel w o s Hg) Hb).
Qed.

End StartupClaims.

Section StartupSamples.
#[local] Existing Instance syntax.RE2.
Import log.

Lemma brokenLogType_invalid : invalid FLogType samples.brokenLogType.
Proof. exists "error parsing regexp: missing closing ): `(?i)(`". vm_compute. reflexivity. Qed.

(** C1, as the claim states it, fails: the second filter does not
    compile and the message destination is enabled.  [StartObserver]
    returns the compile error, and by then the message watcher has been
    started. *)
Lemma invalid_filter_message_watcher_started :
  invalid FLogType samples.brokenLogType /\
  match StartObserver 0 samples.world samples.brokenLogType [] samples.fresh with
  | Some z =>
      pc z = PcReturned (Some "error parsing regexp: missing closing ): `(?i)(`") /\
      List.filter isWatcher (trace (st z)) = [EvGo (GoWatchMessages "stdout" false)]
  | None => False
  end.
Proof.
  split; [exact brokenLogType_invalid|]. vm_compute. split; reflexivity.
Qed.

(** An invalid filter is not even looked at when the configuration is
    refused first: [StartObserver] returns nil. *)
Example invalid_filter_behind_bad_configuration :
  invalid FLogType samples.brokenAndDisabled /\
  StartObserver 0 samples.world samples.brokenAndDisabled [] samples.fresh
  = Some {| st := {| glob := initGlobals; trace := [EvPrintDefaults] |};
            pc := PcReturned None; received := 0 |}.
Proof.
  split; [|reflexivity].
  exists "error parsing regexp: missing closing ): `(?i)(`". reflexivity.
Qed.

Lemma invalid_filter_stops_startup_witness :
  invalid FLogType samples.brokenLogType /\
  yields (fun e => isFilteringWatcher e = false) (fun r => exists err, r = Returned err)
    (startup 0 samples.world samples.brokenLogType) /\
  (forall sch s,
      match StartObserver 0 samples.world samples.brokenLogType sch s with
      | Some z => exists err, pc z = PcReturned err /\ received z = 0%nat
      | None => startup 0 samples.world samples.brokenLogType s = OutOfFuel
      end) /\
  forall sch s gRPC s1,
    resolveAddress 0 samples.world samples.brokenLogType s = Done (gRPC, None) s1 ->
    badConfig samples.brokenLogType = false ->
    NewClientOk samples.world = true -> DoHealthCheck samples.world = true ->
    exists k err s',
      firstFailure filterOrder samples.brokenLogType = Some (k, err) /\
      Compile (expression k samples.brokenLogType) = inr err /\
      StartObserver 0 samples.world samples.brokenLogType sch s
      = Some {| st := s'; pc := PcReturned (Some err); received := 0 |} /\
      trace s' = (trace s1 ++ clientEvents samples.brokenLogType gRPC ++ [EvStdout err])%list /\
      Limitchan (glob s') = Limitchan (glob s1).
Proof.
  split; [exact brokenLogType_invalid|].
  exact (invalid_filter_stops_startup 0 samples.world samples.brokenLogType FLogType
           brokenLogType_invalid).
Defined.

(** C3, as the claim states it, fails: both destinations are disabled.
    [StartObserver] prints the usage and returns nil, not an error. *)
Lemma bad_configuration_returns_nil :
  badConfig samples.bothDisabled = true /\
  StartObserver 0 samples.world samples.bothDisabled [] samples.fresh
  = Some {| st := {| glob := initGlobals; trace := [EvPrintDefaults] |};
            pc := PcReturned None; received := 0 |}.
Proof. split; reflexivity. Qed.

(** And without an address the tunnel is set up, its forwarder running,
    before the configuration is looked at. *)
Example bad_configuration_after_port_forward :
  match startup 2 samples.world samples.bothDisabledNoAddress samples.fresh with
  | Done r s' =>
      r = Returned None /\
      List.filter isGo (trace s')
      = [EvGo (GoForwardPorts
                 "/api/v1/namespaces/kube-system/pods/kubearmor-relay-599df6f667-pzjqk/portforward"
                 32844 32767)] /\
      last (trace s') = Some EvPrintDefaults
  | _ => False
  end.
Proof. vm_compute. repeat split. Qed.

Lemma bad_configuration_prints_usage_witness :
  badConfig samples.bothDisabled = true /\
  GRPC samples.bothDisabled <> "" /\
  forall sch s,
    StartObserver 0 samples.world samples.bothDisabled sch s
    = Some {| st := {| glob := glob s; trace := (trace s ++ [EvPrintDefaults])%list |};
              pc := PcReturned None; received := 0 |}.
Proof.
  assert (Hg : GRPC samples.bothDisabled <> "") by discriminate.
  split; [reflexivity|]. split; [exact Hg|].
  exact (fun sch s =>
           proj1 (proj2 (proj2 (proj2
             (bad_configuration_prints_usage 0 samples.world samples.bothDisabled eq_refl))))
             sch s Hg).
Defined.

End StartupSamples.

(** ** The wait and the release *)
Section WaitClaims.
Context {L : RegexpLib}.
Import log.

Lemma needed_bounds o : (1 <= needed o <= 2)%nat.
Proof. unfold needed. destruct (LogFilter o =? "all"); lia. Qed.


(** C9.  [StartObserver] has come to its wait with a quota.
    [StopObserver] sets [unblockSignal] and nothing else; the run of a
    schedule and the run of the same schedule without its stop requests
    end with the controller at the same place, with the same number of
    reports received, the same trace and the same package-level state but
    for that flag; and a schedule in which no watcher reports never ends
    the wait, whatever the number of stop requests in it. *)
Theorem StopObserver_does_not_end_bounded_wait
    (fuel : nat) (w : World) (o : Options) (s s0 : St Globals) (gRPC : string)
    (sch : list Action) :
  Limit o <> 0 ->
  startup fuel w o s = Done (Started gRPC) s0 ->
  StartObserver fuel w o sch s = Some (run w sch (enter o s0)) /\
  (forall s1 : St Globals,
      StopObserver s1
      = Done tt {| glob := set_unblockSignal true (glob s1); trace := trace s1 |}) /\
  sameButFlag (run w sch (enter o s0))
    (run w (List.filter (fun a => negb (isStop a)) sch) (enter o s0)) /\
  (List.filter isReport sch = [] -> unblocked (pc (run w sch (enter o s0))) = false).
Proof.
  intros Hl Hstart.
  destruct (startup_Started fuel w o s gRPC s0 Hstart) as (s1 & Hs).
  split; [unfold StartObserver; now rewrite Hstart|].
  split; [reflexivity|]. split.
  - apply forget_sameButFlag, forget_run. now apply pollFree_enter.
  - intros Hnone.
    pose proof (startWatchers_Limitchan o s1 s0 Hs) as Hc.
    pose proof (gateInv_run o w sch 0 _ (gateInv_enter o s0 Hl Hc)) as Hz.
    rewrite Hnone in Hz. cbn [Nat.add length] in Hz.
    destruct Hz as (buf & Hb & Hle & [(k & Hk & Hr)|[Hu Hr]]).
    + now rewrite Hk.
    + pose proof (needed_bounds o). lia.
Qed.

(** C4.  Releasing twice ends as releasing once does, for every state:
    [closeStopChan] run twice gives what one run gives; after a run that
    has ended, a second run changes nothing and does not panic, and
    [StopChan] is nil; a nil [StopChan] makes the very first run a no-op;
    an open channel is closed and forgotten.  The same holds for the whole
    release path of [StartObserver] as far as the package-level state
    goes: run again, it does not panic and leaves the state as the first
    run left it. *)
Theorem closeStopChan_idempotent (w : World) (s : St Globals) :
  (closeStopChan ;; closeStopChan) s = closeStopChan s /\
  (forall s1,
      closeStopChan s = Done tt s1 ->
      closeStopChan s1 = Done tt s1 /\ StopChan (glob s1) = None) /\
  (StopChan (glob s) = None -> closeStopChan s = Done tt s) /\
  (forall ch,
      StopChan (glob s) = Some ch -> ch ∉ closedChans (glob s) ->
      closeStopChan s
      = Done tt {| glob := set_StopChan None
                             (set_closedChans ({[ch]} ∪ closedChans (glob s)) (glob s));
                   trace := trace s |}) /\
  (forall err s1,
      release w s = Done err s1 ->
      exists s2, release w s1 = Done err s2 /\ glob s2 = glob s1).
Proof.
  destruct s as [[fs sc cc sg ub lc rn] tr].
  unfold release, closeStopChan, close, mbind, M_bind, emit, get, modify, panic,
    mret, M_ret.
  cbn [glob trace StopChan closedChans]. destruct sc as [ch|].
  - cbn [glob trace StopChan closedChans set_closedChans].
    destruct (bool_decide (ch ∈ cc)) eqn:E; cbn [glob trace StopChan set_StopChan].
    + split; [reflexivity|]. split; [discriminate|]. split; [discriminate|].
      split; [|discriminate].
      intros ch' [= <-] Hn. apply bool_decide_eq_true in E. contradiction.
    + split; [reflexivity|]. split; [|split; [discriminate|split]].
      * intros s1 H. apply Done_inj in H as [_ <-]. split; reflexivity.
      * intros ch' [= <-] _. reflexivity.
      * intros err s1 H. apply Done_inj in H as [<- <-].
        cbn [glob trace StopChan set_Running set_StopChan]. eexists. split; reflexivity.
  - split; [reflexivity|]. split; [|split; [reflexivity|split; [discriminate|]]].
    + intros s1 H. apply Done_inj in H as [_ <-]. split; reflexivity.
    + intros err s1 H. apply Done_inj in H as [<- <-].
      cbn [glob trace StopChan set_Running]. eexists. split; reflexivity.
Qed.

End WaitClaims.

Section WaitSamples.
#[local] Existing Instance syntax.RE2.
Import log.

Lemma watching_started :
  startup 0 samples.world samples.bounded samples.fresh
  = Done (Started "localhost:32767") samples.watching.
Proof. reflexivity. Qed.

Lemma watchingUnbounded_started :
  startup 0 samples.world samples.noFilters samples.fresh
  = Done (Started "localhost:32767") samples.watchingUnbounded.
Proof. reflexivity. Qed.

Lemma sample_bounded : Limit samples.bounded <> 0.
Proof. cbn. lia. Qed.


(** Quota 5, mode all: one report is not enough, two are, and then
    [StartObserver] returns what the client answers to its destruction. *)
Example bounded_all_needs_two_reports :
  pc (run samples.world [ActReport; ActCtl; ActCtl; ActStop; ActCtl]
        (enter samples.bounded samples.watching)) = PcRecv 1 /\
  pc (run samples.world [ActReport; ActCtl; ActReport; ActCtl]
        (enter samples.bounded samples.watching)) = PcRelease /\
  pc (run samples.world [ActReport; ActReport; ActCtl; ActCtl; ActCtl]
        (enter samples.bounded samples.watching)) = PcReturned None.
Proof. repeat split. Qed.

(** No quota: reports do nothing, a signal ends the wait, and so does a
    stop request. *)
Example unbounded_waits_for_signal :
  pc (run samples.world [ActReport; ActReport; ActCtl; ActCtl; ActCtl; ActCtl; ActCtl]
        (enter samples.noFilters samples.watchingUnbounded)) = PcLoop /\
  pc (run samples.world [ActCtl; ActSignal; ActCtl; ActCtl; ActCtl]
        (enter samples.noFilters samples.watchingUnbounded)) = PcRelease /\
  pc (run samples.world [ActCtl; ActStop; ActCtl]
        (enter samples.noFilters samples.watchingUnbounded)) = PcRelease.
Proof. repeat split. Qed.

Lemma StopObserver_does_not_end_bounded_wait_witness :
  Limit samples.bounded <> 0 /\
  startup 0 samples.world samples.bounded samples.fresh
  = Done (Started "localhost:32767") samples.watching /\
  StartObserver 0 samples.world samples.bounded [ActStop; ActCtl; ActStop] samples.fresh
  = Some (run samples.world [ActStop; ActCtl; ActStop]
            (enter samples.bounded samples.watching)) /\
  (forall s1 : St Globals,
      StopObserver s1
      = Done tt {| glob := set_unblockSignal true (glob s1); trace := trace s1 |}) /\
  sameButFlag
    (run samples.world [ActStop; ActCtl; ActStop] (enter samples.bounded samples.watching))
    (run samples.world (List.filter (fun a => negb (isStop a)) [ActStop; ActCtl; ActStop])
       (enter samples.bounded samples.watching)) /\
  (List.filter isReport [ActStop; ActCtl; ActStop] = [] ->
   unblocked (pc (run samples.world [ActStop; ActCtl; ActStop]
                    (enter samples.bounded samples.watching))) = false).
Proof.
  split; [exact sample_bounded|]. split; [exact watching_started|].
  exact (StopObserver_does_not_end_bounded_wait 0 samples.world samples.bounded samples.fresh
           samples.watching "localhost:32767" [ActStop; ActCtl; ActStop]
           sample_bounded watching_started).
Defined.

Lemma closeStopChan_idempotent_witness :
  StopChan (glob samples.withStopChan) = Some 7%nat /\
  (7%nat ∉ closedChans (glob samples.withStopChan)) /\
  closeStopChan samples.withStopChan
  = Done tt {| glob := set_StopChan None
                         (set_closedChans ({[7%nat]} ∪ closedChans (glob samples.withStopChan))
                            (glob samples.withStopChan));
               trace := trace samples.withStopChan |}.
Proof.
  assert (H : 7%nat ∉ closedChans (glob samples.withStopChan)) by (cbn; set_solver).
  split; [reflexivity|]. split; [exact H|].
  exact (proj1 (proj2 (proj2 (proj2
           (closeStopChan_idempotent samples.world samples.withStopChan)))) 7%nat eq_refl H).
Defined.

(** A [StopChan] that names a channel closed by somebody else: the release
    panics. *)
Example closeStopChan_closed_channel :
  let s := {| glob := set_closedChans {[7%nat]} (glob samples.withStopChan); trace := [] |} in
  closeStopChan s = Panic "close of closed channel" s.
Proof. reflexivity. Qed.

End WaitSamples.

(** ** The local endpoint and the pod *)
Section AllocationClaims.
Context {G : Type} (w : World).
Import utils.

Lemma getPodName_found (pf : PortForwardOpt) (s : St G) pod rest :
  ListPods w (Namespace pf) (MatchLabels pf) = inl (pod :: rest) ->
  getPodName w pf s
  = Done (withPod pf pod, None) (after s [EvListPods (Namespace pf) (MatchLabels pf)]).
Proof. intros H. unfold getPodName, mbind, M_bind, emit. now rewrite H. Qed.


(** C8.  The allocation returns an error exactly when, after some number
    of failed binds each followed by a successful draw, either a bind
    succeeds and closing the probe listener fails, or a bind fails and the
    random source fails; the port returned with it is -1.  A failed bind
    followed by a successful draw is just the next round with a new
    candidate.  There is no cap: after any number of failed binds, a bind
    that succeeds ends the allocation with that port; and when every bind
    fails and every draw succeeds, the loop is still running after any
    number of rounds.  There is no backoff: the allocation does nothing
    but bind, close, draw and report (no sleep).  And the error is fatal:
    [handlePortForward] returns it without setting up the tunnel. *)
Theorem allocation_fails_only_on_non_bind_errors (pf : PortForwardOpt) (s : St G) :
  (forall p err,
      (exists fuel s', getLocalPort w fuel pf s = Done (p, Some err) s') <->
      (exists j port,
          retries w 0 (LocalPort pf) j port /\ p = -1 /\
          ((Listen w j port = true /\ CloseListener w j = Some err) \/
           (Listen w j port = false /\ RandReader w j = None /\
            err = "unable to generate random integer for port")))) /\
  (forall fuel i port e,
      Listen w i port = false -> RandReader w i = Some e ->
      getLocalPort_loop w (S fuel) pf i port s
      = getLocalPort_loop w fuel pf (S i) (wrap64 (wrap64 (e mod 132) + 32768))
          (after s [EvListen port; EvRandInt 132])) /\
  (forall j port,
      retries w 0 (LocalPort pf) j port ->
      Listen w j port = true -> CloseListener w j = None ->
      exists s', getLocalPort w (S j) pf s = Done (port, None) s') /\
  ((forall i port, Listen w i port = false) ->
   (forall i, RandReader w i <> None) ->
   forall fuel, getLocalPort w fuel pf s = OutOfFuel) /\
  (forall fuel, yields isNetEvent (fun _ => True) (getLocalPort (G:=G) w fuel pf)) /\
  (forall fuel pod rest p err s1,
      ListPods w (Namespace pf) (MatchLabels pf) = inl (pod :: rest) ->
      getLocalPort w fuel (withPod pf pod) (after s [EvListPods (Namespace pf) (MatchLabels pf)])
      = Done (p, Some err) s1 ->
      handlePortForward w fuel pf s = Done (withPod pf pod, Some err) s1).
Proof.
  split; [|split; [|split; [|split; [|split]]]].
  - intros p err. split.
    + intros (fuel & s' & H). now apply (retries_error w pf fuel _ _ _ _ _ _ H).
    + intros (j & port & Hre & -> & Hend).
      destruct (retries_reach w pf _ _ _ _ Hre s) as (evs & Hevs).
      destruct (Hevs 1%nat) as (E & _ & _). exists (j - 0 + 1)%nat.
      unfold getLocalPort. rewrite E.
      destruct Hend as [[Hl Hc]|(Hl & Hr & ->)].
      * rewrite (loop_close_fails w _ _ _ _ _ _ Hl Hc). eauto.
      * rewrite (loop_draw_fails w _ _ _ _ _ Hl); [eauto|].
        unfold rand_Int. now rewrite Hr.
  - intros fuel i port e Hl Hr.
    apply (loop_retry w fuel pf i port (e mod 132) s Hl).
    unfold rand_Int. now rewrite Hr.
  - intros j port Hre Hl Hc.
    destruct (retries_reach w pf _ _ _ _ Hre s) as (evs & Hevs).
    destruct (Hevs 1%nat) as (E & _ & _).
    unfold getLocalPort. replace (S j) with (j - 0 + 1)%nat by lia. rewrite E.
    rewrite (loop_bound w _ _ _ _ _ Hl Hc). eauto.
  - intros Hl Hr fuel. now apply loop_never_gives_up.
  - intros fuel. apply getLocalPort_loop_yields.
  - intros fuel pod rest p err s1 Hpods Hport.
    unfold handlePortForward.
    rewrite (bind_Done _ _ _ _ _ (getPodName_found pf s pod rest Hpods)). cbn beta iota.
    now rewrite (bind_Done _ _ _ _ _ Hport).
Qed.

(** C10.  [InitiatePortForward] asks with the empty namespace, that is in
    all namespaces, and with no pod name set.  [getPodName] asks the
    cluster once, with the namespace and the labels of the options; when
    the list has a first pod, that pod's name and namespace are written
    into the options, whatever the namespace was before; when the list is
    empty it returns the error and leaves the options alone, and so does
    an error of the cluster.  With an empty list [InitiatePortForward]
    returns its initial options, pod name unset, and the error, having
    done nothing else. *)
Theorem getPodName_takes_first_pod (pf : PortForwardOpt) (s : St G) :
  (forall lp rp labels,
      Namespace (initialOpt lp rp labels) = "" /\ PodName (initialOpt lp rp labels) = "") /\
  (forall pod rest,
      ListPods w (Namespace pf) (MatchLabels pf) = inl (pod :: rest) ->
      getPodName w pf s
      = Done (withPod pf pod, None) (after s [EvListPods (Namespace pf) (MatchLabels pf)]) /\
      PodName (withPod pf pod) = GetName pod /\
      Namespace (withPod pf pod) = GetNamespace pod) /\
  (ListPods w (Namespace pf) (MatchLabels pf) = inl [] ->
   getPodName w pf s
   = Done (pf, Some "kubearmor pod not found")
       (after s [EvListPods (Namespace pf) (MatchLabels pf)])) /\
  (forall err,
      ListPods w (Namespace pf) (MatchLabels pf) = inr err ->
      getPodName w pf s
      = Done (pf, Some err) (after s [EvListPods (Namespace pf) (MatchLabels pf)])) /\
  (forall fuel lp rp labels,
      ListPods w "" labels = inl [] ->
      InitiatePortForward w fuel lp rp labels s
      = Done (initialOpt lp rp labels, Some "kubearmor pod not found")
          (after s [EvListPods "" labels])).
Proof.
  split; [intros; split; reflexivity|]. split; [|split; [|split]].
  - intros pod rest H. split; [|split; reflexivity].
    exact (getPodName_found pf s pod rest H).
  - intros H. unfold getPodName, mbind, M_bind, emit. now rewrite H.
  - intros err H. unfold getPodName, mbind, M_bind, emit. now rewrite H.
  - intros fuel lp rp labels H.
    unfold InitiatePortForward, handlePortForward, getPodName, mbind, M_bind, emit.
    cbn [Namespace MatchLabels initialOpt]. now rewrite H.
Qed.

End AllocationClaims.

Section AllocationSamples.
Import utils.


Lemma allocation_fails_only_on_non_bind_errors_witness :
  (forall i port, Listen samples.crowded i port = false) /\
  (forall i, RandReader samples.crowded i <> None) /\
  forall fuel, getLocalPort samples.crowded fuel samples.lease samples.bare = OutOfFuel.
Proof.
  assert (H1 : forall i port, Listen samples.crowded i port = false) by reflexivity.
  assert (H2 : forall i, RandReader samples.crowded i <> None) by discriminate.
  split; [exact H1|]. split; [exact H2|].
  exact (proj1 (proj2 (proj2 (proj2
           (allocation_fails_only_on_non_bind_errors samples.crowded samples.lease
              samples.bare)))) H1 H2).
Defined.

Lemma getPodName_takes_first_pod_witness :
  ListPods samples.world (Namespace samples.lease) (MatchLabels samples.lease)
  = inl [ {| GetName := "kubearmor-relay-599df6f667-pzjqk"; GetNamespace := "kube-system" |} ] /\
  getPodName samples.world samples.lease samples.bare
  = Done (withPod samples.lease
            {| GetName := "kubearmor-relay-599df6f667-pzjqk"; GetNamespace := "kube-system" |},
          None)
      (after samples.bare
         [EvListPods (Namespace samples.lease) (MatchLabels samples.lease)]) /\
  PodName (withPod samples.lease
             {| GetName := "kubearmor-relay-599df6f667-pzjqk"; GetNamespace := "kube-system" |})
  = "kubearmor-relay-599df6f667-pzjqk" /\
  Namespace (withPod samples.lease
               {| GetName := "kubearmor-relay-599df6f667-pzjqk"; GetNamespace := "kube-system" |})
  = "kube-system".
Proof.
  split; [reflexivity|].
  exact (proj1 (proj2 (getPodName_takes_first_pod samples.world samples.lease samples.bare))
           _ [] eq_refl).
Defined.

(** Port 32767 is taken: the allocation moves to the fallback range. *)
Example port_32767_taken :
  match InitiatePortForward samples.world 2 log.port log.port log.matchLabels samples.bare with
  | Done (pf, err) _ =>
      err = None /\ LocalPort pf = 32844 /\ Namespace pf = "kube-system" /\
      PodName pf = "kubearmor-relay-599df6f667-pzjqk"
  | _ => False
  end.
Proof. vm_compute. repeat split. Qed.

End AllocationSamples.

(** * Further properties of the code *)

(** ** What a computation leaves alone *)
Section KeepsFacts.
Context {G X : Type} (f : G -> X).

Lemma keeps_ret {A} (a : A) : keeps (G:=G) f (mret a).
Proof. intros s. reflexivity. Qed.

Lemma keeps_emit e : keeps (G:=G) f (emit e).
Proof. intros s. reflexivity. Qed.

Lemma keeps_diverge {A} : keeps (G:=G) (A:=A) f diverge.
Proof. intros s. exact I. Qed.

Lemma keeps_modify h : (forall g, f (h g) = f g) -> keeps (G:=G) f (modify h).
Proof. intros H s. apply H. Qed.

Lemma keeps_bind {A B} (m : M G A) (k : A -> M G B) :
  keeps f m -> (forall a, keeps f (k a)) -> keeps f (m ≫= k).
Proof.
  intros Hm Hk s. specialize (Hm s). unfold mbind, M_bind.
  destruct (m s) as [a s1|msg s1|]; [|assumption|exact I].
  specialize (Hk a s1). destruct (k a s1) as [b s2|msg s2|]; [| |exact I]; congruence.
Qed.

End KeepsFacts.

Ltac keeps_step :=
  lazymatch goal with
  | |- keeps _ (mbind _ _) => apply keeps_bind; [|intros ?]
  | |- keeps _ (mret _) => apply keeps_ret
  | |- keeps _ (emit _) => apply keeps_emit
  | |- keeps _ diverge => apply keeps_diverge
  | |- keeps _ (modify _) => apply keeps_modify; intros ?; reflexivity
  end.

Ltac keeps_auto := repeat keeps_step.

Section UtilsKeeps.
Context {G X : Type} (f : G -> X) (w : World).

Lemma getLocalPort_loop_keeps fuel pf :
  forall i port, keeps f (utils.getLocalPort_loop (G:=G) w fuel pf i port).
Proof.
  induction fuel as [|fuel IH]; intros i port; cbn [utils.getLocalPort_loop].
  - keeps_auto.
  - keeps_auto. destruct (Listen w i port).
    + keeps_auto. destruct (CloseListener w i); keeps_auto.
    + keeps_step.
      * unfold utils.getRandomInt. keeps_auto. destruct (utils.rand_Int w i _); keeps_auto.
      * destruct a0 as [n [e|]]; [keeps_auto|apply IH].
Qed.

Lemma handlePortForward_keeps fuel pf :
  keeps f (utils.handlePortForward (G:=G) w fuel pf).
Proof.
  unfold utils.handlePortForward. keeps_step.
  - unfold utils.getPodName. keeps_auto.
    destruct (ListPods w _ _) as [Items|err]; [|keeps_auto].
    destruct (Items !! 0%nat); keeps_auto.
  - destruct a as [pf1 [e|]]; [keeps_auto|].
    keeps_step; [apply getLocalPort_loop_keeps|].
    destruct a as [lp [e|]]; [keeps_auto|].
    keeps_step.
    + unfold utils.k8sPortForward.
      destruct (RoundTripperFor w); [keeps_auto|].
      destruct (PortforwardNew w); [keeps_auto|].
      keeps_auto. destruct (ForwardPorts w); keeps_auto.
    + destruct a as [e|]; keeps_auto.
Qed.

Lemma InitiatePortForward_keeps fuel lp rp labels :
  keeps f (utils.InitiatePortForward (G:=G) w fuel lp rp labels).
Proof.
  unfold utils.InitiatePortForward. keeps_step; [apply handlePortForward_keeps|].
  destruct a as [pf [e|]]; keeps_auto.
Qed.

End UtilsKeeps.

Section StartupFacts.
Context {L : RegexpLib}.
Import log.

Lemma resolveAddress_keeps {X} (f : Globals -> X) fuel w o :
  keeps f (resolveAddress fuel w o).
Proof.
  unfold resolveAddress. destruct (negb (GRPC o =? "")); [keeps_auto|].
  keeps_auto. destruct (LookupEnv w _); [keeps_auto|].
  keeps_step; [apply InitiatePortForward_keeps|].
  destruct a0 as [pf [e|]]; keeps_auto.
Qed.

Lemma regexCompile_keeps {X} (f : Globals -> X) o :
  (forall h g, f (set_filters h g) = f g) -> keeps f (regexCompile o).
Proof.
  intros Hf s. destruct (regexCompile_spec o s) as (s' & E & _ & _ & Hg).
  rewrite E, Hg. apply Hf.
Qed.

Lemma startWatchers_keeps {X} (f : Globals -> X) o :
  (forall c g, f (set_Limitchan c g) = f g) -> keeps f (startWatchers o).
Proof.
  intros Hf. unfold startWatchers. keeps_step; [apply keeps_modify; intros g; apply Hf|].
  destruct (negb (LogPath o =? "none")); [|keeps_auto].
  keeps_step.
  - destruct ((LogFilter o =? "all") || (LogFilter o =? "policy")); keeps_auto.
  - destruct ((LogFilter o =? "all") || (LogFilter o =? "system")); keeps_auto.
Qed.

Lemma startup_keeps {X} (f : Globals -> X) fuel w o :
  (forall h g, f (set_filters h g) = f g) ->
  (forall c g, f (set_Limitchan c g) = f g) ->
  keeps f (startup fuel w o).
Proof.
  intros Hf Hl. unfold startup. keeps_step; [apply resolveAddress_keeps|].
  destruct a as [gRPC [e|]]; [keeps_auto|].
  destruct ((MsgPath o =? "none") && (LogPath o =? "none")); [keeps_auto|].
  destruct (negb (LogFilter o =? "all") && negb (LogFilter o =? "policy")
            && negb (LogFilter o =? "system")); [keeps_auto|].
  keeps_auto.
  destruct (negb (NewClientOk w)); [keeps_auto|].
  keeps_auto.
  destruct (negb (DoHealthCheck w)); [keeps_auto|].
  keeps_auto.
  { destruct (negb (MsgPath o =? "none")); keeps_auto. }
  unfold orReturn. keeps_step.
  - keeps_step; [now apply regexCompile_keeps|]. match goal with |- keeps _ (match ?a with _ => _ end) => destruct a as [e|] | |- yields _ _ (match ?a with _ => _ end) => destruct a as [e|] end; keeps_auto.
  - match goal with |- keeps _ (match ?a with _ => _ end) => destruct a as [e|] | |- yields _ _ (match ?a with _ => _ end) => destruct a as [e|] end; [keeps_auto|]. keeps_step; [now apply startWatchers_keeps|keeps_auto].
Qed.

(** X1.  The start-up of [StartObserver] leaves the state of the shutdown
    alone: whenever it ends, with a return or in a panic, [StopChan], the
    closed channels, [sigChan], [unblockSignal] and [Running] are what
    they were when it began; of the package-level variables it writes the
    seven filter variables and [Limitchan] only.  The resolution of the
    address, with the port forwarder of package utils, changes no
    package-level variable at all.  (The client of logClient.go enters
    with its answers only.) *)
Theorem startup_leaves_shutdown_state_alone (fuel : nat) (w : World) (o : Options) :
  keeps shutdownState (startup fuel w o) /\
  keeps (fun g => g) (resolveAddress fuel w o) /\
  (forall (X : Type) (f : Globals -> X),
      (forall h g, f (set_filters h g) = f g) ->
      (forall c g, f (set_Limitchan c g) = f g) ->
      keeps f (startup fuel w o)).
Proof.
  split; [apply startup_keeps; reflexivity|].
  split; [apply resolveAddress_keeps|].
  intros X f Hf Hl. now apply startup_keeps.
Qed.

End StartupFacts.

(** ** The start-up, case by case *)
Section StartupCases.
Context {L : RegexpLib}.
Import log.

Lemma startWatchers_run o s :
  startWatchers o s
  = Done tt {| glob := set_Limitchan (Some []) (glob s);
               trace := (trace s ++ filteringEvents o)%list |}.
Proof.
  unfold startWatchers, filteringEvents, mbind, M_bind, modify, emit, mret, M_ret.
  destruct (LogPath o =? "none"), ((LogFilter o =? "all") || (LogFilter o =? "policy")),
    ((LogFilter o =? "all") || (LogFilter o =? "system"));
    cbn [negb glob trace app]; rewrite <- ?app_assoc, ?app_nil_r; reflexivity.
Qed.

Lemma startup_launch fuel w o s gRPC s1 :
  resolveAddress fuel w o s = Done (gRPC, None) s1 ->
  badConfig o = false -> NewClientOk w = true -> DoHealthCheck w = true ->
  firstFailure filterOrder o = None ->
  exists s2,
    regexCompile o (utils.after s1 (clientEvents o gRPC)) = Done None s2 /\
    startup fuel w o s
    = Done (Started gRPC)
        {| glob := set_Limitchan (Some []) (glob s2);
           trace := (trace s1 ++ clientEvents o gRPC ++ filteringEvents o)%list |}.
Proof.
  intros Hres Hb Hc Hh Hff. apply badConfig_false in Hb as [Hb1 Hb2].
  destruct (regexCompile_spec o (utils.after s1 (clientEvents o gRPC)))
    as (s2 & E & Ht & _ & _).
  rewrite Hff in E. cbn [fmap option_fmap option_map] in E.
  exists s2. split; [exact E|].
  unfold startup. rewrite (bind_Done _ _ _ _ _ Hres). cbn beta iota.
  rewrite Hb1, Hb2, Hc, Hh. cbn [negb].
  unfold utils.after, clientEvents in E, Ht. unfold clientEvents.
  unfold orReturn, mbind, M_bind, emit, mret, M_ret. cbn [glob trace].
  destruct (MsgPath o =? "none"); cbn [negb glob trace app] in *;
    rewrite <- ?app_assoc; cbn [app]; rewrite ?app_nil_r in E;
    rewrite E, startWatchers_run; cbn [glob trace]; rewrite Ht; cbn [trace];
    rewrite <- ?app_assoc; reflexivity.
Qed.

Lemma watchers_launched o gRPC :
  badConfig o = false ->
  List.filter isGo (clientEvents o gRPC ++ filteringEvents o) = watchersOf o /\
  length (List.filter isFilteringWatcher (clientEvents o gRPC ++ filteringEvents o))
  = (if LogPath o =? "none" then 0%nat else needed o).
Proof.
  intros Hb. apply badConfig_false in Hb as [Hb1 Hb2].
  unfold clientEvents, filteringEvents, watchersOf, needed.
  destruct (MsgPath o =? "none"), (LogPath o =? "none"),
    (String.eqb_spec (LogFilter o) "all"), (String.eqb_spec (LogFilter o) "policy"),
    (String.eqb_spec (LogFilter o) "system");
    try discriminate; try congruence; split; reflexivity.
Qed.

(** X2.  When the address is resolved, the configuration is accepted, the
    client is created and healthy and every filter compiles, the start-up
    goes on to the wait.  By then it has created the client, checked its
    health and started, in this order, the message watcher (unless the
    message destination is none), the alert watcher (modes all and policy)
    and the log watcher (modes all and system), the latter two only when
    the log destination is not none.  With a log destination the number
    of alert and log watchers is the number of reports that the wait of a
    bounded session takes; without one it is 0.  Every filter variable
    holds its matcher, the completion gate is empty, and the state of the
    shutdown is as the resolution left it. *)
Theorem startup_launches_the_watchers
    (fuel : nat) (w : World) (o : Options) (s s1 : St Globals) (gRPC : string) :
  resolveAddress fuel w o s = Done (gRPC, None) s1 ->
  badConfig o = false -> NewClientOk w = true -> DoHealthCheck w = true ->
  (forall f, compiles f o) ->
  exists s',
    startup fuel w o s = Done (Started gRPC) s' /\
    trace s' = (trace s1 ++ clientEvents o gRPC ++ filteringEvents o)%list /\
    List.filter isGo (clientEvents o gRPC ++ filteringEvents o) = watchersOf o /\
    length (List.filter isFilteringWatcher (clientEvents o gRPC ++ filteringEvents o))
    = (if LogPath o =? "none" then 0%nat else needed o) /\
    (forall f, slot f (filters (glob s')) = compiled f o) /\
    Limitchan (glob s') = Some [] /\
    shutdownState (glob s') = shutdownState (glob s1).
Proof.
  intros Hres Hb Hc Hh Hall.
  pose proof (firstFailure_none o Hall) as Hff.
  destruct (startup_launch fuel w o s gRPC s1 Hres Hb Hc Hh Hff) as (s2 & E & Hs).
  destruct (watchers_launched o gRPC Hb) as [Hw Hn].
  eexists. split; [exact Hs|]. cbn [glob trace].
  split; [reflexivity|]. split; [exact Hw|]. split; [exact Hn|].
  split; [intros f; exact (regexCompile_success o _ _ E f)|]. split; [reflexivity|].
  pose proof (regexCompile_keeps shutdownState o (fun _ _ => eq_refl)
                (utils.after s1 (clientEvents o gRPC))) as Hk.
  rewrite E in Hk. exact Hk.
Qed.

(** X3.  When the configuration is accepted and the client cannot be
    created, or the server does not answer the health check,
    [StartObserver] returns the error of that step whatever the filters
    are: no filter is compiled (the package-level variables are as the
    resolution left them), no watcher is started, and the client is not
    destroyed.  The health check is only made on a client that exists. *)
Theorem client_failure_stops_startup
    (fuel : nat) (w : World) (o : Options) (s s1 : St Globals) (gRPC : string)
    (sch : list Action) :
  resolveAddress fuel w o s = Done (gRPC, None) s1 ->
  badConfig o = false ->
  NewClientOk w = false \/ DoHealthCheck w = false ->
  exists err evs,
    StartObserver fuel w o sch s
    = Some {| st := utils.after s1 evs; pc := PcReturned (Some err); received := 0 |} /\
    (NewClientOk w = false ->
     err = "unable to create log client" /\
     evs = [EvNewClient gRPC (MsgPath o) (LogPath o) (LogFilter o) (Limit o)]) /\
    (NewClientOk w = true ->
     err = "failed to check the liveness of the gRPC server" /\
     evs = [EvNewClient gRPC (MsgPath o) (LogPath o) (LogFilter o) (Limit o);
            EvStderr ("Created a gRPC client (" ++ gRPC ++ ")" ++ LF);
            EvHealthCheck]) /\
    List.filter isGo evs = [] /\
    EvDestroyClient ∉ evs.
Proof.
  intros Hres Hb Hfail. apply badConfig_false in Hb as [Hb1 Hb2].
  unfold StartObserver, startup. rewrite (bind_Done _ _ _ _ _ Hres). cbn beta iota.
  rewrite Hb1, Hb2. unfold mbind, M_bind, emit, mret, M_ret. cbn [glob trace].
  destruct (NewClientOk w) eqn:Hc; cbn [negb].
  - destruct Hfail as [Hfail|Hh]; [discriminate|]. rewrite Hh. cbn [negb].
    eexists _, [_; _; _]. unfold utils.after. cbn [glob trace].
    rewrite <- !app_assoc. cbn [app].
    split; [reflexivity|]. split; [discriminate|]. split; [auto|].
    split; [reflexivity|]. rewrite !elem_of_cons, elem_of_nil.
    intros [H|[H|[H|[]]]]; discriminate.
  - eexists _, [_]. unfold utils.after. cbn [glob trace].
    split; [reflexivity|]. split; [auto|]. split; [discriminate|].
    split; [reflexivity|]. rewrite !elem_of_cons, elem_of_nil.
    intros [H|[]]; discriminate.
Qed.

End StartupCases.

Section StartupCaseSamples.
#[local] Existing Instance syntax.RE2.
Import log.

Lemma bounded_compiles : forall f, compiles f samples.bounded.
Proof. intros []; exists syntax.OpEmptyMatch; reflexivity. Qed.

Lemma startup_launches_the_watchers_witness :
  resolveAddress 0 samples.world samples.bounded samples.fresh
  = Done ("localhost:32767", None) samples.fresh /\
  badConfig samples.bounded = false /\
  (forall f, compiles f samples.bounded) /\
  exists s',
    startup 0 samples.world samples.bounded samples.fresh
    = Done (Started "localhost:32767") s' /\
    List.filter isGo (trace s')
    = [EvGo (GoWatchAlerts samples.bounded); EvGo (GoWatchLogs samples.bounded)] /\
    Limitchan (glob s') = Some [].
Proof.
  split; [reflexivity|]. split; [reflexivity|]. split; [exact bounded_compiles|].
  destruct (startup_launches_the_watchers 0 samples.world samples.bounded samples.fresh
              samples.fresh "localhost:32767" eq_refl eq_refl eq_refl eq_refl
              bounded_compiles) as (s' & E & Ht & Hw & _ & _ & Hl & _).
  exists s'. split; [exact E|]. split; [|exact Hl].
  rewrite Ht. exact Hw.
Defined.

Lemma client_failure_stops_startup_witness :
  resolveAddress 0 samples.unhealthy samples.brokenLogType samples.fresh
  = Done ("localhost:32767", None) samples.fresh /\
  badConfig samples.brokenLogType = false /\
  DoHealthCheck samples.unhealthy = false /\
  exists s',
    StartObserver 0 samples.unhealthy samples.brokenLogType [ActCtl] samples.fresh
    = Some {| st := s';
              pc := PcReturned (Some "failed to check the liveness of the gRPC server");
              received := 0 |}.
Proof.
  split; [reflexivity|]. split; [reflexivity|]. split; [reflexivity|].
  destruct (client_failure_stops_startup 0 samples.unhealthy samples.brokenLogType
              samples.fresh samples.fresh "localhost:32767" [ActCtl] eq_refl eq_refl
              (or_intror eq_refl)) as (err & evs & E & _ & Herr & _).
  destruct (Herr eq_refl) as [-> _].
  eexists. exact E.
Defined.

End StartupCaseSamples.

(** ** The port forwarder, from the pod to the tunnel *)
Section Tunnel.
Context {G : Type} (w : World).
Import utils.

(** A successful allocation, round by round. *)
Lemma loop_success pf fuel :
  forall i port (s : St G) p s',
    getLocalPort_loop w fuel pf i port s = Done (p, None) s' ->
    exists j evs,
      (i <= j < i + fuel)%nat /\
      retries w i port j p /\ Listen w j p = true /\ CloseListener w j = None /\
      s' = after s (evs ++ [EvListen p; EvCloseListener;
                            EvStderr ("local port to be used for port forwarding "
                                      ++ PodName pf ++ ": " ++ FormatInt p ++ " " ++ LF)]) /\
      length evs = (2 * (j - i))%nat /\
      length (List.filter isListen evs) = (j - i)%nat /\
      length (List.filter isDraw evs) = (j - i)%nat /\
      List.filter isClose evs = [].
Proof.
  induction fuel as [|fuel IH]; intros i port s p s' H; [discriminate|].
  destruct (loop_cases w i port) as [[Hl Hc]|[(err & Hl & Hc)|[[Hl Hr]|(n & Hl & Hr)]]].
  - rewrite (loop_bound w _ _ _ _ _ Hl Hc) in H. apply Done_inj in H as [H <-].
    injection H as <-. exists i, []. rewrite Nat.sub_diag.
    split; [lia|]. split; [constructor|]. repeat (split; [assumption || reflexivity|]).
    reflexivity.
  - rewrite (loop_close_fails w _ _ _ _ _ _ Hl Hc) in H. apply Done_inj in H as [H _].
    discriminate.
  - rewrite (loop_draw_fails w _ _ _ _ _ Hl Hr) in H. apply Done_inj in H as [H _].
    discriminate.
  - rewrite (loop_retry w _ _ _ _ _ _ Hl Hr) in H.
    apply IH in H as (j & evs & Hj & Hre & Hlj & Hcj & -> & Hlen & Hnl & Hnd & Hnc).
    exists j, ([EvListen port; EvRandInt 132] ++ evs)%list.
    split; [lia|]. split; [econstructor; eassumption|]. split; [assumption|].
    split; [assumption|]. split; [now rewrite after_after, <- app_assoc|].
    cbn [app List.filter isListen isDraw isClose length].
    rewrite Hlen, Hnl, Hnd. repeat split; try lia. exact Hnc.
Qed.

Lemma retries_first i port j port' :
  retries w i port j port' -> Listen w i port = true -> j = i /\ port' = port.
Proof. intros [|] Hl; [now split|congruence]. Qed.

Lemma netEvent_not_go e : isNetEvent e -> log.isGo e = false.
Proof. destruct e; simpl; tauto. Qed.

Lemma netEvents_not_go evs : Forall isNetEvent evs -> List.filter log.isGo evs = [].
Proof.
  induction 1 as [|e evs He _ IH]; [reflexivity|].
  cbn [List.filter]. now rewrite (netEvent_not_go e He).
Qed.

(** What [getLocalPort] has added when it ends. *)
Lemma getLocalPort_events fuel pf (s : St G) r s' :
  getLocalPort w fuel pf s = Done r s' ->
  exists evs, s' = after s evs /\ Forall isNetEvent evs.
Proof.
  intros H. destruct (loop_probes w pf fuel _ _ _ _ _ H) as (evs & rest & Hs & _).
  exists evs. split; [exact Hs|].
  pose proof (getLocalPort_loop_yields (G:=G) w fuel pf 0%nat (LocalPort pf) s) as Hy.
  unfold getLocalPort in H. rewrite H in Hy. destruct Hy as (_ & evs' & Ht & Hf).
  subst s'. unfold after in Ht. cbn [trace] in Ht. apply app_inv_head in Ht. now subst.
Qed.

Lemma k8sPortForward_cases pf (s : St G) :
  (exists e, k8sPortForward w pf s = Done (Some e) s /\
             (RoundTripperFor w <> None \/ PortforwardNew w <> None)) \/
  (RoundTripperFor w = None /\ PortforwardNew w = None /\
   k8sPortForward w pf s
   = Done ((fun e => "could not create port forward " ++ e) <$> ForwardPorts w)
       (after s [forwarder pf])).
Proof.
  unfold k8sPortForward, forwarder, tunnelPath, mbind, M_bind, emit, mret, M_ret.
  destruct (RoundTripperFor w) as [e|]; [left; eexists; split; [reflexivity|now left]|].
  destruct (PortforwardNew w) as [e|]; [left; eexists; split; [reflexivity|now right]|].
  right. split; [reflexivity|]. split; [reflexivity|].
  destruct (ForwardPorts w); reflexivity.
Qed.

(** The way of [handlePortForward] once the pod is found and the port is
    allocated. *)
Lemma handlePortForward_tunnel fuel pf (s : St G) pod rest p s1 :
  ListPods w (Namespace pf) (MatchLabels pf) = inl (pod :: rest) ->
  getLocalPort w fuel (withPod pf pod) (after s [EvListPods (Namespace pf) (MatchLabels pf)])
  = Done (p, None) s1 ->
  handlePortForward w fuel pf s
  = (err ← k8sPortForward w (withLocalPort (withPod pf pod) p);
     match err with
     | Some e => mret (withLocalPort (withPod pf pod) p,
                       Some (LF ++ "could not do kubearmor portforward, error=" ++ e))
     | None => mret (withLocalPort (withPod pf pod) p, None)
     end) s1.
Proof.
  intros Hpods Hport. unfold handlePortForward.
  rewrite (bind_Done _ _ _ _ _ (getPodName_found w pf s pod rest Hpods)). cbn beta iota.
  now rewrite (bind_Done _ _ _ _ _ Hport).
Qed.

Lemma handlePortForward_inv fuel pf (s : St G) pf' err s' :
  handlePortForward w fuel pf s = Done (pf', err) s' ->
  (* the pod was not found *)
  (pf' = pf /\ s' = after s [EvListPods (Namespace pf) (MatchLabels pf)] /\
   ((exists e, ListPods w (Namespace pf) (MatchLabels pf) = inr e /\ err = Some e) \/
    (ListPods w (Namespace pf) (MatchLabels pf) = inl [] /\
     err = Some "kubearmor pod not found"))) \/
  exists pod rest evs,
    ListPods w (Namespace pf) (MatchLabels pf) = inl (pod :: rest) /\
    Forall isNetEvent evs /\
    (* the allocation failed *)
    ((pf' = withPod pf pod /\ err <> None /\
      s' = after s (EvListPods (Namespace pf) (MatchLabels pf) :: evs)) \/
     exists p,
       pf' = withLocalPort (withPod pf pod) p /\
       ((Listen w 0 (LocalPort pf) = true /\ p = LocalPort pf) \/
        (Listen w 0 (LocalPort pf) = false /\ inFallbackRange p)) /\
       (* the tunnel could not be prepared *)
       ((s' = after s (EvListPods (Namespace pf) (MatchLabels pf) :: evs) /\
         (RoundTripperFor w <> None \/ PortforwardNew w <> None) /\
         exists e, err = Some (LF ++ "could not do kubearmor portforward, error=" ++ e)) \/
        (* the forwarder was started *)
        (s' = after s (EvListPods (Namespace pf) (MatchLabels pf) :: evs ++ [forwarder pf']) /\
         RoundTripperFor w = None /\ PortforwardNew w = None /\
         err = (fun e => LF ++ "could not do kubearmor portforward, error="
                         ++ "could not create port forward " ++ e) <$> ForwardPorts w))).
Proof.
  intros H.
  destruct (ListPods w (Namespace pf) (MatchLabels pf)) as [[|pod rest]|e] eqn:Hpods.
  - left. unfold handlePortForward, getPodName, mbind, M_bind, emit in H.
    rewrite Hpods in H. cbn in H. apply Done_inj in H as [[= <- <-] <-].
    split; [reflexivity|]. split; [reflexivity|]. right. now split.
  - right. exists pod, rest.
    destruct (getLocalPort w fuel (withPod pf pod)
                (after s [EvListPods (Namespace pf) (MatchLabels pf)]))
      as [[p [e|]] s1|msg s1|] eqn:Hport.
    + destruct (getLocalPort_events _ _ _ _ _ Hport) as (evs & -> & Hevs).
      exists evs. split; [reflexivity|]. split; [assumption|]. left.
      unfold handlePortForward in H.
      rewrite (bind_Done _ _ _ _ _ (getPodName_found w pf s pod rest Hpods)) in H.
      cbn beta iota in H. rewrite (bind_Done _ _ _ _ _ Hport) in H. cbn beta iota in H.
      apply Done_inj in H as [[= <- <-] <-].
      split; [reflexivity|]. split; [discriminate|]. now rewrite after_after.
    + destruct (getLocalPort_events _ _ _ _ _ Hport) as (evs & -> & Hevs).
      exists evs. split; [reflexivity|]. split; [assumption|]. right. exists p.
      rewrite (handlePortForward_tunnel fuel pf s pod rest p _ Hpods Hport) in H.
      destruct (loop_probes w _ fuel _ _ _ _ _ Hport) as (_ & _ & _ & _ & _ & Hp).
      specialize (Hp eq_refl). cbn [fst LocalPort withPod] in Hp.
      unfold mbind, M_bind in H.
      destruct (k8sPortForward_cases (withLocalPort (withPod pf pod) p)
                  (after (after s [EvListPods (Namespace pf) (MatchLabels pf)]) evs))
        as [(e & E & Hw)|(Hrt & Hpn & E)]; rewrite E in H.
      * apply Done_inj in H as [[= <- <-] <-].
        split; [reflexivity|]. split; [exact Hp|]. left.
        split; [now rewrite after_after|]. split; [exact Hw|]. eauto.
      * destruct (ForwardPorts w) as [e|]; cbn [fmap option_fmap option_map] in H |- *;
          apply Done_inj in H as [[= <- <-] <-];
          (split; [reflexivity|]); (split; [exact Hp|]); right;
          (split; [now rewrite !after_after|]); auto.
    + unfold handlePortForward in H.
      rewrite (bind_Done _ _ _ _ _ (getPodName_found w pf s pod rest Hpods)) in H.
      cbn beta iota in H. unfold mbind, M_bind in H. rewrite Hport in H. discriminate.
    + unfold handlePortForward in H.
      rewrite (bind_Done _ _ _ _ _ (getPodName_found w pf s pod rest Hpods)) in H.
      cbn beta iota in H. unfold mbind, M_bind in H. rewrite Hport in H. discriminate.
  - left. unfold handlePortForward, getPodName, mbind, M_bind, emit in H.
    rewrite Hpods in H. cbn in H. apply Done_inj in H as [[= <- <-] <-].
    split; [reflexivity|]. split; [reflexivity|]. left. eauto.
Qed.

(** X4.  Every way in which [InitiatePortForward] ends.  It asks the
    cluster once, in all namespaces.  When the cluster fails or lists no
    pod, that error is returned unchanged, the options are the initial
    ones and nothing else has happened.  When the allocation of the local
    port fails, the options name the first pod, and no forwarder has been
    started.  When the tunnel cannot be prepared, the error is wrapped
    into the message of [handlePortForward], the options hold the pod and
    the allocated port, and no forwarder has been started.  Otherwise the
    forwarder has been started, as the last thing, for the first pod of
    the list with the allocated local port and the given remote port, and
    the error is nil unless [ForwardPorts] has failed.  The allocated port
    is the given local port when that one could be bound, and a port of
    the fallback range otherwise.  The remote port and the labels are
    never changed. *)
Theorem InitiatePortForward_outcomes
    (fuel : nat) (lp rp : Z) (labels : gmap string string) (s : St G)
    (pf' : PortForwardOpt) (err : option error) (s' : St G) :
  InitiatePortForward w fuel lp rp labels s = Done (pf', err) s' ->
  RemotePort pf' = rp /\ MatchLabels pf' = labels /\
  ((pf' = initialOpt lp rp labels /\ s' = after s [EvListPods "" labels] /\
    ((exists e, ListPods w "" labels = inr e /\ err = Some e) \/
     (ListPods w "" labels = inl [] /\ err = Some "kubearmor pod not found"))) \/
   exists pod rest evs,
     ListPods w "" labels = inl (pod :: rest) /\
     Forall isNetEvent evs /\
     Namespace pf' = GetNamespace pod /\ PodName pf' = GetName pod /\
     ((LocalPort pf' = lp /\ err <> None /\ s' = after s (EvListPods "" labels :: evs)) \/
      (((Listen w 0 lp = true /\ LocalPort pf' = lp) \/
        (Listen w 0 lp = false /\ inFallbackRange (LocalPort pf'))) /\
       ((s' = after s (EvListPods "" labels :: evs) /\
         (RoundTripperFor w <> None \/ PortforwardNew w <> None) /\
         exists e, err = Some (LF ++ "could not do kubearmor portforward, error=" ++ e)) \/
        (s' = after s (EvListPods "" labels :: evs ++ [forwarder pf']) /\
         List.filter log.isGo (EvListPods "" labels :: evs ++ [forwarder pf'])
         = [EvGo (GoForwardPorts
                    ("/api/v1/namespaces/" ++ GetNamespace pod ++ "/pods/" ++ GetName pod
                     ++ "/portforward") (LocalPort pf') rp)] /\
         RoundTripperFor w = None /\ PortforwardNew w = None /\
         err = (fun e => LF ++ "could not do kubearmor portforward, error="
                         ++ "could not create port forward " ++ e) <$> ForwardPorts w))))).
Proof.
  intros H. unfold InitiatePortForward in H.
  destruct (handlePortForward w fuel (initialOpt lp rp labels) s)
    as [[pf1 err1] s1|msg s1|] eqn:E; unfold mbind, M_bind in H; rewrite E in H;
    [|discriminate|discriminate].
  assert (H' : pf1 = pf' /\ err1 = err /\ s1 = s').
  { destruct err1; apply Done_inj in H as [[= <- <-] <-]; auto. }
  destruct H' as (-> & -> & ->). clear H.
  apply handlePortForward_inv in E. cbn [Namespace MatchLabels LocalPort initialOpt] in E.
  destruct E as [(-> & -> & Herr)|(pod & rest & evs & Hpods & Hevs & Hcase)].
  - split; [reflexivity|]. split; [reflexivity|]. left. auto.
  - destruct Hcase as [(-> & Herr & ->)|(p & -> & Hp & Hcase)].
    + split; [reflexivity|]. split; [reflexivity|]. right.
      exists pod, rest, evs. repeat (split; [assumption || reflexivity|]). left. auto.
    + split; [reflexivity|]. split; [reflexivity|]. right.
      exists pod, rest, evs. repeat (split; [assumption || reflexivity|]). right.
      split; [exact Hp|].
      destruct Hcase as [(-> & Hw & Herr)|(-> & Hrt & Hpn & ->)]; [left; auto|right].
      split; [reflexivity|]. split; [|auto].
      cbn [List.filter log.isGo]. rewrite List.filter_app, (netEvents_not_go evs Hevs).
      reflexivity.
Qed.

(** X5.  A successful allocation, read off the trace.  The port returned
    is the last port probed; its bind has succeeded and its listener has
    been closed just before the port is reported, so the port is free
    again, not held, when the allocation returns.  Every probe before it
    has failed and was followed by exactly one draw; nothing is closed
    before the last round, and the allocation has ended within the rounds
    it was given.  When the given port can be bound it is returned at
    once, without a draw. *)
Theorem allocation_returns_the_last_probe
    (fuel : nat) (pf : PortForwardOpt) (s : St G) (p : Z) (s' : St G) :
  getLocalPort w fuel pf s = Done (p, None) s' ->
  exists j evs,
    (j < fuel)%nat /\
    retries w 0 (LocalPort pf) j p /\ Listen w j p = true /\ CloseListener w j = None /\
    s' = after s (evs ++ [EvListen p; EvCloseListener;
                          EvStderr ("local port to be used for port forwarding "
                                    ++ PodName pf ++ ": " ++ FormatInt p ++ " " ++ LF)]) /\
    length evs = (2 * j)%nat /\
    length (List.filter isListen evs) = j /\
    length (List.filter isDraw evs) = j /\
    List.filter isClose evs = [] /\
    (Listen w 0 (LocalPort pf) = true -> j = 0%nat /\ p = LocalPort pf /\ evs = []).
Proof.
  intros H. apply loop_success in H
    as (j & evs & Hj & Hre & Hl & Hc & Hs & Hlen & Hnl & Hnd & Hnc).
  rewrite Nat.sub_0_r in Hlen, Hnl, Hnd.
  exists j, evs. repeat (split; [assumption || lia|]).
  intros Hfree. destruct (retries_first _ _ _ _ Hre Hfree) as [-> ->].
  split; [reflexivity|]. split; [reflexivity|]. now destruct evs.
Qed.

End Tunnel.

Section TunnelSamples.
Import utils.

Lemma InitiatePortForward_outcomes_witness :
  InitiatePortForward samples.world 2 log.port log.port log.matchLabels samples.bare
  = Done ({| LocalPort := 32844; RemotePort := 32767; MatchLabels := log.matchLabels;
             Namespace := "kube-system"; PodName := "kubearmor-relay-599df6f667-pzjqk" |},
          None)
      (after samples.bare
         [EvListPods "" log.matchLabels; EvListen 32767; EvRandInt 132; EvListen 32844;
          EvCloseListener;
          EvStderr ("local port to be used for port forwarding "
                    ++ "kubearmor-relay-599df6f667-pzjqk: 32844 " ++ LF);
          EvGo (GoForwardPorts
                  "/api/v1/namespaces/kube-system/pods/kubearmor-relay-599df6f667-pzjqk/portforward"
                  32844 32767)]) /\
  RemotePort {| LocalPort := 32844; RemotePort := 32767; MatchLabels := log.matchLabels;
                Namespace := "kube-system";
                PodName := "kubearmor-relay-599df6f667-pzjqk" |} = log.port.
Proof.
  assert (H : InitiatePortForward samples.world 2 log.port log.port log.matchLabels
                samples.bare
              = Done ({| LocalPort := 32844; RemotePort := 32767;
                         MatchLabels := log.matchLabels; Namespace := "kube-system";
                         PodName := "kubearmor-relay-599df6f667-pzjqk" |}, None)
                  (after samples.bare
                     [EvListPods "" log.matchLabels; EvListen 32767; EvRandInt 132;
                      EvListen 32844; EvCloseListener;
                      EvStderr ("local port to be used for port forwarding "
                                ++ "kubearmor-relay-599df6f667-pzjqk: 32844 " ++ LF);
                      EvGo (GoForwardPorts
                              "/api/v1/namespaces/kube-system/pods/kubearmor-relay-599df6f667-pzjqk/portforward"
                              32844 32767)]))
    by reflexivity.
  split; [exact H|].
  exact (proj1 (InitiatePortForward_outcomes samples.world 2 log.port log.port
                  log.matchLabels samples.bare _ _ _ H)).
Defined.

Lemma allocation_returns_the_last_probe_witness :
  getLocalPort samples.world 2 samples.lease samples.bare
  = Done (32844, None)
      (after samples.bare
         [EvListen 32767; EvRandInt 132; EvListen 32844; EvCloseListener;
          EvStderr ("local port to be used for port forwarding : 32844 " ++ LF)]) /\
  exists j evs,
    (j < 2)%nat /\
    retries samples.world 0 (LocalPort samples.lease) j 32844 /\
    Listen samples.world j 32844 = true /\
    length evs = (2 * j)%nat /\
    length (List.filter isDraw evs) = j.
Proof.
  assert (H : getLocalPort samples.world 2 samples.lease samples.bare
              = Done (32844, None)
                  (after samples.bare
                     [EvListen 32767; EvRandInt 132; EvListen 32844; EvCloseListener;
                      EvStderr ("local port to be used for port forwarding : 32844 " ++ LF)]))
    by (vm_compute; reflexivity).
  split; [exact H|].
  destruct (allocation_returns_the_last_probe samples.world 2 samples.lease samples.bare
              32844 _ H) as (j & evs & Hj & Hre & Hl & _ & _ & Hlen & _ & Hnd & _).
  exists j, evs. auto.
Defined.

End TunnelSamples.


(** ** The address of the service *)
Section Address.
Context {L : RegexpLib}.
Import log.

Lemma InitiatePortForward_handle {G} w fuel lp rp labels (s : St G) r s' :
  utils.InitiatePortForward w fuel lp rp labels s = Done r s' ->
  utils.handlePortForward w fuel (utils.initialOpt lp rp labels) s = Done r s'.
Proof.
  unfold utils.InitiatePortForward, mbind, M_bind.
  destruct (utils.handlePortForward w fuel _ s) as [[pf [e|]] s1|msg s1|];
    try discriminate; intros H; apply Done_inj in H as [<- <-]; reflexivity.
Qed.

Lemma resolveAddress_tunnel fuel w o s gRPC err s1 :
  GRPC o = "" -> LookupEnv w "KUBEARMOR_SERVICE" = None ->
  resolveAddress fuel w o s = Done (gRPC, err) s1 ->
  exists pf,
    utils.handlePortForward w fuel (utils.initialOpt port port matchLabels)
      (utils.after s [EvLookupEnv "KUBEARMOR_SERVICE"])
    = Done (pf, err) s1 /\
    gRPC = match err with
           | Some _ => ""
           | None => "localhost:" ++ FormatInt (utils.LocalPort pf)
           end.
Proof.
  intros Hg Hv. unfold resolveAddress. rewrite Hg. cbn [String.eqb negb].
  unfold mbind at 1. unfold M_bind at 1. unfold emit at 1. rewrite Hv.
  unfold mbind, M_bind.
  destruct (utils.InitiatePortForward w fuel port port matchLabels _)
    as [[pf [e|]] s2|msg s2|] eqn:E; try discriminate;
    intros H; apply Done_inj in H as [[= <- <-] <-];
    apply InitiatePortForward_handle in E; exists pf; split; auto.
Qed.

Lemma startup_client_first fuel w o s gRPC s1 r s2 :
  resolveAddress fuel w o s = Done (gRPC, None) s1 ->
  badConfig o = false ->
  startup fuel w o s = Done r s2 ->
  exists more,
    trace s2
    = (trace s1
       ++ EvNewClient gRPC (MsgPath o) (LogPath o) (LogFilter o) (Limit o) :: more)%list.
Proof.
  intros Hres Hb. apply badConfig_false in Hb as [Hb1 Hb2].
  unfold startup. rewrite (bind_Done _ _ _ _ _ Hres). cbn beta iota.
  rewrite Hb1, Hb2. unfold orReturn, mbind, M_bind, emit, mret, M_ret. cbn [glob trace].
  destruct (negb (NewClientOk w));
    [intros H; apply Done_inj in H as [_ <-]; cbn [trace]; eauto|].
  destruct (negb (DoHealthCheck w));
    [intros H; apply Done_inj in H as [_ <-]; cbn [trace];
     rewrite <- !app_assoc; cbn [app]; eauto|].
  destruct (negb (MsgPath o =? "none")); cbn [glob trace];
    match goal with
    | |- context [regexCompile o ?sx] =>
        destruct (regexCompile_spec o sx) as (s3 & E & Ht & _); rewrite E
    end;
    (destruct (firstFailure filterOrder o) as [[k e]|];
     cbn [fmap option_fmap option_map snd];
     [|rewrite startWatchers_run];
     intros H; apply Done_inj in H as [_ <-]; cbn [glob trace]; rewrite Ht; cbn [trace];
     rewrite <- !app_assoc; cbn [app]; eauto).
Qed.

(** X6.  Where the address of the service comes from.  An address in the
    options is taken as it is, and nothing else is looked at.  Without
    one, a value of KUBEARMOR_SERVICE in the environment is taken as it
    is, even an empty one, and the cluster is not asked.  Only without
    both is the tunnel set up, to port 32767 of a pod with the label of
    the relay, looked for in all namespaces.  When that succeeds the
    address is localhost with the local port of the forwarder, which is
    32767 when that port could be bound and a port of the fallback range
    otherwise; the forwarder runs before the configuration is looked at,
    and the client, when the configuration is accepted, is created at
    that address.  When it fails, [StartObserver] returns the error
    without printing the usage or creating a client. *)
Theorem address_from_options_environment_or_tunnel
    (fuel : nat) (w : World) (o : Options) (s : St Globals) :
  (GRPC o <> "" -> resolveAddress fuel w o s = Done (GRPC o, None) s) /\
  (forall val,
      GRPC o = "" -> LookupEnv w "KUBEARMOR_SERVICE" = Some val ->
      resolveAddress fuel w o s
      = Done (val, None) (utils.after s [EvLookupEnv "KUBEARMOR_SERVICE"])) /\
  (forall gRPC s1,
      GRPC o = "" -> LookupEnv w "KUBEARMOR_SERVICE" = None ->
      resolveAddress fuel w o s = Done (gRPC, None) s1 ->
      exists pod rest p evs,
        ListPods w "" matchLabels = inl (pod :: rest) /\
        ((Listen w 0 32767 = true /\ p = 32767) \/
         (Listen w 0 32767 = false /\ utils.inFallbackRange p)) /\
        gRPC = "localhost:" ++ FormatInt p /\
        Forall utils.isNetEvent evs /\
        s1 = utils.after s
               (EvLookupEnv "KUBEARMOR_SERVICE" :: EvListPods "" matchLabels :: evs
                ++ [EvGo (GoForwardPorts
                            ("/api/v1/namespaces/" ++ GetNamespace pod ++ "/pods/"
                             ++ GetName pod ++ "/portforward") p 32767)]) /\
        (badConfig o = false ->
         forall r s2,
           startup fuel w o s = Done r s2 ->
           exists more,
             trace s2
             = (trace s1
                ++ EvNewClient ("localhost:" ++ FormatInt p) (MsgPath o) (LogPath o)
                     (LogFilter o) (Limit o) :: more)%list)) /\
  (forall gRPC e s1 sch,
      resolveAddress fuel w o s = Done (gRPC, Some e) s1 ->
      GRPC o = "" /\ LookupEnv w "KUBEARMOR_SERVICE" = None /\
      StartObserver fuel w o sch s
      = Some {| st := s1; pc := PcReturned (Some e); received := 0 |} /\
      exists evs, s1 = utils.after s evs /\ Forall isResolutionEvent evs).
Proof.
  split; [apply resolveAddress_explicit|].
  split; [intros val Hg Hv; apply resolveAddress_environment; assumption|].
  split.
  - intros gRPC s1 Hg Hv Hres.
    destruct (resolveAddress_tunnel fuel w o s gRPC None s1 Hg Hv Hres) as (pf & E & ->).
    apply handlePortForward_inv in E.
    cbn [utils.Namespace utils.MatchLabels utils.LocalPort utils.initialOpt] in E.
    destruct E as [(_ & _ & [(e & _ & He)|[_ He]])|(pod & rest & evs & Hpods & Hevs & Hcase)];
      [discriminate|discriminate|].
    destruct Hcase as [(_ & He & _)|(p & -> & Hp & Hcase)]; [congruence|].
    destruct Hcase as [(_ & _ & e & He)|(-> & _ & _ & _)]; [discriminate|].
    exists pod, rest, p, evs. split; [exact Hpods|]. split; [exact Hp|].
    split; [reflexivity|]. split; [exact Hevs|].
    split; [now rewrite after_after|].
    intros Hb r s2 Hs. exact (startup_client_first fuel w o s _ _ r s2 Hres Hb Hs).
  - intros gRPC e s1 sch Hres.
    assert (Hg : GRPC o = "").
    { destruct (String.eqb_spec (GRPC o) "") as [Hg|Hg]; [exact Hg|].
      rewrite (resolveAddress_explicit fuel w o s Hg) in Hres.
      apply Done_inj in Hres as [Hres _]. discriminate. }
    assert (Hv : LookupEnv w "KUBEARMOR_SERVICE" = None).
    { destruct (LookupEnv w "KUBEARMOR_SERVICE") as [val|] eqn:Hv; [|reflexivity].
      rewrite (resolveAddress_environment fuel w o s val Hg Hv) in Hres.
      apply Done_inj in Hres as [Hres _]. discriminate. }
    split; [exact Hg|]. split; [exact Hv|]. split.
    + unfold StartObserver. now rewrite (startup_resolution_error fuel w o s gRPC e s1 Hres).
    + pose proof (resolveAddress_yields fuel w o s) as Hy.
      pose proof (resolveAddress_keeps (fun g => g) fuel w o s) as Hk.
      rewrite Hres in Hy, Hk. destruct Hy as (_ & evs & Ht & Hf).
      exists evs. split; [|exact Hf]. destruct s1 as [g1 tr1], s as [g tr].
      unfold utils.after. cbn [glob trace] in *. now subst.
Qed.

End Address.

Lemma address_from_options_environment_or_tunnel_witness :
  GRPC samples.bothDisabledNoAddress = "" /\
  LookupEnv samples.world "KUBEARMOR_SERVICE" = None /\
  exists s1,
    log.resolveAddress 2 samples.world samples.bothDisabledNoAddress samples.fresh
    = Done ("localhost:32844", None) s1 /\
    exists pod rest p,
      ListPods samples.world "" log.matchLabels = inl (pod :: rest) /\
      "localhost:32844" = "localhost:" ++ FormatInt p.
Proof.
  split; [reflexivity|]. split; [reflexivity|].
  eexists. split; [reflexivity|].
  destruct (proj1 (proj2 (proj2
              (address_from_options_environment_or_tunnel 2 samples.world
                 samples.bothDisabledNoAddress samples.fresh)))
              "localhost:32844" _ eq_refl eq_refl eq_refl)
    as (pod & rest & p & evs & Hpods & _ & Ha & _).
  exists pod, rest, p. split; [exact Hpods|exact Ha].
Defined.

(** ** The wait of an unbounded session, and the release *)
Section Polling.
Context {L : RegexpLib}.
Import log.

Lemma release_run w s :
  release w s
  = match StopChan (glob s) with
    | Some ch =>
        if bool_decide (ch ∈ closedChans (glob s))
        then Panic "close of closed channel"
               (utils.after s [EvStderr ("releasing grpc client" ++ LF)])
        else Done (DestroyClient w)
               {| glob := set_Running false
                            (set_StopChan None
                               (set_closedChans ({[ch]} ∪ closedChans (glob s)) (glob s)));
                  trace := (trace s ++ [EvStderr ("releasing grpc client" ++ LF);
                                        EvDestroyClient])%list |}
    | None =>
        Done (DestroyClient w)
          {| glob := set_Running false (glob s);
             trace := (trace s ++ [EvStderr ("releasing grpc client" ++ LF);
                                   EvDestroyClient])%list |}
    end.
Proof.
  destruct s as [g tr].
  unfold release, closeStopChan, close, mbind, M_bind, emit, get, modify, panic, mret, M_ret,
    utils.after.
  cbn [glob trace]. destruct (StopChan g) as [ch|]; cbn [glob trace].
  - destruct (bool_decide (ch ∈ closedChans g)); cbn [glob trace];
      rewrite <- ?app_assoc; reflexivity.
  - rewrite <- app_assoc. reflexivity.
Qed.

Lemma release_sleeps w s :
  match release w s with
  | Done _ s' | Panic _ s' =>
      List.filter isSleep (trace s') = List.filter isSleep (trace s)
  | OutOfFuel => True
  end.
Proof.
  rewrite release_run. destruct (StopChan (glob s)) as [ch|];
    [destruct (bool_decide (ch ∈ closedChans (glob s)))|];
    unfold utils.after; cbn [glob trace]; rewrite List.filter_app;
    cbn [List.filter isSleep]; now rewrite app_nil_r.
Qed.

Lemma polling_step w a s :
  polling s \/ unblocked (pc s) = true ->
  polling (step w a s) \/ unblocked (pc (step w a s)) = true.
Proof.
  intros [[Hpc Hsig]|Hu]; [|right; now apply unblocked_step].
  destruct s as [[g tr] p rc]. cbn [pc st glob] in Hpc, Hsig.
  unfold polling. destruct a; cbn [step st glob pc].
  - destruct Hpc as [-> | ->]; cbn [ctlStep pc st glob].
    + destruct (unblockSignal g); cbn [negb withSt pc st glob]; [now right|left; auto].
    + destruct (sigChan g) as [[|k]|] eqn:E; cbn [withSt pc st glob id]; left;
        (split; [auto|]); try (rewrite E); cbn; congruence.
  - destruct (Limitchan g) as [buf|]; [|left; auto].
    destruct (length buf <? 2)%nat; left; auto.
  - destruct (sigChan g) as [[|k]|] eqn:E; left; cbn [withSt pc st glob];
      (split; [auto|]); try (rewrite E); cbn; congruence.
  - left. cbn [StopObserver modify pc st glob]. auto.
Qed.

Lemma polling_run w sch :
  forall s,
    polling s \/ unblocked (pc s) = true ->
    polling (run w sch s) \/ unblocked (pc (run w sch s)) = true.
Proof.
  induction sch as [|a sch IH]; intros s H; [exact H|].
  change (run w (a :: sch) s) with (run w sch (step w a s)).
  apply IH. now apply polling_step.
Qed.

Lemma listen_run w pre :
  forall s,
    pc s = PcListen -> existsb isCtl pre = true ->
    polling (run w pre s) \/ unblocked (pc (run w pre s)) = true.
Proof.
  induction pre as [|a pre IH]; intros s Hpc Hctl; [discriminate|].
  change (run w (a :: pre) s) with (run w pre (step w a s)).
  destruct s as [[g tr] p rc]. cbn [pc] in Hpc. subst p.
  destruct a; cbn [existsb isCtl orb] in Hctl.
  - apply polling_run. left. split; [now left|]. cbn. discriminate.
  - apply IH; [|exact Hctl]. cbn [step st glob pc].
    destruct (Limitchan g) as [buf|]; [|reflexivity].
    destruct (length buf <? 2)%nat; reflexivity.
  - apply IH; [|exact Hctl]. cbn [step st glob pc].
    destruct (sigChan g) as [[|k]|]; reflexivity.
  - apply IH; [reflexivity|exact Hctl].
Qed.

Lemma wake_step w a s :
  polling s \/ unblocked (pc s) = true -> isWakeUp a = true ->
  wakingUp (step w a s) \/ unblocked (pc (step w a s)) = true.
Proof.
  intros [[Hpc Hsig]|Hu] Ha; [|right; now apply unblocked_step].
  destruct s as [[g tr] p rc]. cbn [pc st glob] in Hpc, Hsig.
  left. unfold wakingUp, signalPending. destruct a; try discriminate; cbn [step st glob pc].
  - destruct (sigChan g) as [[|k]|] eqn:E; [| |contradiction];
      cbn [withSt pc st glob set_sigChan sigChan]; rewrite ?E;
      (split; [exact Hpc|]); (split; [discriminate|]); now right.
  - cbn [StopObserver modify pc st glob set_unblockSignal sigChan unblockSignal].
    split; [exact Hpc|]. split; [exact Hsig|]. now left.
Qed.

Lemma waking_step w a s :
  wakingUp s \/ unblocked (pc s) = true ->
  (wakingUp (step w a s) \/ unblocked (pc (step w a s)) = true) /\
  (stepsToGo (step w a s) <= stepsToGo s - (if isCtl a then 1 else 0))%nat /\
  (sleeps (step w a s) + sleepsToGo (step w a s) <= sleeps s + sleepsToGo s)%nat.
Proof.
  intros [(Hpc & Hsig & Hw)|Hu].
  - destruct s as [[g tr] p rc]. cbn [pc st glob] in Hpc, Hsig, Hw.
    unfold wakingUp, signalPending, stepsToGo, sleepsToGo, sleeps in *.
    destruct a; cbn [step st glob pc isCtl].
    + destruct Hpc as [-> | ->]; cbn [ctlStep pc st glob].
      * destruct (unblockSignal g) eqn:Eu; cbn [negb withSt pc st glob id trace].
        -- split; [now right|]. cbn [unblocked]. split; lia.
        -- destruct Hw as [Hw|Hw]; [discriminate|].
           split; [left; auto|].
           rewrite List.filter_app, length_app. cbn [List.filter isSleep length]. split; lia.
      * destruct (sigChan g) as [[|k]|] eqn:E; [| |contradiction];
          cbn [withSt pc st glob id trace set_unblockSignal set_sigChan sigChan unblockSignal].
        -- destruct Hw as [Hw|Hw]; [|discriminate]. rewrite Hw, E.
           split; [left; split; [now left|]; split; [discriminate|now left]|]. split; lia.
        -- split; [left; split; [now left|]; split; [discriminate|now left]|]. split; lia.
    + destruct (Limitchan g) as [buf|];
        [destruct (length buf <? 2)%nat|];
        cbn [withSt pc st glob trace set_Limitchan sigChan unblockSignal];
        (split; [left; auto|]); split; lia.
    + destruct (sigChan g) as [[|k]|] eqn:E; [| |contradiction];
        cbn [withSt pc st glob trace set_sigChan sigChan unblockSignal]; rewrite ?E;
        (split; [left; split; [exact Hpc|]; split; [discriminate|]; auto|]);
        split; lia.
    + cbn [StopObserver modify pc st glob trace set_unblockSignal sigChan unblockSignal].
      split; [left; auto|]. destruct Hpc as [-> | ->]; destruct (unblockSignal g); split; lia.
  - pose proof (unblocked_step w a s Hu) as Hu'. split; [now right|].
    destruct s as [[g tr] p rc]. cbn [pc] in Hu.
    unfold stepsToGo, sleepsToGo, sleeps in *.
    destruct a; cbn [step st glob pc isCtl] in *.
    + destruct p; try discriminate; cbn [ctlStep pc st glob withSt id trace] in *.
      * pose proof (release_sleeps w {| glob := g; trace := tr |}) as Hs.
        destruct (release w _) as [e s'|msg s'|]; cbn [pc st trace] in *;
          rewrite ?Hs; split; lia.
      * split; lia.
      * split; lia.
    + destruct (Limitchan g) as [buf|];
        [destruct (length buf <? 2)%nat|];
        cbn [withSt pc st glob trace] in *; destruct p; try discriminate; split; lia.
    + destruct (sigChan g) as [[|k]|];
        cbn [withSt pc st glob trace] in *; destruct p; try discriminate; split; lia.
    + cbn [StopObserver modify pc st glob trace] in *.
      destruct p; try discriminate; split; lia.
Qed.

Lemma waking_run w sch :
  forall s,
    wakingUp s \/ unblocked (pc s) = true ->
    (wakingUp (run w sch s) \/ unblocked (pc (run w sch s)) = true) /\
    (stepsToGo (run w sch s) <= stepsToGo s - length (List.filter isCtl sch))%nat /\
    (sleeps (run w sch s) + sleepsToGo (run w sch s) <= sleeps s + sleepsToGo s)%nat.
Proof.
  induction sch as [|a sch IH]; intros s H.
  - cbn [run fold_left List.filter length]. split; [exact H|]. split; lia.
  - change (run w (a :: sch) s) with (run w sch (step w a s)).
    destruct (waking_step w a s H) as (H1 & H2 & H3).
    destruct (IH _ H1) as (H4 & H5 & H6). split; [exact H4|].
    cbn [List.filter]. destruct (isCtl a); cbn [length]; split; lia.
Qed.

Lemma waking_done s :
  wakingUp s \/ unblocked (pc s) = true -> stepsToGo s = 0%nat -> unblocked (pc s) = true.
Proof.
  intros [(Hpc & _ & _)|Hu] H0; [|exact Hu]. unfold stepsToGo in H0.
  destruct Hpc as [Hpc|Hpc]; rewrite Hpc in H0;
    [destruct (unblockSignal _)|]; discriminate.
Qed.

Lemma stepsToGo_bound s : (stepsToGo s <= 3)%nat.
Proof. unfold stepsToGo. destruct (pc s); try lia. destruct (unblockSignal _); lia. Qed.

Lemma sleepsToGo_bound s : (sleepsToGo s <= 1)%nat.
Proof. unfold sleepsToGo. destruct (pc s); try lia. destruct (unblockSignal _); lia. Qed.

(** The release, whoever else moves. *)
Lemma releaseInv_step w g0 a s : releaseInv w g0 s -> releaseInv w g0 (step w a s).
Proof.
  destruct s as [[g tr] p rc]. unfold releaseInv. cbn [pc st glob trace].
  destruct a; cbn [step st glob pc].
  - destruct p as [[|n]| | | | | |]; cbn [ctlStep pc st glob withSt id trace]; try tauto.
    + destruct (Limitchan g) as [[|v rest]|]; cbn [pc st glob trace]; try tauto.
      destruct n; cbn [set_Limitchan Running StopChan closedChans]; tauto.
    + destruct (negb (unblockSignal g)); cbn [pc st glob trace withSt id]; tauto.
    + destruct (sigChan g) as [[|k]|]; cbn [pc st glob trace withSt]; tauto.
    + intros (Hr & Hs & Hc). rewrite release_run. cbn [glob trace].
      unfold safeStop, staleStop, closedAfter. rewrite <- Hs, <- Hc.
      change [EvStderr ("releasing grpc client" ++ LF); EvDestroyClient]
        with ([EvStderr ("releasing grpc client" ++ LF)] ++ [EvDestroyClient])%list.
      destruct (StopChan g) as [ch|] eqn:Esc;
        [destruct (bool_decide_reflect (ch ∈ closedChans g))|];
        unfold utils.after; cbn [pc st glob trace set_Running set_StopChan set_closedChans
                                   Running StopChan closedChans];
        rewrite ?app_assoc, ?last_snoc; rewrite ?Esc; eauto 10.
  - destruct (Limitchan g) as [buf|]; [destruct (length buf <? 2)%nat|];
      cbn [withSt pc st glob trace]; tauto.
  - destruct (sigChan g) as [[|k]|]; cbn [withSt pc st glob trace]; tauto.
  - cbn [StopObserver modify pc st glob trace]. tauto.
Qed.

Lemma releaseInv_run w g0 sch :
  forall s, releaseInv w g0 s -> releaseInv w g0 (run w sch s).
Proof.
  induction sch as [|a sch IH]; intros s H; [exact H|].
  change (run w (a :: sch) s) with (run w sch (step w a s)).
  apply IH. now apply releaseInv_step.
Qed.

Lemma releaseInv_enter w o s0 : releaseInv w (glob s0) (enter o s0).
Proof.
  unfold releaseInv, enter, waitEntry. cbn [pc st].
  destruct (negb (Limit o =? 0)%Z); [destruct (LogFilter o =? "all")|]; auto.
Qed.

Lemma safe_not_stale g : safeStop g -> staleStop g -> False.
Proof.
  unfold safeStop, staleStop. intros Hs (ch & E & Hin). rewrite E in Hs. contradiction.
Qed.

Lemma release_decides w g0 z :
  releaseInv w g0 z -> unblocked (pc z) = true ->
  (safeStop g0 -> pc (step w ActCtl z) = PcReturned (DestroyClient w)) /\
  (staleStop g0 -> pc (step w ActCtl z) = PcPanicked "close of closed channel").
Proof.
  intros Hinv Hu.
  pose proof (releaseInv_step w g0 ActCtl z Hinv) as Hinv'. unfold releaseInv in Hinv'.
  assert (Hpc : (exists err, pc (step w ActCtl z) = PcReturned err) \/
                (exists msg, pc (step w ActCtl z) = PcPanicked msg)).
  { destruct z as [[g tr] p rc].
    cbn [pc] in Hu. destruct p; try discriminate; cbn [step ctlStep pc st]; eauto.
    destruct (release_cases w {| glob := g; trace := tr |})
      as (s' & [[err E]|[msg E]] & _); rewrite E; eauto. }
  destruct Hpc as [[err E]|[msg E]]; rewrite E in Hinv' |- *.
  - destruct Hinv' as (Hsafe & -> & _). split; [reflexivity|].
    intros Hst. now destruct (safe_not_stale _ Hsafe Hst).
  - destruct Hinv' as (Hst & -> & _). split; [|reflexivity].
    intros Hsafe. now destruct (safe_not_stale _ Hsafe Hst).
Qed.

(** X7.  In a session without a quota, once the controller has taken its
    first step (the signal channel is registered), no signal and no stop
    request is lost: whatever the watchers, the operating system and
    callers of [StopObserver] do in between, the wait is over after three
    more steps of the controller, and the controller sleeps at most once
    more, 50 milliseconds, before it notices.  When closing [StopChan]
    does not panic, a fourth step ends [StartObserver] with the answer of
    the client to its destruction. *)
Theorem wake_up_ends_the_wait
    (w : World) (o : Options) (s0 : St Globals) (pre : list Action) (a : Action)
    (post : list Action) :
  Limit o = 0 ->
  existsb isCtl pre = true ->
  isWakeUp a = true ->
  (3 <= length (List.filter isCtl post))%nat ->
  unblocked (pc (run w (pre ++ a :: post) (enter o s0))) = true /\
  (sleeps (run w (pre ++ a :: post) (enter o s0))
   <= sleeps (run w (pre ++ [a]) (enter o s0)) + 1)%nat /\
  (safeStop (glob s0) ->
   pc (run w (pre ++ a :: post ++ [ActCtl]) (enter o s0)) = PcReturned (DestroyClient w)).
Proof.
  intros Hl Hpre Ha Hpost.
  assert (Hlisten : pc (enter o s0) = PcListen).
  { unfold enter, waitEntry. cbn [pc]. now rewrite Hl. }
  pose proof (listen_run w pre _ Hlisten Hpre) as H1.
  pose proof (wake_step w a _ H1 Ha) as H2.
  rewrite <- run_snoc in H2.
  destruct (waking_run w post _ H2) as (H3 & H4 & H5).
  replace (pre ++ a :: post)%list with ((pre ++ [a]) ++ post)%list
    by (now rewrite <- app_assoc).
  rewrite run_app.
  pose proof (stepsToGo_bound (run w (pre ++ [a]) (enter o s0))) as Hb.
  assert (Hu : unblocked (pc (run w post (run w (pre ++ [a]) (enter o s0)))) = true)
    by (apply waking_done; [exact H3|lia]).
  split; [exact Hu|]. split.
  - pose proof (sleepsToGo_bound (run w (pre ++ [a]) (enter o s0))). lia.
  - intros Hsafe.
    replace (pre ++ a :: post ++ [ActCtl])%list
      with (((pre ++ [a]) ++ post) ++ [ActCtl])%list
      by (now rewrite <- !app_assoc).
    rewrite run_snoc, run_app.
    pose proof (releaseInv_run w (glob s0) ((pre ++ [a]) ++ post) _
                  (releaseInv_enter w o s0)) as Hinv.
    rewrite run_app in Hinv.
    exact (proj1 (release_decides w _ _ Hinv Hu) Hsafe).
Qed.

(** X8.  A stop request that comes before the controller has entered the
    loop of a session without a quota is lost: the controller clears
    [unblockSignal] when it enters, so the run is the run without those
    requests, state for state; and unless a signal or another stop
    request follows, the wait never ends. *)
Theorem stop_before_the_wait_is_lost
    (w : World) (o : Options) (s0 : St Globals) (pre sch : list Action) :
  Limit o = 0 ->
  forallb isStop pre = true ->
  run w (pre ++ ActCtl :: sch) (enter o s0) = run w (ActCtl :: sch) (enter o s0) /\
  (existsb isWakeUp sch = false ->
   unblocked (pc (run w (pre ++ ActCtl :: sch) (enter o s0))) = false).
Proof.
  intros Hl Hpre.
  assert (E : run w (pre ++ ActCtl :: sch) (enter o s0) = run w (ActCtl :: sch) (enter o s0)).
  { rewrite run_app.
    change (run w (ActCtl :: sch) ?s) with (run w sch (step w ActCtl s)).
    f_equal.
    assert (Hrun : forall s, pc s = PcListen ->
                     step w ActCtl (run w pre s) = step w ActCtl s).
    { clear -Hpre. induction pre as [|a pre IH]; intros s Hpc; [reflexivity|].
      cbn [forallb] in Hpre. apply andb_prop in Hpre as [Ha Hpre].
      destruct a; try discriminate.
      change (run w (ActStop :: pre) s) with (run w pre (step w ActStop s)).
      rewrite (IH Hpre); [|exact Hpc].
      destruct s as [[g tr] p rc]. cbn [pc] in Hpc. subst p. reflexivity. }
    apply Hrun. unfold enter, waitEntry. cbn [pc]. now rewrite Hl. }
  split; [exact E|]. intros Hnone. rewrite E.
  pose proof (pollInv_run w (ActCtl :: sch) false _ (pollInv_enter o s0 Hl)) as [_ Hpc].
  cbn [existsb isWakeUp isSignal isStop orb] in Hpc. rewrite Hnone in Hpc.
  destruct (pc (run w (ActCtl :: sch) (enter o s0))); try reflexivity;
    try discriminate; contradiction.
Qed.

(** X9.  The release, in every session and under every schedule.  Until
    the controller has gone through the release path, [StopChan], the
    closed channels and [Running] are as they were when the wait was
    entered.  [StartObserver] returns only after the release: then
    closing [StopChan] did not panic, the error is the answer of the
    client to its destruction, [Running] is false, [StopChan] is nil and
    its channel is closed, and the destruction of the client is the last
    thing that has happened.  It panics exactly when [StopChan] names a
    channel that was closed before: then [Running] is left as it was and
    the client is not destroyed.  Once the wait is over one step of the
    controller decides between the two. *)
Theorem release_closes_StopChan_once
    (w : World) (o : Options) (s0 : St Globals) (sch : list Action) :
  (forall err,
      pc (run w sch (enter o s0)) = PcReturned err ->
      safeStop (glob s0) /\ err = DestroyClient w /\
      Running (glob (st (run w sch (enter o s0)))) = false /\
      StopChan (glob (st (run w sch (enter o s0)))) = None /\
      closedChans (glob (st (run w sch (enter o s0)))) = closedAfter (glob s0) /\
      last (trace (st (run w sch (enter o s0)))) = Some EvDestroyClient) /\
  (forall msg,
      pc (run w sch (enter o s0)) = PcPanicked msg ->
      staleStop (glob s0) /\ msg = "close of closed channel" /\
      Running (glob (st (run w sch (enter o s0)))) = Running (glob s0) /\
      last (trace (st (run w sch (enter o s0))))
      = Some (EvStderr ("releasing grpc client" ++ LF))) /\
  ((forall err, pc (run w sch (enter o s0)) <> PcReturned err) ->
   Running (glob (st (run w sch (enter o s0)))) = Running (glob s0) /\
   StopChan (glob (st (run w sch (enter o s0)))) = StopChan (glob s0) /\
   closedChans (glob (st (run w sch (enter o s0)))) = closedChans (glob s0)) /\
  (unblocked (pc (run w sch (enter o s0))) = true ->
   (safeStop (glob s0) ->
    pc (run w (sch ++ [ActCtl]) (enter o s0)) = PcReturned (DestroyClient w)) /\
   (staleStop (glob s0) ->
    pc (run w (sch ++ [ActCtl]) (enter o s0)) = PcPanicked "close of closed channel")) /\
  (safeStop (glob s0) \/ staleStop (glob s0)).
Proof.
  pose proof (releaseInv_run w (glob s0) sch _ (releaseInv_enter w o s0)) as Hinv.
  split; [|split; [|split; [|split]]].
  - intros err E. unfold releaseInv in Hinv. rewrite E in Hinv. exact Hinv.
  - intros msg E. unfold releaseInv in Hinv. rewrite E in Hinv. tauto.
  - intros Hnot. unfold releaseInv in Hinv.
    destruct (pc (run w sch (enter o s0))) eqn:E; try tauto.
    now destruct (Hnot err).
  - intros Hu. rewrite run_snoc. exact (release_decides w _ _ Hinv Hu).
  - unfold safeStop, staleStop. destruct (StopChan (glob s0)) as [ch|]; [|now left].
    destruct (decide (ch ∈ closedChans (glob s0))); [right; eauto|now left].
Qed.

Lemma bounded_step w a s :
  pollFree (pc s) = true ->
  sleeps (step w a s) = sleeps s /\
  (sigChan (glob (st s)) = None -> sigChan (glob (st (step w a s))) = None) /\
  unblockSignal (glob (st (step w a s))) = unblockSignal (glob (st s)) || isStop a.
Proof.
  intros Hp. destruct s as [[g tr] p rc]. cbn [pc] in Hp. unfold sleeps.
  destruct a; cbn [step st glob pc trace isStop]; rewrite ?orb_false_r.
  - destruct p as [[|n]| | | | | |]; try discriminate;
      cbn [ctlStep pc st glob trace withSt id]; auto.
    + destruct (Limitchan g) as [[|v rest]|]; cbn [st glob trace]; auto.
    + pose proof (release_sleeps w {| glob := g; trace := tr |}) as Hs.
      destruct (release_cases w {| glob := g; trace := tr |})
        as (s' & [[err E]|[msg E]] & _ & Hsig & Hub);
        rewrite E in Hs |- *; cbn [st glob trace] in *; rewrite Hs, Hsig, Hub; auto.
  - destruct (Limitchan g) as [buf|]; [destruct (length buf <? 2)%nat|];
      cbn [withSt st glob trace]; auto.
  - destruct (sigChan g) as [[|k]|] eqn:E; cbn [withSt st glob trace]; rewrite ?E;
      (split; [reflexivity|]); (split; [|reflexivity]); auto; discriminate.
  - cbn [StopObserver modify st glob trace set_unblockSignal unblockSignal sigChan].
    now rewrite orb_true_r.
Qed.

(** X10.  In a session with a quota the controller never enters the
    polling loop: under every schedule it never sleeps, no signal channel
    is registered (a nil [sigChan] stays nil, so that a signal takes its
    default course), and [unblockSignal] is never cleared and never read:
    it is set exactly when it was set before or a stop request has
    occurred. *)
Theorem bounded_wait_does_not_poll
    (w : World) (o : Options) (s0 : St Globals) (sch : list Action) :
  Limit o <> 0 ->
  pollFree (pc (run w sch (enter o s0))) = true /\
  sleeps (run w sch (enter o s0)) = sleeps (enter o s0) /\
  (sigChan (glob s0) = None -> sigChan (glob (st (run w sch (enter o s0)))) = None) /\
  unblockSignal (glob (st (run w sch (enter o s0))))
  = unblockSignal (glob s0) || existsb isStop sch.
Proof.
  intros Hl. pose proof (pollFree_enter o s0 Hl) as Hp.
  change (glob s0) with (glob (st (enter o s0))).
  generalize dependent (enter o s0). clear Hl s0.
  induction sch as [|a sch IH]; intros s Hp.
  - cbn [run fold_left existsb]. rewrite orb_false_r. auto.
  - change (run w (a :: sch) s) with (run w sch (step w a s)).
    destruct (bounded_step w a s Hp) as (H1 & H2 & H3).
    destruct (IH _ (pollFree_step w a s Hp)) as (H4 & H5 & H6 & H7).
    split; [exact H4|]. split; [congruence|]. split; [auto|].
    rewrite H7, H3. cbn [existsb]. now rewrite orb_assoc.
Qed.

End Polling.

(** ** The filter compiler, run again *)
Section CompileAgain.
Context {L : RegexpLib}.
Import log.

Lemma Filters_ext (a b : Filters) : (forall f, slot f a = slot f b) -> a = b.
Proof.
  intros H. destruct a, b.
  pose proof (H FNamespace). pose proof (H FLogType). pose proof (H FOperation).
  pose proof (H FContainerName). pose proof (H FPodName). pose proof (H FSource).
  pose proof (H FResource). cbn [slot CNamespace CLogtype COperation CContainerName
                                   CPodName CSource CResource] in *.
  congruence.
Qed.

Lemma slotAfter_again o old f :
  slotAfter o {| CNamespace := slotAfter o old FNamespace;
                 CLogtype := slotAfter o old FLogType;
                 COperation := slotAfter o old FOperation;
                 CContainerName := slotAfter o old FContainerName;
                 CPodName := slotAfter o old FPodName;
                 CSource := slotAfter o old FSource;
                 CResource := slotAfter o old FResource |} f
  = slotAfter o old f.
Proof.
  unfold slotAfter. destruct (firstFailure filterOrder o) as [[k e]|]; [|reflexivity].
  destruct (position f <=? position k)%nat eqn:E; [reflexivity|].
  destruct f; cbn [slot CNamespace CLogtype COperation CContainerName CPodName CSource
                     CResource]; now rewrite E.
Qed.

Lemma regexCompile_run o s :
  regexCompile o s
  = Done (snd <$> firstFailure filterOrder o)
      {| glob := set_filters
                   (fun old => {| CNamespace := slotAfter o old FNamespace;
                                  CLogtype := slotAfter o old FLogType;
                                  COperation := slotAfter o old FOperation;
                                  CContainerName := slotAfter o old FContainerName;
                                  CPodName := slotAfter o old FPodName;
                                  CSource := slotAfter o old FSource;
                                  CResource := slotAfter o old FResource |})
                   (glob s);
         trace := trace s |}.
Proof.
  destruct (regexCompile_spec o s) as ([g' tr'] & E & Ht & Hs & Hg).
  rewrite E. f_equal. cbn [glob trace] in *. subst tr'. f_equal.
  rewrite Hg. unfold set_filters. f_equal.
  apply Filters_ext. intros f. rewrite Hs. now destruct f.
Qed.

(** X11.  [regexCompile] changes nothing but the seven filter variables
    and writes nothing.  What it returns depends on the options alone,
    not on the state it is run in.  After a run that succeeds the filter
    variables depend on the options alone, so that no matcher of an
    earlier session survives.  And running it again, after it has
    succeeded or failed, gives the same answer and changes nothing. *)
Theorem regexCompile_depends_on_the_options_alone (o : Options) (s : St Globals) :
  keeps (fun g => (StopChan g, closedChans g, sigChan g, unblockSignal g, Limitchan g,
                   Running g)) (regexCompile o) /\
  (exists s', regexCompile o s = Done (snd <$> firstFailure filterOrder o) s' /\
              trace s' = trace s) /\
  (forall s1 s1' s2 s2' r,
      regexCompile o s1 = Done None s1' -> regexCompile o s2 = Done r s2' ->
      r = None /\ filters (glob s2') = filters (glob s1')) /\
  (regexCompile o ;; regexCompile o) s = regexCompile o s /\
  (forall r s', regexCompile o s = Done r s' -> regexCompile o s' = Done r s').
Proof.
  assert (Hagain : forall r s', regexCompile o s = Done r s' -> regexCompile o s' = Done r s').
  { intros r s' H. rewrite regexCompile_run in H. apply Done_inj in H as [<- <-].
    rewrite regexCompile_run. cbn [glob trace]. f_equal. f_equal.
    unfold set_filters. cbn [filters StopChan closedChans sigChan unblockSignal Limitchan
                               Running].
    f_equal. apply Filters_ext.
    intros f; destruct f;
      cbn [slot CNamespace CLogtype COperation CContainerName CPodName CSource CResource];
      apply slotAfter_again. }
  split; [apply regexCompile_keeps; reflexivity|].
  split; [rewrite regexCompile_run; eexists; split; reflexivity|].
  split; [|split; [|exact Hagain]].
  - intros s1 s1' s2 s2' r H1 H2. rewrite regexCompile_run in H1, H2.
    apply Done_inj in H1 as [Hr1 <-]. apply Done_inj in H2 as [Hr2 <-].
    split; [congruence|]. cbn [glob filters set_filters]. unfold slotAfter.
    destruct (firstFailure filterOrder o) as [[k e]|]; [discriminate|reflexivity].
  - unfold mbind, M_bind. destruct (regexCompile o s) as [r s'|msg s'|] eqn:E;
      [|reflexivity|reflexivity].
    exact (Hagain r s' eq_refl).
Qed.

End CompileAgain.

Lemma wake_up_ends_the_wait_witness :
  Limit samples.noFilters = 0 /\
  log.safeStop (glob samples.watchingUnbounded) /\
  log.unblocked
    (log.pc (log.run samples.world
               ([log.ActReport; log.ActCtl]
                ++ log.ActSignal :: [log.ActCtl; log.ActReport; log.ActCtl; log.ActCtl])
               (log.enter samples.noFilters samples.watchingUnbounded))) = true /\
  log.pc (log.run samples.world
            ([log.ActReport; log.ActCtl]
             ++ log.ActSignal :: [log.ActCtl; log.ActReport; log.ActCtl; log.ActCtl]
             ++ [log.ActCtl])
            (log.enter samples.noFilters samples.watchingUnbounded))
  = log.PcReturned (DestroyClient samples.world).
Proof.
  assert (H3 : (3 <= length (List.filter log.isCtl
                               [log.ActCtl; log.ActReport; log.ActCtl; log.ActCtl]))%nat)
    by (cbn; lia).
  pose proof (wake_up_ends_the_wait samples.world samples.noFilters samples.watchingUnbounded
                [log.ActReport; log.ActCtl] log.ActSignal
                [log.ActCtl; log.ActReport; log.ActCtl; log.ActCtl]
                eq_refl eq_refl eq_refl H3) as H.
  split; [reflexivity|]. split; [exact I|]. split; [exact (proj1 H)|].
  exact (proj2 (proj2 H) I).
Defined.

Lemma stop_before_the_wait_is_lost_witness :
  Limit samples.noFilters = 0 /\
  log.run samples.world ([log.ActStop; log.ActStop] ++ log.ActCtl :: [log.ActCtl; log.ActCtl])
    (log.enter samples.noFilters samples.watchingUnbounded)
  = log.run samples.world (log.ActCtl :: [log.ActCtl; log.ActCtl])
      (log.enter samples.noFilters samples.watchingUnbounded) /\
  log.unblocked
    (log.pc (log.run samples.world
               ([log.ActStop; log.ActStop] ++ log.ActCtl :: [log.ActCtl; log.ActCtl])
               (log.enter samples.noFilters samples.watchingUnbounded))) = false.
Proof.
  pose proof (stop_before_the_wait_is_lost samples.world samples.noFilters
                samples.watchingUnbounded [log.ActStop; log.ActStop]
                [log.ActCtl; log.ActCtl] eq_refl eq_refl) as H.
  split; [reflexivity|]. split; [exact (proj1 H)|]. exact (proj2 H eq_refl).
Defined.

Lemma bounded_wait_does_not_poll_witness :
  Limit samples.bounded <> 0 /\
  log.sleeps (log.run samples.world [log.ActStop; log.ActSignal; log.ActCtl; log.ActReport]
                (log.enter samples.bounded samples.watching))
  = log.sleeps (log.enter samples.bounded samples.watching) /\
  log.unblockSignal
    (glob (log.st (log.run samples.world
                     [log.ActStop; log.ActSignal; log.ActCtl; log.ActReport]
                     (log.enter samples.bounded samples.watching)))) = true.
Proof.
  pose proof (bounded_wait_does_not_poll samples.world samples.bounded samples.watching
                [log.ActStop; log.ActSignal; log.ActCtl; log.ActReport] sample_bounded) as H.
  split; [exact sample_bounded|]. split; [exact (proj1 (proj2 H))|].
  exact (proj2 (proj2 (proj2 H))).
Defined.

(** ** A whole bounded session *)
Section Session.
Context {L : RegexpLib}.
Import log.

Lemma startup_Started_config fuel w o s gRPC s0 :
  startup fuel w o s = Done (Started gRPC) s0 -> badConfig o = false.
Proof.
  unfold startup, badConfig, mbind, M_bind. intros H.
  destruct (resolveAddress fuel w o s) as [[gRPC' [e|]] s1|msg s1|]; try discriminate.
  destruct ((MsgPath o =? "none") && (LogPath o =? "none")); [discriminate|].
  destruct (negb (LogFilter o =? "all") && negb (LogFilter o =? "policy")
            && negb (LogFilter o =? "system")); [discriminate|reflexivity].
Qed.

Lemma filteringWatchers_needed o :
  badConfig o = false ->
  length (List.filter isFilteringWatcher (filteringEvents o))
  = (if LogPath o =? "none" then 0%nat else needed o).
Proof.
  intros Hb. apply badConfig_false in Hb as [_ Hb].
  unfold filteringEvents, needed.
  destruct (LogPath o =? "none"),
    (String.eqb_spec (LogFilter o) "all"), (String.eqb_spec (LogFilter o) "policy"),
    (String.eqb_spec (LogFilter o) "system");
    try discriminate; try congruence; reflexivity.
Qed.

Lemma gateCount_step o w a n s :
  gateInv o n s -> gateCount n s ->
  ((if isReport a then S n else n) <= needed o)%nat ->
  gateCount (if isReport a then S n else n) (step w a s).
Proof.
  intros (buf & Hb & Hn & Hpc) (buf' & Hb' & Hsum) Hle.
  rewrite Hb in Hb'. injection Hb' as <-.
  pose proof (needed_bounds o) as Hnd.
  destruct s as [[g tr] p rc]. cbn [st glob pc received] in *.
  destruct a; cbn [step isReport st glob pc] in *.
  - destruct Hpc as [(k & -> & Hk)|[Hu Hr]].
    + cbn [ctlStep pc st glob]. rewrite Hb. destruct buf as [|v rest].
      * exists []. cbn [st glob received]. now split.
      * exists rest. cbn [st glob received Limitchan set_Limitchan length] in *.
        split; [reflexivity|lia].
    + destruct p; try discriminate; cbn [ctlStep pc st glob received withSt id].
      * destruct (release_cases w {| glob := g; trace := tr |}) as (s' & [[e E]|[m E]] & Hl & _);
          rewrite E; exists buf; cbn [st received]; rewrite Hl; now split.
      * exists buf. now split.
      * exists buf. now split.
  - rewrite Hb. assert (Hlen : (length buf < 2)%nat) by lia.
    apply Nat.ltb_lt in Hlen. rewrite Hlen.
    exists (buf ++ [true])%list. cbn [withSt st glob received Limitchan set_Limitchan].
    split; [reflexivity|]. rewrite length_app. cbn [length]. lia.
  - destruct (sigChan g) as [[|k]|]; exists buf; now split.
  - exists buf. now split.
Qed.

Lemma gateCount_run o w sch :
  forall n s,
    gateInv o n s -> gateCount n s ->
    (n + length (List.filter isReport sch) <= needed o)%nat ->
    gateCount (n + length (List.filter isReport sch)) (run w sch s).
Proof.
  induction sch as [|a sch IH]; intros n s Hi Hc Hle.
  - cbn [List.filter length run fold_left]. now rewrite Nat.add_0_r.
  - change (run w (a :: sch) s) with (run w sch (step w a s)).
    cbn [List.filter] in *.
    pose proof (gateInv_step o w a n s Hi) as Hi'.
    destruct (isReport a) eqn:Ea; cbn [length] in *.
    + rewrite <- Nat.add_succ_comm in *.
      apply IH; [exact Hi'| |exact Hle].
      pose proof (gateCount_step o w a n s Hi Hc) as Hc'. rewrite Ea in Hc'.
      apply Hc'. lia.
    + apply IH; [exact Hi'| |exact Hle].
      pose proof (gateCount_step o w a n s Hi Hc) as Hc'. rewrite Ea in Hc'.
      apply Hc'. lia.
Qed.

(** Once every needed report has been sent, two steps of the controller
    end the wait. *)
Lemma gate_full_two_steps o w z :
  gateInv o (needed o) z -> gateCount (needed o) z ->
  unblocked (pc (run w [ActCtl; ActCtl] z)) = true /\
  received (run w [ActCtl; ActCtl] z) = needed o.
Proof.
  intros Hi (buf & Hb & Hsum). pose proof (needed_bounds o) as Hnd.
  pose proof (gateInv_run o w [ActCtl; ActCtl] _ _ Hi) as Hi2.
  cbn [List.filter isReport length] in Hi2. rewrite Nat.add_0_r in Hi2.
  assert (Hu : unblocked (pc (run w [ActCtl; ActCtl] z)) = true).
  { destruct Hi as (buf' & Hb' & _ & Hpc). rewrite Hb in Hb'. injection Hb' as <-.
    destruct z as [[g tr] p rc]. cbn [st glob pc received] in *.
    destruct Hpc as [(k & -> & Hk)|[Hu Hr]].
    - cbn [run fold_left]. unfold step at 2. cbn [ctlStep pc st glob]. rewrite Hb.
      destruct buf as [|v rest]; [cbn [length] in Hsum; lia|].
      destruct k as [|k]; [now apply unblocked_step|].
      cbn [step ctlStep pc st glob Limitchan set_Limitchan].
      destruct rest as [|v' rest]; [cbn [length] in Hsum; lia|].
      destruct k as [|k]; [reflexivity|]. cbn [length] in Hsum. lia.
    - cbn [run fold_left]. now do 2 apply unblocked_step. }
  split; [exact Hu|].
  destruct Hi2 as (buf2 & _ & _ & [(k2 & Hk2 & _)|[_ Hr2]]); [|exact Hr2].
  rewrite Hk2 in Hu. discriminate.
Qed.

(** X12.  A bounded session ends with the reports of its watchers.
    [StartObserver] has come to its wait with a quota, closing [StopChan]
    did not panic when it was called, no signal arrives (a bounded session
    registers no handler, so a signal would end the process), and each
    alert or log watcher that was started sends one report; the
    controller, the watchers and callers of [StopObserver] move in any
    order.  With a log destination, three more steps of the controller
    make [StartObserver] return: it has received the needed number of
    reports and returns the answer of the client to its destruction, with
    [Running] false and [StopChan] nil, the destruction of the client
    being the last thing that has happened.  Without a log destination no
    such watcher was started, nothing is reported, and the controller
    still stands at its first receive: [StartObserver] does not return. *)
Theorem bounded_session_ends_with_its_watchers
    (fuel : nat) (w : World) (o : Options) (s s0 : St Globals) (gRPC : string)
    (sch : list Action) :
  startup fuel w o s = Done (Started gRPC) s0 ->
  safeStop (glob s) ->
  Limit o <> 0 ->
  existsb isSignal sch = false ->
  length (List.filter isReport sch)
  = length (List.filter isFilteringWatcher (filteringEvents o)) ->
  exists z,
    StartObserver fuel w o (sch ++ [ActCtl; ActCtl; ActCtl]) s = Some z /\
    if LogPath o =? "none"
    then pc z = PcRecv (needed o) /\ received z = 0%nat /\
         Running (glob (st z)) = Running (glob s) /\
         StopChan (glob (st z)) = StopChan (glob s)
    else pc z = PcReturned (DestroyClient w) /\ received z = needed o /\
         Running (glob (st z)) = false /\
         StopChan (glob (st z)) = None /\
         last (trace (st z)) = Some EvDestroyClient.
Proof.
  intros Hstart Hsafe Hl _ Hrep.
  pose proof (startup_keeps shutdownState fuel w o (fun _ _ => eq_refl)
                (fun _ _ => eq_refl) s) as Hk.
  rewrite Hstart in Hk. unfold shutdownState in Hk. injection Hk as Hsc Hcc _ _ Hrun.
  assert (Hsafe0 : safeStop (glob s0)).
  { unfold safeStop in *. now rewrite Hsc, Hcc. }
  rewrite (filteringWatchers_needed o (startup_Started_config _ _ _ _ _ _ Hstart)) in Hrep.
  destruct (startup_Started fuel w o s gRPC s0 Hstart) as (s1 & Hs).
  pose proof (startWatchers_Limitchan o s1 s0 Hs) as Hc.
  pose proof (gateInv_enter o s0 Hl Hc) as Hi0.
  assert (Hc0 : gateCount 0 (enter o s0)) by (exists []; now split).
  pose proof (needed_bounds o) as Hnd.
  unfold StartObserver. rewrite Hstart. eexists. split; [reflexivity|].
  destruct (LogPath o =? "none").
  - assert (Hrep' : length (List.filter isReport (sch ++ [ActCtl; ActCtl; ActCtl])) = 0%nat).
    { rewrite List.filter_app, length_app, Hrep. reflexivity. }
    pose proof (gateInv_run o w (sch ++ [ActCtl; ActCtl; ActCtl]) 0 _ Hi0) as Hi.
    pose proof (gateCount_run o w (sch ++ [ActCtl; ActCtl; ActCtl]) 0 _ Hi0 Hc0) as Hcn.
    rewrite Hrep' in Hi, Hcn. cbn [Nat.add] in Hi, Hcn.
    destruct (Hcn ltac:(lia)) as (buf & Hb & Hsum).
    pose proof (releaseInv_run w (glob s0) (sch ++ [ActCtl; ActCtl; ActCtl]) _
                  (releaseInv_enter w o s0)) as Hinv.
    destruct Hi as (buf' & _ & _ & [(k & Hpc & Hr)|[Hu Hr]]); [|lia].
    assert (Hrc : received (run w (sch ++ [ActCtl; ActCtl; ActCtl]) (enter o s0)) = 0%nat) by lia.
    unfold releaseInv in Hinv. rewrite Hpc in Hinv. destruct Hinv as (Hr1 & Hs1 & _).
    rewrite Hpc. split; [f_equal; lia|]. split; [exact Hrc|].
    split; [now rewrite Hr1|now rewrite Hs1].
  - change [ActCtl; ActCtl; ActCtl] with ([ActCtl; ActCtl] ++ [ActCtl])%list.
    rewrite app_assoc, run_snoc, (run_app w sch).
    pose proof (gateInv_run o w sch 0 _ Hi0) as Hi.
    pose proof (gateCount_run o w sch 0 _ Hi0 Hc0) as Hcn.
    rewrite Hrep in Hi, Hcn. cbn [Nat.add] in Hi, Hcn.
    destruct (gate_full_two_steps o w _ Hi (Hcn ltac:(lia))) as [Hu Hr].
    rewrite <- run_app in Hu, Hr |- *.
    pose proof (releaseInv_run w (glob s0) (sch ++ [ActCtl; ActCtl]) _
                  (releaseInv_enter w o s0)) as Hinv.
    pose proof (proj1 (release_decides w _ _ Hinv Hu) Hsafe0) as Hpc.
    pose proof (releaseInv_step w (glob s0) ActCtl _ Hinv) as Hinv'.
    unfold releaseInv in Hinv'. rewrite Hpc in Hinv'.
    split; [exact Hpc|].
    assert (Hrc : forall z, unblocked (pc z) = true -> received (step w ActCtl z) = received z).
    { intros [[g tr] p rc] Hz. cbn [pc] in Hz.
      destruct p; try discriminate; cbn [step ctlStep pc st received]; try reflexivity.
      destruct (release w _); reflexivity. }
    rewrite (Hrc _ Hu). split; [exact Hr|]. tauto.
Qed.

End Session.

Lemma bounded_session_ends_with_its_watchers_witness :
  log.startup 0 samples.world samples.bounded samples.fresh
  = Done (log.Started "localhost:32767") samples.watching /\
  log.safeStop (glob samples.fresh) /\
  Limit samples.bounded <> 0 /\
  exists z,
    log.StartObserver 0 samples.world samples.bounded
      ([log.ActStop; log.ActReport; log.ActCtl; log.ActReport]
       ++ [log.ActCtl; log.ActCtl; log.ActCtl])
      samples.fresh
    = Some z /\
    log.pc z = log.PcReturned (DestroyClient samples.world) /\
    log.received z = 2%nat /\
    log.Running (glob (log.st z)) = false.
Proof.
  split; [exact watching_started|]. split; [exact I|]. split; [discriminate|].
  destruct (bounded_session_ends_with_its_watchers 0 samples.world samples.bounded
              samples.fresh samples.watching "localhost:32767"
              [log.ActStop; log.ActReport; log.ActCtl; log.ActReport]
              watching_started I ltac:(discriminate) eq_refl eq_refl)
    as (z & E & Hpc & Hrc & Hr & _).
  exists z. split; [exact E|]. split; [exact Hpc|]. split; [exact Hrc|exact Hr].
Defined.

(** [StopChan] was closed by somebody else before the session: the
    release panics, and the client is not destroyed. *)
Lemma release_closes_StopChan_once_witness :
  log.staleStop (log.set_closedChans {[7%nat]} (glob samples.withStopChan)) /\
  log.pc (log.run samples.world ([log.ActCtl; log.ActStop; log.ActCtl] ++ [log.ActCtl])
            (log.enter samples.noFilters
               {| glob := log.set_closedChans {[7%nat]} (glob samples.withStopChan);
                  trace := [] |}))
  = log.PcPanicked "close of closed channel".
Proof.
  assert (Hst : log.staleStop (log.set_closedChans {[7%nat]} (glob samples.withStopChan))).
  { exists 7%nat. split; [reflexivity|]. cbn. set_solver. }
  split; [exact Hst|].
  exact (proj2 (proj1 (proj2 (proj2 (proj2
           (release_closes_StopChan_once samples.world samples.noFilters
              {| glob := log.set_closedChans {[7%nat]} (glob samples.withStopChan);
                 trace := [] |}
              [log.ActCtl; log.ActStop; log.ActCtl])))) eq_refl) Hst).
Defined.
